(** * cloudigrade: the image-inspection pipeline of api/clouds/aws/tasks.py

  A shallow embedding of the Celery tasks that stage, dispatch and collect
  image inspections, and of the CloudTrail tag resolution, followed by the
  properties established about them.

  Layout: [Py] holds the Python primitives the tasks rely on, [Models] the
  entity store, [Aws] the provider-side world and the task monad, [Util]
  the helpers the tasks import, [Tasks] the tasks themselves, [Spec] the
  vocabulary of the properties and [Scenario] concrete situations.  The
  decorators of the tasks ([retriable_shared_task], [rewrap_aws_errors])
  act on what a task body raises and are not part of the bodies modelled
  here. *)

From stdpp Require Import gmap strings list fin_maps.
From Stdlib Require Import ZArith Ascii.

Set Warnings "-register-all,-clear-no-such-hyp".

(* ===================================================================== *)
(** ** Python primitives *)
(* ===================================================================== *)

Module Py.

(** [s.endswith(".")] *)
Fixpoint endswith_dot (s : string) : bool :=
  match s with
  | EmptyString => false
  | String c EmptyString => bool_decide (c = "."%char)
  | String _ r => endswith_dot r
  end.

(** [s[:-1]] *)
Fixpoint drop_last (s : string) : string :=
  match s with
  | EmptyString => EmptyString
  | String _ EmptyString => EmptyString
  | String c r => String c (drop_last r)
  end.

(** [s.startswith(p)] *)
Fixpoint startswith (p s : string) : bool :=
  match p, s with
  | EmptyString, _ => true
  | String _ _, EmptyString => false
  | String a p', String b s' => bool_decide (a = b) && startswith p' s'
  end.

(** [needle in hay] for two strings: substring test. *)
Fixpoint str_in (needle hay : string) : bool :=
  startswith needle hay
  || match hay with
     | EmptyString => false
     | String _ r => str_in needle r
     end.

(** [x in (a, b, ...)] for a tuple of strings: membership by equality. *)
Definition tuple_in (x : string) (t : list string) : bool :=
  bool_decide (x ∈ t).

(** [itertools.groupby(l, key)]: the maximal runs of consecutive elements
    with equal keys, in order.  The input is not sorted by [groupby]. *)
Fixpoint groupby {A K : Type} `{EqDecision K} (key : A → K) (l : list A)
  : list (K * list A) :=
  match l with
  | [] => []
  | x :: r =>
      match groupby key r with
      | (k, g) :: gs =>
          if decide (key x = k) then (k, x :: g) :: gs
          else (key x, [x]) :: (k, g) :: gs
      | [] => [(key x, [x])]
      end
  end.

(** One insertion of the stable sort: [x] goes before the first element
    whose key is not smaller, hence before its equals that followed it. *)
Fixpoint insert_by {A : Type} (key : A → Z) (x : A) (l : list A) : list A :=
  match l with
  | [] => [x]
  | y :: r => if (key x <=? key y)%Z then x :: y :: r else y :: insert_by key x r
  end.

(** [sorted(l, key=key)]: ascending and stable. *)
Definition sorted {A : Type} (key : A → Z) (l : list A) : list A :=
  foldr (insert_by key) [] l.

(** [itertools.filterfalse(pred, l)] *)
Definition filterfalse {A : Type} (pred : A → bool) (l : list A) : list A :=
  List.filter (λ x, negb (pred x)) l.

(** JSON values as [json.loads] yields them. *)
Inductive json :=
| JNull
| JBool (b : bool)
| JNum (n : Z)
| JStr (s : string)
| JList (l : list json)
| JDict (d : list (string * json)).

(** [d.get(k)] on a dict given by its items. *)
Fixpoint dict_get (k : string) (d : list (string * json)) : option json :=
  match d with
  | [] => None
  | (k', v) :: r => if decide (k = k') then Some v else dict_get k r
  end.

End Py.

(* ===================================================================== *)
(** ** Entity store (api.models, api.clouds.aws.models) *)
(* ===================================================================== *)

Module Models.

Inductive Status :=
| PENDING | PREPARING | INSPECTING | INSPECTED | ERROR | UNAVAILABLE.

#[global] Instance Status_eq_dec : EqDecision Status.
Proof. solve_decision. Defined.

Record MachineImage := mkMachineImage {
  status : Status;
  inspection_json : option string;
  is_encrypted : bool;
  rhel_detected_by_tag : bool;
  openshift_detected : bool
}.

(** An [AwsMachineImage] row, keyed by its [ec2_ami_id] in the store;
    [machine_image] is the generic relation to its [MachineImage], whose
    [.get()] raises [MachineImage.DoesNotExist] when there is none. *)
Record AwsMachineImage := mkAwsMachineImage {
  aws_marketplace_image : bool;
  machine_image : option MachineImage
}.

Definition with_status (s : Status) (mi : MachineImage) : MachineImage :=
  mkMachineImage s (inspection_json mi) (is_encrypted mi)
                 (rhel_detected_by_tag mi) (openshift_detected mi).

Definition with_inspection_json (j : option string) (mi : MachineImage)
  : MachineImage :=
  mkMachineImage (status mi) j (is_encrypted mi)
                 (rhel_detected_by_tag mi) (openshift_detected mi).

(** The status of the image with this id, when both rows exist. *)
Definition status_of (images : gmap string AwsMachineImage) (ec2_ami_id : string)
  : option Status :=
  match images !! ec2_ami_id with
  | Some a => status <$> machine_image a
  | None => None
  end.

Definition inspection_json_of (images : gmap string AwsMachineImage)
    (ec2_ami_id : string) : option string :=
  match images !! ec2_ami_id with
  | Some a => match machine_image a with
              | Some mi => inspection_json mi
              | None => None
              end
  | None => None
  end.

End Models.

(* ===================================================================== *)
(** ** Provider-side world and the task monad *)
(* ===================================================================== *)

Module Aws.
Import Models.

Record Message := mkMessage { ami_id : string; volume_id : string }.

#[global] Instance Message_eq_dec : EqDecision Message.
Proof. solve_decision. Defined.

Record AutoScalingGroup := mkAsg {
  MinSize : Z;
  MaxSize : Z;
  DesiredCapacity : Z;
  Instances : list string
}.

Inductive VolumeState := creating | available | in_use | deleting.

Inductive exn :=
| ClientError (code message : string)
| AwsECSInstanceNotReady
| AwsTooManyECSInstances
| AwsVolumeNotReadyError
| InvalidHoundigradeJsonFormat
| AttributeError
| EndpointConnectionError.

(** Tasks handed to Celery with [.delay(...)]. *)
Inductive Task :=
| copy_ami_snapshot_task (arn ami region : string) (reference_ami_id : option string)
| scale_down_cluster_task
| run_inspection_cluster_task (messages : list Message).

(** Mutating requests sent to the provider, in the order they were made. *)
Inductive Call :=
| ScaleUp
| ScaleDown
| AttachVolume (volume device instance : string)
| DeleteVolume (volume : string)
| DeleteSnapshot (snapshot : string)
| RemoveSnapshotOwnership (snapshot : string)
| ModifyAttribute (instance device : string)
| RegisterTaskDefinition (command : list string)
| RunTask (command : list string).

Inductive Level := LInfo | LWarning | LError.

Record World := mkWorld {
  images : gmap string AwsMachineImage;   (* entity store *)
  queue : list Message;                   (* the ready_volumes queue *)
  snapshots : gset string;                (* snapshots of the scanning account *)
  volumes : gmap string VolumeState;      (* volumes of the scanning account *)
  asg : AutoScalingGroup;                 (* the houndigrade scaling group *)
  delayed : list Task;
  calls : list Call;
  log : list (Level * string * string)
}.

Definition set_images (f : gmap string AwsMachineImage → gmap string AwsMachineImage)
    (w : World) : World :=
  mkWorld (f (images w)) (queue w) (snapshots w) (volumes w) (asg w)
          (delayed w) (calls w) (log w).
Definition set_queue (f : list Message → list Message) (w : World) : World :=
  mkWorld (images w) (f (queue w)) (snapshots w) (volumes w) (asg w)
          (delayed w) (calls w) (log w).
Definition set_snapshots (f : gset string → gset string) (w : World) : World :=
  mkWorld (images w) (queue w) (f (snapshots w)) (volumes w) (asg w)
          (delayed w) (calls w) (log w).
Definition set_volumes (f : gmap string VolumeState → gmap string VolumeState)
    (w : World) : World :=
  mkWorld (images w) (queue w) (snapshots w) (f (volumes w)) (asg w)
          (delayed w) (calls w) (log w).
Definition set_asg (f : AutoScalingGroup → AutoScalingGroup) (w : World) : World :=
  mkWorld (images w) (queue w) (snapshots w) (volumes w) (f (asg w))
          (delayed w) (calls w) (log w).
Definition add_delayed (t : Task) (w : World) : World :=
  mkWorld (images w) (queue w) (snapshots w) (volumes w) (asg w)
          (delayed w ++ [t]) (calls w) (log w).
Definition add_call (c : Call) (w : World) : World :=
  mkWorld (images w) (queue w) (snapshots w) (volumes w) (asg w)
          (delayed w) (calls w ++ [c]) (log w).
Definition add_log (l : Level * string * string) (w : World) : World :=
  mkWorld (images w) (queue w) (snapshots w) (volumes w) (asg w)
          (delayed w) (calls w) (log w ++ [l]).

(** A task body either returns or raises; the world it leaves is kept in
    both cases (the tasks below run in autocommit mode). *)
Inductive result (A : Type) :=
| Ok (a : A)
| Raise (e : exn).
Arguments Ok {A} a.
Arguments Raise {A} e.

Definition M (A : Type) : Type := World → result A * World.

Definition ret {A} (a : A) : M A := λ w, (Ok a, w).
Definition raise {A} (e : exn) : M A := λ w, (Raise e, w).
Definition bind {A B} (c : M A) (k : A → M B) : M B :=
  λ w, match c w with
       | (Ok a, w') => k a w'
       | (Raise e, w') => (Raise e, w')
       end.

(** [try: c except ClientError: h; raise] *)
Definition reraising_ClientError {A} (c : M A) (h : M unit) : M A :=
  λ w, match c w with
       | (Raise (ClientError code message), w') =>
           match h w' with
           | (Ok _, w'') => (Raise (ClientError code message), w'')
           | (Raise e', w'') => (Raise e', w'')
           end
       | r => r
       end.

Definition modify (f : World → World) : M unit := λ w, (Ok tt, f w).
Definition gets {A} (f : World → A) : M A := λ w, (Ok (f w), w).

Definition logger (l : Level) (text arg : string) : M unit :=
  modify (add_log (l, text, arg)).
Definition delay (t : Task) : M unit := modify (add_delayed t).
Definition call (c : Call) : M unit := modify (add_call c).

End Aws.

Notation "'let*' x ':=' c 'in' k" := (Aws.bind c (λ x, k))
  (at level 10, x binder, c at level 100, k at level 200).
Notation "c ';;' k" := (Aws.bind c (λ _, k))
(at level 100, k at level 200, right associativity).

(* ===================================================================== *)
(** ** Helpers the tasks import (api.clouds.aws.util, util.aws) *)
(* ===================================================================== *)

Module Util.
Import Py Models Aws.

(** Modelled from the spec: [update_aws_image_status_inspected] belongs to
    api.clouds.aws.util, which is not part of the sources covered here.  It
    updates the matching image to INSPECTED, with the marketplace flag and
    the inspection payload when they are given, and reports whether a record
    was there to update; an id with no matching record changes nothing. *)
Definition update_aws_image_status_inspected (ec2_ami_id : string)
    (marketplace : bool) (payload : option string) : M bool :=
  λ w,
    match images w !! ec2_ami_id with
    | Some (mkAwsMachineImage flag (Some image)) =>
        let image := with_status INSPECTED image in
        let image :=
          match payload with
          | Some j => with_inspection_json (Some j) image
          | None => image
          end in
        (Ok true,
         set_images
           (<[ec2_ami_id := mkAwsMachineImage (flag || marketplace) (Some image)]>) w)
    | _ => (Ok false, w)
    end.

(** Modelled from the spec: [update_aws_image_status_error] belongs to
    api.clouds.aws.util, which is not part of the sources covered here.  It
    marks the matching image ERROR and reports whether a record was there to
    update. *)
Definition update_aws_image_status_error (ec2_ami_id : string) : M bool :=
  λ w,
    match images w !! ec2_ami_id with
    | Some (mkAwsMachineImage flag (Some image)) =>
        (Ok true,
         set_images
           (<[ec2_ami_id := mkAwsMachineImage flag (Some (with_status ERROR image))]>) w)
    | _ => (Ok false, w)
    end.

(** Modelled from the spec: [aws.is_scaled_down] belongs to util.aws, which
    is not part of the sources covered here.  The group is fully scaled to
    zero when all of instance count, min size, max size and desired capacity
    are 0; the group read is returned with the verdict. *)
Definition is_scaled_down : M (bool * AutoScalingGroup) :=
  gets (λ w,
    let auto_scaling_group := asg w in
    (bool_decide (MinSize auto_scaling_group = 0%Z)
     && bool_decide (MaxSize auto_scaling_group = 0%Z)
     && bool_decide (DesiredCapacity auto_scaling_group = 0%Z)
     && bool_decide (length (Instances auto_scaling_group) = 0),
     auto_scaling_group)).

(** Modelled from the spec: [aws.scale_up] belongs to util.aws, which is
    not part of the sources covered here.  It requests one instance of the
    group; [outcome] is what the request raises, if anything: a
    [ClientError] when the provider answers with an error, another exception
    when the request does not get through (botocore's
    [EndpointConnectionError], say), or [None] when the provider accepts. *)
Definition scale_up (outcome : option exn) : M unit :=
  call ScaleUp ;;
  match outcome with
  | Some e => raise e
  | None =>
      modify (set_asg (λ g, mkAsg 1 1 1 (Instances g)))
  end.

(** Modelled from the spec: [aws.scale_down] belongs to util.aws, which is
    not part of the sources covered here.  It returns the group to zero
    capacity. *)
Definition scale_down : M unit :=
  call ScaleDown ;;
  modify (set_asg (λ g, mkAsg 0 0 0 (Instances g))).

(** Modelled from the spec: [read_messages_from_queue] belongs to
    util.aws.sqs, which is not part of the sources covered here.  It pulls
    up to [max_count] messages; the messages pulled leave the queue (the
    scaler re-adds them "so they aren't lost"). *)
Definition read_messages_from_queue (max_count : nat) : M (list Message) :=
  λ w, (Ok (take max_count (queue w)), set_queue (drop max_count) w).

(** Modelled from the spec: [add_messages_to_queue] belongs to
    util.aws.sqs, which is not part of the sources covered here.  It
    delivers the messages to the queue. *)
Definition add_messages_to_queue (messages : list Message) : M unit :=
  modify (set_queue (λ q, q ++ messages)).

(** Modelled from the spec: [aws.get_volume] belongs to util.aws, which is
    not part of the sources covered here.  It yields the handle of the
    volume, here its id; nothing is asked of the provider until the state is
    read. *)
Definition get_volume (volume_id region : string) : M string :=
  ret volume_id.

(** Modelled from the spec: [aws.check_volume_state] belongs to util.aws,
    which is not part of the sources covered here.  The follow-ups wait on
    the state the provider reports: the check passes on a ready volume and
    raises otherwise, so that the task is retried. *)
Definition check_volume_state (volume : string) : M unit :=
  λ w,
    match volumes w !! volume with
    | Some available => (Ok tt, w)
    | Some _ => (Raise AwsVolumeNotReadyError, w)
    | None => (Raise (ClientError "InvalidVolume.NotFound" volume), w)
    end.

(** Modelled from the spec: [aws.check_snapshot_state] belongs to util.aws,
    which is not part of the sources covered here.  Describing a snapshot
    that is gone is the provider's not-found error. *)
Definition check_snapshot_state (snapshot_id : string) : M unit :=
  λ w,
    if bool_decide (snapshot_id ∈ snapshots w) then (Ok tt, w)
    else (Raise (ClientError "InvalidSnapshot.NotFound" snapshot_id), w).

(** boto3 [ec2.Snapshot(id).delete()]: the provider refuses to delete a
    snapshot that does not exist. *)
Definition snapshot_delete (snapshot_id : string) : M unit :=
  λ w,
    if bool_decide (snapshot_id ∈ snapshots w)
    then (Ok tt, add_call (DeleteSnapshot snapshot_id)
                   (set_snapshots (λ s, s ∖ {[snapshot_id]}) w))
    else (Raise (ClientError "InvalidSnapshot.NotFound" snapshot_id), w).

(** boto3 [ec2.Volume(id).delete()].  [outcome] is what the request
    raises, if anything (the provider refuses to delete a volume that is
    gone or that is not available, and a request may not get through), or
    [None] when the provider deletes the volume. *)
Definition volume_delete (outcome : option exn) (volume_id : string) : M unit :=
  match outcome with
  | Some e => raise e
  | None =>
      call (DeleteVolume volume_id) ;;
      modify (set_volumes (delete volume_id))
  end.

End Util.

(* ===================================================================== *)
(** ** The tasks (api/clouds/aws/tasks.py) *)
(* ===================================================================== *)

Module Tasks.
Import Py Models Aws Util.

(** What [aws.get_ami] returns of an image: its id and whether it is public. *)
Record Ami := mkAmi { id : string; public : bool }.

Definition public_errors : list string :=
  [ "Images from AWS Marketplace cannot be copied to another AWS account";
    "Images with EC2 BillingProduct codes cannot be copied to another AWS account";
    "You do not have permission to access the storage of this ami" ].

(** A plain string in the source, not a tuple: [error in private_errors] is
    a substring test. *)
Definition private_errors : string :=
  "You do not have permission to access the storage of this ami".

(** [copy_ami_to_customer_account(arn, reference_ami_id, snapshot_region)].
    [get_ami] and [copy_ami] are the provider's answers: the described image,
    if any, and the id of the copy or the code and message of the error
    response that boto3 raises as a [ClientError]. *)
Definition copy_ami_to_customer_account
    (get_ami : string → string → option Ami)
    (copy_ami : string → string → string + string * string)
    (arn reference_ami_id snapshot_region : string) : M unit :=
  let* found := gets (λ w, bool_decide (is_Some (images w !! reference_ami_id))) in
  if negb found then
    logger LWarning "AwsMachineImage could not be found for copy_ami_to_customer_account"
           reference_ami_id
  else
    match get_ami reference_ami_id snapshot_region with
    | None =>
        logger LInfo "Cannot copy reference AMI. Saving ERROR status" reference_ami_id ;;
        let* _ := update_aws_image_status_error reference_ami_id in
        ret tt
    | Some reference_ami =>
        match copy_ami (id reference_ami) snapshot_region with
        | inr (code, message) =>
            if bool_decide (code = "InvalidRequest") then
              let error :=
                if endswith_dot message then drop_last message else message in
              if negb (public reference_ami) && str_in error private_errors then
                logger LWarning
                  "Found a private image with inaccessible storage. Saving ERROR status"
                  reference_ami_id ;;
                let* _ := update_aws_image_status_error reference_ami_id in
                ret tt
              else if tuple_in error public_errors then
                logger LInfo "Found a marketplace/community image, marking as inspected"
                       reference_ami_id ;;
                let* _ := update_aws_image_status_inspected reference_ami_id true None in
                ret tt
              else raise (ClientError code message)
            else raise (ClientError code message)
        | inl new_ami_id =>
            delay (copy_ami_snapshot_task arn new_ami_id snapshot_region
                                          (Some reference_ami_id))
        end
    end.

(** [remove_snapshot_ownership(arn, customer_snapshot_id,
    customer_snapshot_region, snapshot_copy_id)]: the wait on the snapshot
    copy tolerates its having been deleted already. *)
Definition remove_snapshot_ownership
    (arn customer_snapshot_id customer_snapshot_region snapshot_copy_id : string)
  : M unit :=
  (λ w,
     match check_snapshot_state snapshot_copy_id w with
     | (Raise (ClientError code message), w') =>
         if bool_decide (code = "InvalidSnapshot.NotFound") then
           logger LInfo "remove_snapshot_ownership detected snapshot_copy_id already deleted"
                  snapshot_copy_id w'
         else (Raise (ClientError code message), w')
     | r => r
     end) ;;
  logger LInfo "remove_snapshot_ownership remove ownership from customer snapshot"
         customer_snapshot_id ;;
  call (RemoveSnapshotOwnership customer_snapshot_id).

(** [delete_snapshot(snapshot_copy_id, volume_id, volume_region)] *)
Definition delete_snapshot (snapshot_copy_id volume_id volume_region : string)
  : M unit :=
  let* volume := get_volume volume_id volume_region in
  check_volume_state volume ;;
  logger LInfo "delete_snapshot delete cloudigrade snapshot copy" snapshot_copy_id ;;
  snapshot_delete snapshot_copy_id.

(** [enqueue_ready_volume(ami_id, volume_id, volume_region)] *)
Definition enqueue_ready_volume (ami_id volume_id volume_region : string) : M unit :=
  let* volume := get_volume volume_id volume_region in
  check_volume_state volume ;;
  let messages := [mkMessage ami_id volume_id] in
  add_messages_to_queue messages.

(** [scale_down_cluster()] *)
Definition scale_down_cluster : M unit :=
  logger LInfo "Scaling down ECS cluster." "" ;;
  scale_down.

(** The [for instance in auto_scaling_group.get("Instances", [])] loop. *)
Fixpoint log_instances (instances : list string) : M unit :=
  match instances with
  | [] => ret tt
  | instance :: rest =>
      logger LInfo "Instance exists" instance ;; log_instances rest
  end.

(** [scale_up_inspection_cluster()].  [HOUNDIGRADE_AWS_VOLUME_BATCH_SIZE] is
    the configured batch size, [scale_up_outcome] what the scale-up request
    raises, if anything, should one be made. *)
Definition scale_up_inspection_cluster
    (HOUNDIGRADE_AWS_VOLUME_BATCH_SIZE : nat)
    (scale_up_outcome : option exn)
  : M unit :=
  let* '(scaled_down, auto_scaling_group) := is_scaled_down in
  if negb scaled_down then
    logger LInfo "Auto Scaling group is not scaled down." "" ;;
    log_instances (Instances auto_scaling_group)
  else
    let* messages := read_messages_from_queue HOUNDIGRADE_AWS_VOLUME_BATCH_SIZE in
    if bool_decide (length messages = 0) then
      logger LInfo "Not scaling up because no new volumes were found." ""
    else
      reraising_ClientError (scale_up scale_up_outcome)
                            (add_messages_to_queue messages) ;;
      delay (run_inspection_cluster_task messages).

(** What [run_inspection_cluster] observes of the cluster and of the
    provider: the ECS container instances, the EC2 instance behind one,
    whether it is running, what each attach request (volume, device,
    instance) raises, if anything, and what the request to delete the volume
    of the message at a position raises, if anything.
    [generate_device_name] is util.misc's, and [lower] is Python's
    [str.lower], of which nothing is assumed. *)
Record Cluster := mkCluster {
  HOUNDIGRADE_DEBUG : bool;
  containerInstanceArns : list string;
  ec2InstanceId : string → string;
  is_running : string → bool;
  attach_to_instance : string → string → string → option exn;
  generate_device_name : nat → string;
  delete_volume : nat → string → option exn;
  lower : string → string
}.

(** The first loop of [run_inspection_cluster]: every message whose image
    rows exist has its image saved as INSPECTING and is kept. *)
Fixpoint relevant_loop (messages relevant_messages : list Message)
  : M (list Message) :=
  match messages with
  | [] => ret relevant_messages
  | message :: rest =>
      let ec2_ami_id := ami_id message in
      let* aws_machine_image := gets (λ w, images w !! ec2_ami_id) in
      match aws_machine_image with
      | None =>
          logger LWarning
            "Skipping inspection because we do not have an AwsMachineImage" ec2_ami_id ;;
          relevant_loop rest relevant_messages
      | Some (mkAwsMachineImage flag None) =>
          logger LWarning
            "Skipping inspection because we do not have a MachineImage" ec2_ami_id ;;
          relevant_loop rest relevant_messages
      | Some (mkAwsMachineImage flag (Some machine_image)) =>
          modify (set_images
            (<[ec2_ami_id :=
                 mkAwsMachineImage flag (Some (with_status INSPECTING machine_image))]>)) ;;
          relevant_loop rest (relevant_messages ++ [message])
      end
  end.

(** The attach loop of [run_inspection_cluster], from position [index] of
    [enumerate(relevant_messages)]. *)
Fixpoint attach_loop (c : Cluster) (ec2_instance_id : string) (index : nat)
    (relevant_messages : list Message) (task_command : list string)
  : M (list string) :=
  match relevant_messages with
  | [] => ret task_command
  | message :: rest =>
      let ec2_ami_id := ami_id message in
      let ec2_volume_id := volume_id message in
      let mount_point := generate_device_name c index in
      logger LInfo "run_inspection_cluster attaching volume" ec2_volume_id ;;
      match attach_to_instance c ec2_volume_id mount_point ec2_instance_id with
      | Some (ClientError error_code error_message) =>
          let* save_success :=
            if tuple_in error_code ["OptInRequired"; "IncorrectInstanceState"]
               && str_in "marketplace" (lower c error_message)
            then
              logger LInfo "Found a marketplace AMI when trying to copy volume"
                     ec2_ami_id ;;
              update_aws_image_status_inspected ec2_ami_id false None
            else
              logger LError "Encountered an issue when trying to attach volume"
                     ec2_volume_id ;;
              update_aws_image_status_error ec2_ami_id in
          (if negb save_success then
             logger LWarning "Failed to save updated status to AwsMachineImage"
                    ec2_ami_id
           else ret tt) ;;
          volume_delete (delete_volume c index ec2_volume_id) ec2_volume_id ;;
          attach_loop c ec2_instance_id (S index) rest task_command
      | Some e => raise e
      | None =>
          call (AttachVolume ec2_volume_id mount_point ec2_instance_id) ;;
          logger LInfo "run_inspection_cluster modify volume to auto-delete"
                 ec2_volume_id ;;
          call (ModifyAttribute ec2_instance_id mount_point) ;;
          attach_loop c ec2_instance_id (S index) rest
                      (task_command ++ ["-t"; ami_id message; mount_point])
      end
  end.

(** [run_inspection_cluster(messages, cloud="aws")] *)
Definition run_inspection_cluster (c : Cluster) (messages : list Message)
    (cloud : string) : M unit :=
  let* relevant_messages := relevant_loop messages [] in
  if bool_decide (relevant_messages = []) then
    delay scale_down_cluster_task
  else
    let task_command := ["-c"; cloud] in
    let task_command :=
      if HOUNDIGRADE_DEBUG c then task_command ++ ["--debug"] else task_command in
    match containerInstanceArns c with
    | [] => raise AwsECSInstanceNotReady
    | _ :: _ :: _ => raise AwsTooManyECSInstances
    | [arn] =>
        let ec2_instance_id := ec2InstanceId c arn in
        if negb (is_running c ec2_instance_id) then
          logger LWarning "ECS cluster has container instance but it is not running"
                 ec2_instance_id ;;
          raise AwsECSInstanceNotReady
        else
          logger LInfo "attaching volumes" "run_inspection_cluster" ;;
          let* task_command :=
            attach_loop c ec2_instance_id 0 relevant_messages task_command in
          if negb (bool_decide ("-t" ∈ task_command)) then
            logger LWarning "No targets left to inspect, exiting early." ""
          else
            call (RegisterTaskDefinition task_command) ;;
            call (RunTask task_command)
    end.

(** The [for image_id, image_json in images.items()] loop of
    [persist_aws_inspection_cluster_results]. *)
Fixpoint persist_loop (json_dumps : json → string) (items : list (string * json))
  : M unit :=
  match items with
  | [] => ret tt
  | (image_id, image_json) :: rest =>
      let* save_success :=
        update_aws_image_status_inspected image_id false
                                          (Some (json_dumps image_json)) in
      (if negb save_success then
         logger LWarning
           "Persisting AWS inspection results, but we do not have any record of it"
           image_id
       else ret tt) ;;
      persist_loop json_dumps rest
  end.

(** [persist_aws_inspection_cluster_results(inspection_results)].  The
    payload is the dict [json.loads] produced, given by its items; a value
    that is not a dict has no [.items()].  The function runs in one
    transaction; it raises only before its first write, so there is nothing
    to roll back. *)
Definition persist_aws_inspection_cluster_results (json_dumps : json → string)
    (inspection_results : list (string * json)) : M unit :=
  match dict_get "images" inspection_results with
  | None => raise InvalidHoundigradeJsonFormat
  | Some JNull => raise InvalidHoundigradeJsonFormat
  | Some (JDict images) => persist_loop json_dumps images
  | Some _ => raise AttributeError
  end.

Record CloudTrailImageTagEvent := mkTagEvent {
  occurred_at : Z;
  aws_account_id : string;
  region : string;
  ec2_ami_id : string;
  tag : string;
  exists_ : bool
}.

(** One turn of [for event in ordered_events[::-1]]. *)
Definition tag_event_step (ec2_ami_id : string)
    (sets : gset string * gset string) (event : CloudTrailImageTagEvent)
  : gset string * gset string :=
  let '(tagged_ami_ids, untagged_ami_ids) := sets in
  if bool_decide (ec2_ami_id ∉ tagged_ami_ids)
     && bool_decide (ec2_ami_id ∉ untagged_ami_ids)
  then
    if exists_ event
    then ({[ec2_ami_id]} ∪ tagged_ami_ids, untagged_ami_ids)
    else (tagged_ami_ids, {[ec2_ami_id]} ∪ untagged_ami_ids)
  else sets.

(** One turn of the loop over the groups of [itertools.groupby]. *)
Definition tag_group_step (the_tag : string)
    (sets : gset string * gset string)
    (group : string * list CloudTrailImageTagEvent)
  : gset string * gset string :=
  let '(ec2_ami_id, events_info) := group in
  let ordered_events :=
    sorted occurred_at
           (filterfalse (λ e, negb (bool_decide (tag e = the_tag))) events_info) in
  foldl (tag_event_step ec2_ami_id) sets (reverse ordered_events).

(** [_extract_ami_ids_by_tag_change(ami_tag_events, tag)] *)
Definition _extract_ami_ids_by_tag_change
    (ami_tag_events : list CloudTrailImageTagEvent) (the_tag : string)
  : gset string * gset string :=
  foldl (tag_group_step the_tag) (∅, ∅) (groupby ec2_ami_id ami_tag_events).

End Tasks.

(* ===================================================================== *)
(** ** Vocabulary of the properties *)
(* ===================================================================== *)

Module Spec.
Import Py Models Aws.

(** The elastic group is fully scaled to zero: instance count 0 and min
    size, max size and desired capacity all 0. *)
Definition fully_at_zero (g : AutoScalingGroup) : Prop :=
  length (Instances g) = 0
  ∧ MinSize g = 0%Z ∧ MaxSize g = 0%Z ∧ DesiredCapacity g = 0%Z.

(** An attach error that reveals a marketplace image: the error code is
    OptInRequired or IncorrectInstanceState and the message mentions
    marketplace, in any letter case ([lower] being [str.lower]). *)
Definition marketplace_attach_error (lower : string → string)
    (code message : string) : Prop :=
  (code = "OptInRequired" ∨ code = "IncorrectInstanceState")
  ∧ str_in "marketplace" (lower message) = true.

(** A stored image once a result payload has been persisted for it. *)
Definition persisted (payload : string) (a : AwsMachineImage) : AwsMachineImage :=
  match a with
  | mkAwsMachineImage flag (Some image) =>
      mkAwsMachineImage flag
        (Some (with_inspection_json (Some payload) (with_status INSPECTED image)))
  | _ => a
  end.

End Spec.

(* ===================================================================== *)
(** ** Concrete situations used to exercise the tasks *)
(* ===================================================================== *)

Module Scenario.
Import Py Models Aws Util Tasks.

Definition stored (s : Status) : AwsMachineImage :=
  mkAwsMachineImage false (Some (mkMachineImage s None false false false)).

Definition idle_group : AutoScalingGroup := mkAsg 0 0 0 [].
Definition busy_group : AutoScalingGroup := mkAsg 1 1 1 ["i-0a1"].

(** One image already INSPECTED, its volume ready, the cluster up. *)
Definition inspected_world : World :=
  mkWorld (<["ami-1" := stored INSPECTED]> ∅) []
          ∅ (<["vol-1" := available]> ∅) busy_group [] [] [].

(** Two pending images whose ready volumes are waiting in the queue, the
    cluster being at zero. *)
Definition waiting_world : World :=
  mkWorld (<["ami-1" := stored PENDING]> (<["ami-2" := stored PENDING]> ∅))
          [mkMessage "ami-1" "vol-1"; mkMessage "ami-2" "vol-2"]
          ∅ (<["vol-1" := available]> (<["vol-2" := available]> ∅))
          idle_group [] [] [].

(** Two stored images whose volumes are gone, the cluster up. *)
Definition volumes_gone_world : World :=
  mkWorld (<["ami-1" := stored PENDING]> (<["ami-2" := stored PENDING]> ∅)) []
          ∅ ∅ busy_group [] [] [].

(** The volume is ready and the snapshot copy it came from is gone. *)
Definition copy_gone_world : World :=
  mkWorld (<["ami-1" := stored PENDING]> ∅) []
          ∅ (<["vol-1" := available]> ∅) idle_group [] [] [].

Definition device_name (index : nat) : string :=
  String "/" (String "d" (String "e" (String "v" (String "/" (String "x"
    (String "v" (String "d" (String (ascii_of_nat (98 + index)) EmptyString)))))))).

(** What [str.lower] does on text made of ASCII characters. *)
Definition ascii_lower_char (c : ascii) : ascii :=
  let n := nat_of_ascii c in
  if (65 <=? n)%nat && (n <=? 90)%nat then ascii_of_nat (n + 32) else c.

Fixpoint ascii_lower (s : string) : string :=
  match s with
  | EmptyString => EmptyString
  | String c r => String (ascii_lower_char c) (ascii_lower r)
  end.

(** A cluster with its single running host; every attach succeeds. *)
Definition healthy_cluster : Cluster :=
  mkCluster false ["arn:container-instance/1"] (λ _, "i-0a1") (λ _, true)
            (λ _ _ _, None) device_name (λ _ _, None) ascii_lower.

(** The same cluster when the provider refuses every attach with a
    marketplace complaint, and deletes the volumes it is asked to. *)
Definition marketplace_cluster : Cluster :=
  mkCluster false ["arn:container-instance/1"] (λ _, "i-0a1") (λ _, true)
            (λ _ _ _, Some (ClientError "OptInRequired"
                              "This volume requires a Marketplace subscription"))
            device_name (λ _ _, None) ascii_lower.

(** The same cluster when the volumes of the batch are gone: the provider
    answers both the attach and the delete requests with its not-found
    error. *)
Definition lost_volume_cluster : Cluster :=
  mkCluster false ["arn:container-instance/1"] (λ _, "i-0a1") (λ _, true)
            (λ volume _ _, Some (ClientError "InvalidVolume.NotFound" volume))
            device_name
            (λ _ volume, Some (ClientError "InvalidVolume.NotFound" volume))
            ascii_lower.

Definition private_ami (ami region : string) : option Ami :=
  Some (mkAmi ami false).

Definition marketplace_refusal (ami region : string) : string + string * string :=
  inr ("InvalidRequest",
       "Images from AWS Marketplace cannot be copied to another AWS account.").

Definition dumps (j : json) : string :=
  match j with
  | JDict [] => "{}"
  | JNull => "null"
  | _ => "{...}"
  end.

Definition tag_event (occurred_at : Z) (ec2_ami_id the_tag : string) (exists_ : bool)
  : CloudTrailImageTagEvent :=
  mkTagEvent occurred_at "123456789012" "us-east-1" ec2_ami_id the_tag exists_.

(** Tag events of two images, those of the first around that of the second. *)
Definition interleaved_events (the_tag : string) : list CloudTrailImageTagEvent :=
  [ tag_event 1 "ami-a" the_tag true;
    tag_event 2 "ami-b" the_tag true;
    tag_event 3 "ami-a" the_tag false ].

End Scenario.

(* ===================================================================== *)
(** ** Vocabulary of the dispatcher's requests *)
(* ===================================================================== *)

Module Dispatch.
Import Py Models Aws Util Tasks.

(** The targets of the scan command for the messages attached from position
    [index] on: [-t <image id> <device path>] for each, in order. *)
Fixpoint scan_targets (c : Cluster) (index : nat) (messages : list Message)
  : list string :=
  match messages with
  | [] => []
  | message :: rest =>
      ["-t"; ami_id message; generate_device_name c index]
      ++ scan_targets c (S index) rest
  end.

(** The provider requests of those attachments. *)
Fixpoint attach_calls (c : Cluster) (ec2_instance_id : string) (index : nat)
    (messages : list Message) : list Call :=
  match messages with
  | [] => []
  | message :: rest =>
      [AttachVolume (volume_id message) (generate_device_name c index) ec2_instance_id;
       ModifyAttribute ec2_instance_id (generate_device_name c index)]
      ++ attach_calls c ec2_instance_id (S index) rest
  end.

(** The world apart from the entity store and the log. *)
Definition same_provider_side (w w' : World) : Prop :=
  queue w' = queue w ∧ snapshots w' = snapshots w ∧ volumes w' = volumes w
  ∧ asg w' = asg w ∧ delayed w' = delayed w ∧ calls w' = calls w.

End Dispatch.


(* ===================================================================== *)
(** ** The staging tasks: [copy_ami_snapshot], [create_volume] *)
(* ===================================================================== *)

Module Staging.
Import Py Models Aws Util Tasks.

(** What [aws.get_snapshot] returns of a snapshot. *)
Record Snapshot := mkSnapshot {
  snapshot_id : string;
  encrypted : bool;
  owner_id : string
}.

(** The staging tasks handed to Celery with [.delay(...)]. *)
Inductive StagingTask :=
| copy_ami_to_customer_account_task (arn ami region : string)
| remove_snapshot_ownership_task
    (arn customer_snapshot_id customer_snapshot_region snapshot_copy_id : string)
| create_volume_task (ami snapshot_copy_id : string)
| delete_snapshot_task (snapshot_copy_id volume_id volume_region : string)
| enqueue_ready_volume_task (ami volume_id volume_region : string).

(** The requests staging sends to the provider. *)
Inductive StagingCall :=
| AddSnapshotOwnership (snapshot : string)
| CopySnapshot (snapshot region : string)
| CreateVolume (snapshot_copy zone : string).

(** What a staging task can raise: an exception of the tasks above, or a
    model's [DoesNotExist]. *)
Inductive failure :=
| Raised (e : exn)
| DoesNotExist (model : string).

Inductive outcome (A : Type) :=
| Done (a : A)
| Failed (f : failure).
Arguments Done {A} a.
Arguments Failed {A} f.

(** The world of the staging tasks: the world of the other tasks, the
    staging tasks scheduled, the requests made, and the
    [AwsMachineImageCopy] rows (copy id, reference id). *)
Record Stage := mkStage {
  world : World;
  scheduled : list StagingTask;
  requests : list StagingCall;
  image_copies : list (string * string)
}.

Definition SM (A : Type) : Type := Stage → outcome A * Stage.

Definition sret {A} (a : A) : SM A := λ st, (Done a, st).
Definition sraise {A} (f : failure) : SM A := λ st, (Failed f, st).
Definition sbind {A B} (c : SM A) (k : A → SM B) : SM B :=
  λ st, match c st with
        | (Done a, st') => k a st'
        | (Failed f, st') => (Failed f, st')
        end.

(** A task action of the other tasks, run on the world of the stage. *)
Definition lift {A} (c : M A) : SM A :=
  λ st, match c (world st) with
        | (Ok a, w') =>
            (Done a, mkStage w' (scheduled st) (requests st) (image_copies st))
        | (Raise e, w') =>
            (Failed (Raised e),
             mkStage w' (scheduled st) (requests st) (image_copies st))
        end.

Definition schedule (t : StagingTask) : SM unit :=
  λ st, (Done tt, mkStage (world st) (scheduled st ++ [t]) (requests st)
                          (image_copies st)).
Definition request (c : StagingCall) : SM unit :=
  λ st, (Done tt, mkStage (world st) (scheduled st) (requests st ++ [c])
                          (image_copies st)).

(** Modelled from the spec: [create_aws_machine_image_copy] belongs to
    api.clouds.aws.util, which is not part of the sources covered here.  It
    records that the image [copy_ami_id] is a copy of [reference_ami_id]. *)
Definition create_aws_machine_image_copy (copy_ami_id reference_ami_id : string)
  : SM unit :=
  λ st, (Done tt, mkStage (world st) (scheduled st) (requests st)
                          (image_copies st ++ [(copy_ami_id, reference_ami_id)])).

Definition with_is_encrypted (b : bool) (mi : MachineImage) : MachineImage :=
  mkMachineImage (status mi) (inspection_json mi) b
                 (rhel_detected_by_tag mi) (openshift_detected mi).

(** Truth value of an optional string: [None] and the empty string are
    false. *)
Definition truthy (o : option string) : bool :=
  match o with
  | Some EmptyString => false
  | Some _ => true
  | None => false
  end.

(** What [copy_ami_snapshot] asks of the provider: the account of the
    session, the image, the id of its snapshot, the snapshot (or the code
    and message of the [ClientError]), and the id given to a snapshot copy. *)
Record Provider := mkProvider {
  get_session_account_id : string → string;
  get_ami : string → string → option Ami;
  get_ami_snapshot_id : Ami → option string;
  get_snapshot : string → string → Snapshot + string * string;
  copy_snapshot : string → string → string
}.

End Staging.

Notation "'let+' x ':=' c 'in' k" := (Staging.sbind c (λ x, k))
  (at level 10, x binder, c at level 100, k at level 200).
Notation "c ';+' k" := (Staging.sbind c (λ _, k))
  (at level 100, k at level 200, right associativity).

Module StagingTasks.
Import Py Models Aws Util Tasks Staging.

(** The encrypted branch of [copy_ami_snapshot]: the image of [ami_id] is
    fetched, flagged encrypted and saved as ERROR. *)
Definition mark_encrypted (ami_id : string) : SM unit :=
  λ st,
    match images (world st) !! ami_id with
    | None => (Failed (DoesNotExist "AwsMachineImage"), st)
    | Some (mkAwsMachineImage flag None) => (Failed (DoesNotExist "MachineImage"), st)
    | Some (mkAwsMachineImage flag (Some image)) =>
        (Done tt,
         mkStage
           (set_images
              (<[ami_id := mkAwsMachineImage flag
                   (Some (with_status ERROR (with_is_encrypted true image)))]>)
              (world st))
           (scheduled st) (requests st) (image_copies st))
    end.

(** [copy_ami_snapshot(arn, ami_id, snapshot_region, reference_ami_id=None)] *)
Definition copy_ami_snapshot (p : Provider)
    (arn ami_id snapshot_region : string) (reference_ami_id : option string)
  : SM unit :=
  let+ known :=
    lift (gets (λ w,
      if truthy reference_ami_id
      then bool_decide (is_Some (images w !! default "" reference_ami_id))
      else bool_decide (is_Some (images w !! ami_id)))) in
  if negb known then
    lift (logger LWarning
            (if truthy reference_ami_id
             then "AwsMachineImage could not be found for copy_ami_snapshot (using reference_ami_id)"
             else "AwsMachineImage could not be found for copy_ami_snapshot")
            ami_id)
  else
    let session_account_id := get_session_account_id p arn in
    match get_ami p ami_id snapshot_region with
    | None =>
        lift (logger LInfo "Cannot copy AMI snapshot. Saving ERROR status" ami_id) ;+
        let+ _ := lift (update_aws_image_status_error ami_id) in
        sret tt
    | Some ami =>
        let customer_snapshot_id := get_ami_snapshot_id p ami in
        if negb (truthy customer_snapshot_id) then
          lift (logger LInfo
                  "Cannot get customer snapshot id from AMI. Saving ERROR status"
                  ami_id) ;+
          let+ _ := lift (update_aws_image_status_error ami_id) in
          sret tt
        else
          let customer_snapshot_id := default "" customer_snapshot_id in
          match get_snapshot p customer_snapshot_id snapshot_region with
          | inr (code, message) =>
              if bool_decide (code = "InvalidSnapshot.NotFound") then
                schedule (copy_ami_to_customer_account_task arn ami_id snapshot_region)
              else sraise (Raised (ClientError code message))
          | inl customer_snapshot =>
              if encrypted customer_snapshot then
                mark_encrypted ami_id ;+
                lift (logger LInfo "AWS snapshot is encrypted and cannot be copied"
                             (snapshot_id customer_snapshot))
              else
                lift (logger LInfo "AWS snapshot owner and current session account"
                             (snapshot_id customer_snapshot)) ;+
                if negb (bool_decide (owner_id customer_snapshot = session_account_id))
                   && bool_decide (reference_ami_id = None)
                then
                  schedule (copy_ami_to_customer_account_task arn ami_id snapshot_region)
                else
                  request (AddSnapshotOwnership (snapshot_id customer_snapshot)) ;+
                  let snapshot_copy_id :=
                    copy_snapshot p customer_snapshot_id snapshot_region in
                  request (CopySnapshot customer_snapshot_id snapshot_region) ;+
                  lift (logger LInfo "copy_ami_snapshot: snapshot copied"
                               snapshot_copy_id) ;+
                  schedule (remove_snapshot_ownership_task
                              arn customer_snapshot_id snapshot_region snapshot_copy_id) ;+
                  match reference_ami_id with
                  | Some reference =>
                      create_aws_machine_image_copy ami_id reference ;+
                      schedule (create_volume_task reference snapshot_copy_id)
                  | None => schedule (create_volume_task ami_id snapshot_copy_id)
                  end
          end
    end.

(** A request sent to the provider, which may refuse it or be out of
    reach: [refused c] is what the request raises, if anything. *)
Definition request_checked (refused : StagingCall → option exn) (c : StagingCall)
  : SM unit :=
  request c ;+
  match refused c with
  | Some e => sraise (Raised e)
  | None => sret tt
  end.

(** [copy_ami_snapshot] again, with the answers to the two requests it sends
    outside its [try] block, [aws.add_snapshot_ownership] and
    [aws.copy_snapshot], made explicit: what either raises is not caught.
    With no refusal this is [copy_ami_snapshot] above. *)
Definition copy_ami_snapshot_with_refusals (refused : StagingCall → option exn)
    (p : Provider) (arn ami_id snapshot_region : string)
    (reference_ami_id : option string) : SM unit :=
  let+ known :=
    lift (gets (λ w,
      if truthy reference_ami_id
      then bool_decide (is_Some (images w !! default "" reference_ami_id))
      else bool_decide (is_Some (images w !! ami_id)))) in
  if negb known then
    lift (logger LWarning
            (if truthy reference_ami_id
             then "AwsMachineImage could not be found for copy_ami_snapshot (using reference_ami_id)"
             else "AwsMachineImage could not be found for copy_ami_snapshot")
            ami_id)
  else
    let session_account_id := get_session_account_id p arn in
    match get_ami p ami_id snapshot_region with
    | None =>
        lift (logger LInfo "Cannot copy AMI snapshot. Saving ERROR status" ami_id) ;+
        let+ _ := lift (update_aws_image_status_error ami_id) in
        sret tt
    | Some ami =>
        let customer_snapshot_id := get_ami_snapshot_id p ami in
        if negb (truthy customer_snapshot_id) then
          lift (logger LInfo
                  "Cannot get customer snapshot id from AMI. Saving ERROR status"
                  ami_id) ;+
          let+ _ := lift (update_aws_image_status_error ami_id) in
          sret tt
        else
          let customer_snapshot_id := default "" customer_snapshot_id in
          match get_snapshot p customer_snapshot_id snapshot_region with
          | inr (code, message) =>
              if bool_decide (code = "InvalidSnapshot.NotFound") then
                schedule (copy_ami_to_customer_account_task arn ami_id snapshot_region)
              else sraise (Raised (ClientError code message))
          | inl customer_snapshot =>
              if encrypted customer_snapshot then
                mark_encrypted ami_id ;+
                lift (logger LInfo "AWS snapshot is encrypted and cannot be copied"
                             (snapshot_id customer_snapshot))
              else
                lift (logger LInfo "AWS snapshot owner and current session account"
                             (snapshot_id customer_snapshot)) ;+
                if negb (bool_decide (owner_id customer_snapshot = session_account_id))
                   && bool_decide (reference_ami_id = None)
                then
                  schedule (copy_ami_to_customer_account_task arn ami_id snapshot_region)
                else
                  request_checked refused
                    (AddSnapshotOwnership (snapshot_id customer_snapshot)) ;+
                  let snapshot_copy_id :=
                    copy_snapshot p customer_snapshot_id snapshot_region in
                  request_checked refused
                    (CopySnapshot customer_snapshot_id snapshot_region) ;+
                  lift (logger LInfo "copy_ami_snapshot: snapshot copied"
                               snapshot_copy_id) ;+
                  schedule (remove_snapshot_ownership_task
                              arn customer_snapshot_id snapshot_region snapshot_copy_id) ;+
                  match reference_ami_id with
                  | Some reference =>
                      create_aws_machine_image_copy ami_id reference ;+
                      schedule (create_volume_task reference snapshot_copy_id)
                  | None => schedule (create_volume_task ami_id snapshot_copy_id)
                  end
          end
    end.

End StagingTasks.

(* ===================================================================== *)
(** ** The audit-log reconciler's loop: [analyze_log] *)
(* ===================================================================== *)

Module Feed.
Import Py Models Aws.

(** A message of the CloudTrail event queue. *)
Record FeedMessage := mkFeedMessage { message_id : string; body : string }.

#[global] Instance FeedMessage_eq_dec : EqDecision FeedMessage.
Proof. solve_decision. Defined.

(** The world of [analyze_log]: whatever [_process_cloudtrail_message]
    works on (the entity store, the log objects, the provider), the messages
    on the event queue, and the log. *)
Record FeedWorld (X : Type) := mkFeedWorld {
  processing : X;
  feed : list FeedMessage;
  feed_log : list (Level * string * string)
}.
Arguments mkFeedWorld {X} _ _ _.
Arguments processing {X} _.
Arguments feed {X} _.
Arguments feed_log {X} _.

(** Modelled from the spec: [aws.delete_messages_from_queue] belongs to
    util.aws, which is not part of the sources covered here.  It
    acknowledges the messages: they leave the event queue. *)
Definition delete_messages_from_queue {X} (messages : list FeedMessage)
    (fw : FeedWorld X) : FeedWorld X :=
  mkFeedWorld (processing fw) (list_difference (feed fw) messages) (feed_log fw).

Definition feed_logger {X} (l : Level) (text arg : string) (fw : FeedWorld X)
  : FeedWorld X :=
  mkFeedWorld (processing fw) (feed fw) (feed_log fw ++ [(l, text, arg)]).

(** The loop of [analyze_log] over the messages yielded by the event queue.
    [process] stands for [_process_cloudtrail_message]; whatever it raises
    is caught and logged, and counts as a failure. *)
Fixpoint analyze_loop {X} (process : FeedMessage → X → result bool * X)
    (messages successes failures : list FeedMessage) (fw : FeedWorld X)
  : list FeedMessage * list FeedMessage * FeedWorld X :=
  match messages with
  | [] => (successes, failures, fw)
  | message :: rest =>
      let '(success, fw) :=
        match process message (processing fw) with
        | (Ok success, x) => (success, mkFeedWorld x (feed fw) (feed_log fw))
        | (Raise e, x) =>
            (false,
             feed_logger LError "Unexpected error in log processing"
                         (message_id message)
                         (mkFeedWorld x (feed fw) (feed_log fw)))
        end in
      if success then
        let fw := feed_logger LInfo
                    "Successfully processed message; deleting from queue"
                    (message_id message) fw in
        let fw := delete_messages_from_queue [message] fw in
        analyze_loop process rest (successes ++ [message]) failures fw
      else
        let fw := feed_logger LError "Failed to process message; leaving on queue"
                              (message_id message) fw in
        analyze_loop process rest successes (failures ++ [message]) fw
  end.

(** [analyze_log()], [messages] being what
    [aws.yield_messages_from_queue(queue_url)] yields. *)
Definition analyze_log {X} (process : FeedMessage → X → result bool * X)
    (messages : list FeedMessage) (fw : FeedWorld X)
  : list FeedMessage * list FeedMessage * FeedWorld X :=
  analyze_loop process messages [] [] fw.

End Feed.

(* ===================================================================== *)
(** ** The gap-fill pass: [_load_missing_instance_data] *)
(* ===================================================================== *)

Module CloudTrail.
Import Py.

Record CloudTrailInstanceEvent := mkInstanceEvent {
  occurred_at : string;
  aws_account_id : string;
  region : string;
  ec2_instance_id : string;
  event_type : string;
  instance_type : option string;
  ec2_ami_id : option string;
  subnet_id : option string
}.

(** [_instance_event_is_complete(instance_event)] *)
Definition _instance_event_is_complete (instance_event : CloudTrailInstanceEvent)
  : bool :=
  bool_decide (instance_type instance_event ≠ None)
  && bool_decide (ec2_ami_id instance_event ≠ None).

(** An instance as [aws.describe_instances] describes it; the two
    [found_...] entries are added by the pass. *)
Record DescribedInstance := mkDescribed {
  ImageId : string;
  found_by_account_arn : option string;
  found_in_region : option string
}.

(** What the pass reads of the entity store: the instances stored with an
    image, the instances with a stored event that carries a type, and the
    role of each known account. *)
Record InstanceDb := mkInstanceDb {
  instances_with_image : gset string;
  instances_with_typed_event : gset string;
  account_arns : gmap string string
}.

(** The store already knows the image of the instance and, from some event,
    its type: the two queries of the first loop. *)
Definition stored_instance (db : InstanceDb) (ec2_instance_id : string) : Prop :=
  ec2_instance_id ∈ instances_with_image db
  ∧ ec2_instance_id ∈ instances_with_typed_event db.

(** One turn of the first loop, which collects the instances that need no
    describe. *)
Definition defined_step (db : InstanceDb) (defined_ec2_instance_ids : gset string)
    (instance_event : CloudTrailInstanceEvent) : gset string :=
  let ec2_instance_id := ec2_instance_id instance_event in
  if _instance_event_is_complete instance_event
     || bool_decide (ec2_instance_id ∈ defined_ec2_instance_ids)
  then {[ec2_instance_id]} ∪ defined_ec2_instance_ids
  else if bool_decide (ec2_instance_id ∈ instances_with_image db)
          && bool_decide (ec2_instance_id ∈ instances_with_typed_event db)
  then {[ec2_instance_id]} ∪ defined_ec2_instance_ids
  else defined_ec2_instance_ids.

(** The describes made so far: the instances described, and the calls to
    the provider (role, region, instance ids). *)
Record Describing := mkDescribing {
  described_instances : gmap string DescribedInstance;
  describe_calls : list (string * string * gset string)
}.

(** The loop over the (account, region) groups; [None] when an account of a
    group is not stored ([AwsCloudAccount.DoesNotExist]). *)
Fixpoint describe_groups
    (describe_instances : string → string → gset string → gmap string DescribedInstance)
    (db : InstanceDb) (defined_ec2_instance_ids : gset string)
    (groups : list (string * string * list CloudTrailInstanceEvent))
    (acc : Describing) : Describing * bool :=
  match groups with
  | [] => (acc, true)
  | (aws_account_id, region, grouped_instance_events) :: rest =>
      let ec2_instance_ids : gset string :=
        list_to_set (ec2_instance_id <$> grouped_instance_events)
        ∖ defined_ec2_instance_ids in
      if bool_decide (ec2_instance_ids = ∅) then
        describe_groups describe_instances db defined_ec2_instance_ids rest acc
      else
        match account_arns db !! aws_account_id with
        | None => (acc, false)
        | Some account_arn =>
            let new_described_instances :=
              describe_instances account_arn region ec2_instance_ids in
            let found :=
              (λ d, mkDescribed (ImageId d) (Some account_arn) (Some region))
                <$> new_described_instances in
            describe_groups describe_instances db defined_ec2_instance_ids rest
              (mkDescribing (found ∪ described_instances acc)
                            (describe_calls acc
                             ++ [(account_arn, region, ec2_instance_ids)]))
        end
  end.

(** The loop that adds the missing image ids to the events. *)
Definition backfill (described : gmap string DescribedInstance)
    (instance_event : CloudTrailInstanceEvent) : CloudTrailInstanceEvent :=
  match ec2_ami_id instance_event, described !! ec2_instance_id instance_event with
  | None, Some described_instance =>
      mkInstanceEvent (occurred_at instance_event) (aws_account_id instance_event)
                      (region instance_event) (ec2_instance_id instance_event)
                      (event_type instance_event) (instance_type instance_event)
                      (Some (ImageId described_instance)) (subnet_id instance_event)
  | _, _ => instance_event
  end.

(** [_load_missing_instance_data(instance_events)]: the calls made to the
    provider, and the result: the instances described and the events as the
    pass leaves them, or [None] when it raised.  The log lines of the pass
    are not modelled. *)
Definition _load_missing_instance_data
    (describe_instances : string → string → gset string → gmap string DescribedInstance)
    (db : InstanceDb) (instance_events : list CloudTrailInstanceEvent)
  : list (string * string * gset string)
    * option (gmap string DescribedInstance * list CloudTrailInstanceEvent) :=
  let defined_ec2_instance_ids := foldl (defined_step db) ∅ instance_events in
  let '(acc, completed) :=
    describe_groups describe_instances db defined_ec2_instance_ids
      (groupby (λ e, (aws_account_id e, region e)) instance_events)
      (mkDescribing ∅ []) in
  (describe_calls acc,
   if completed
   then Some (described_instances acc,
              backfill (described_instances acc) <$> instance_events)
   else None).

End CloudTrail.

(* ===================================================================== *)
(** ** The instance type catalog: [_save_ec2_instance_type_definitions] *)
(* ===================================================================== *)

Module Catalog.
Import Py Aws.

(** The attributes of an instance type; [memory] is kept as the catalog
    gives it, whatever the number type. *)
Record Attributes (number : Type) := mkAttributes {
  memory : number;
  vcpu : Z
}.
Arguments mkAttributes {number} _ _.
Arguments memory {number} _.
Arguments vcpu {number} _.

(** [AwsEC2InstanceDefinition.objects.get_or_create(instance_type=name,
    defaults=...)]: the stored row if there is one, else a new row with the
    defaults; the flag tells whether it was created. *)
Definition get_or_create {number} (name : string) (defaults : Attributes number)
    (table : gmap string (Attributes number))
  : Attributes number * bool * gmap string (Attributes number) :=
  match table !! name with
  | Some obj => (obj, false, table)
  | None => (defaults, true, <[name := defaults]> table)
  end.

(** [_save_ec2_instance_type_definitions(definitions)], on the table of
    stored definitions and the log.  [definitions] is the dict given by its
    items. *)
Fixpoint _save_ec2_instance_type_definitions {number}
    (definitions : list (string * Attributes number))
    (table : gmap string (Attributes number)) (log : list (Level * string * string))
  : gmap string (Attributes number) * list (Level * string * string) :=
  match definitions with
  | [] => (table, log)
  | (name, attributes) :: rest =>
      let '(obj, created, table) :=
        get_or_create name (mkAttributes (memory attributes) (vcpu attributes)) table in
      let log :=
        if created
        then log ++ [(LInfo, "Saving new instance type", name)]
        else log ++ [(LInfo, "Instance type already exists.", name)] in
      _save_ec2_instance_type_definitions rest table log
  end.

End Catalog.

(* ===================================================================== *)
(** ** account/migrations/0037_update_celery_periodic_tasks.py *)
(* ===================================================================== *)

Module Migration0037.

Definition periodic_task_names : list (string * string) :=
  [ ("scale_up_inspection_cluster_every_60_min",
     "pilot_scale_up_inspection_cluster_every_60_min");
    ("persist_inspection_cluster_results",
     "pilot_persist_inspection_cluster_results");
    ("analyze_log_every_2_mins", "pilot_analyze_log_every_2_mins");
    ("inspect_pending_images", "pilot_inspect_pending_images");
    ("repopulate_ec2_instance_mapping_every_week",
     "pilot_repopulate_ec2_instance_mapping_every_week") ].

(** One turn of the loop over the names, on the [PeriodicTask] table keyed
    by the (unique) task name. *)
Definition rename_step {T : Type} (tasks : gmap string T) (names : string * string)
  : gmap string T :=
  let '(old_name, new_name) := names in
  match tasks !! old_name with
  | None => tasks
  | Some task =>
      if bool_decide (is_Some (tasks !! new_name))
      then delete old_name tasks
      else <[new_name := task]> (delete old_name tasks)
  end.

(** [update_celery_periodic_tasks(apps, schema_editor)]; the table is [None]
    when the django_celery_beat app is not loaded. *)
Definition update_celery_periodic_tasks {T : Type} (tasks : option (gmap string T))
  : option (gmap string T) :=
  match tasks with
  | None => None
  | Some tasks => Some (foldl rename_step tasks periodic_task_names)
  end.

(** The old name that is renamed to [name], if any. *)
Definition renamed_from (names : list (string * string)) (name : string)
  : option string :=
  (λ p, p.2.1) <$> list_find (λ p, p.2 = name) names.

End Migration0037.

(* ===================================================================== *)
(** ** Identity header authentication (api/authentication.py) *)
(* ===================================================================== *)

Module Authentication.
Import Py.

(** What the authentication code raises: the two REST framework exceptions,
    and the Python errors of decoding and of subscripting. *)
Inductive AuthError :=
| AuthenticationFailed
| PermissionDenied
| ValueError
| KeyError
| TypeError
| AttributeError.

Inductive outcome (A : Type) :=
| Return (a : A)
| Raises (e : AuthError).
Arguments Return {A} a.
Arguments Raises {A} e.

Definition obind {A B} (c : outcome A) (k : A → outcome B) : outcome B :=
  match c with
  | Return a => k a
  | Raises e => Raises e
  end.

(** Truth value of a JSON value, as Python's [not] sees it. *)
Definition truth (v : json) : bool :=
  match v with
  | JNull => false
  | JBool b => b
  | JNum n => negb (n =? 0)%Z
  | JStr s => match s with EmptyString => false | _ => true end
  | JList l => match l with [] => false | _ => true end
  | JDict d => match d with [] => false | _ => true end
  end.

(** [value[key]] for a string key. *)
Definition subscript (value : json) (key : string) : outcome json :=
  match value with
  | JDict d =>
      match dict_get key d with
      | Some v => Return v
      | None => Raises KeyError
      end
  | _ => Raises TypeError
  end.

(** [value.get(key, default)] *)
Definition get (value : json) (key : string) (default : json) : outcome json :=
  match value with
  | JDict d =>
      match dict_get key d with
      | Some v => Return v
      | None => Return default
      end
  | _ => Raises AttributeError
  end.

(** What [json.loads(base64.b64decode(auth_header).decode(...))] gives for a
    header: the JSON value, or an error, which is [caught] when its type is
    one of those the handler names (TypeError, UnicodeDecodeError,
    JSONDecodeError). *)
Inductive Decoding :=
| Decoded (auth : json)
| Undecodable (caught : bool).

(** Truth value of the header: absent and empty are false. *)
Definition present (auth_header : option string) : bool :=
  match auth_header with
  | Some EmptyString => false
  | Some _ => true
  | None => false
  end.

(** [parse_requests_header(request)], on the identity header of the
    request.  The log lines are not modelled. *)
Definition parse_requests_header (decode : string → Decoding)
    (auth_header : option string) : outcome (option string * json * json) :=
  if negb (present auth_header) then Return (None, JNull, JBool false)
  else
    match decode (default "" auth_header) with
    | Undecodable true => Raises AuthenticationFailed
    | Undecodable false => Raises ValueError
    | Decoded auth =>
        match obind (subscript auth "identity")
                    (λ identity, subscript identity "account_number") with
        | Raises KeyError => Raises AuthenticationFailed
        | Raises e => Raises e
        | Return account_number =>
            obind (subscript auth "identity") (λ identity,
            obind (get identity "user" (JDict [])) (λ user,
            obind (get user "is_org_admin" JNull) (λ is_org_admin,
            Return (auth_header, account_number, is_org_admin))))
        end
    end.

(** The attributes by which the authentication classes differ. *)
Record AuthenticationClass := mkAuthenticationClass {
  require_org_admin : bool;
  require_account_number : bool;
  require_user : bool;
  create_user : bool
}.

Definition IdentityHeaderAuthentication : AuthenticationClass :=
  mkAuthenticationClass true true true false.
Definition IdentityHeaderAuthenticationUserNotRequired : AuthenticationClass :=
  mkAuthenticationClass true true false false.
Definition IdentityHeaderAuthenticationInternal : AuthenticationClass :=
  mkAuthenticationClass false false false false.
Definition IdentityHeaderAuthenticationInternalCreateUser : AuthenticationClass :=
  mkAuthenticationClass false true false true.

(** [self.assert_org_admin(account_number, is_org_admin)] *)
Definition assert_org_admin (self : AuthenticationClass)
    (account_number is_org_admin : json) : outcome unit :=
  if require_org_admin self && negb (truth is_org_admin)
  then Raises PermissionDenied
  else Return tt.

(** [self.get_user(account_number)], on the usernames of the stored users.
    [username_of] is the username under which Django looks the account
    number up and stores it (the value itself when it is a string).  A user
    is given by its username. *)
Definition get_user (self : AuthenticationClass) (username_of : json → string)
    (account_number : json) (users : gset string)
  : outcome (option string) * gset string :=
  if negb (truth account_number) then
    if require_account_number self
    then (Raises PermissionDenied, users)
    else (Return None, users)
  else
    let username := username_of account_number in
    if create_user self then
      (Return (Some username),
       if bool_decide (username ∈ users) then users else {[username]} ∪ users)
    else if bool_decide (username ∈ users) then (Return (Some username), users)
    else if require_user self then (Raises AuthenticationFailed, users)
    else (Return None, users).

(** [self.authenticate(request)] *)
Definition authenticate (self : AuthenticationClass) (decode : string → Decoding)
    (username_of : json → string) (auth_header : option string)
    (users : gset string)
  : outcome (option (string * bool)) * gset string :=
  match parse_requests_header decode auth_header with
  | Raises e => (Raises e, users)
  | Return (auth_header, account_number, is_org_admin) =>
      if negb (present auth_header) then
        if negb (require_account_number self) && negb (require_org_admin self)
        then (Return None, users)
        else (Raises AuthenticationFailed, users)
      else
        match assert_org_admin self account_number is_org_admin with
        | Raises e => (Raises e, users)
        | Return _ =>
            match get_user self username_of account_number users with
            | (Return (Some user), users) => (Return (Some (user, true)), users)
            | (Return None, users) => (Return None, users)
            | (Raises e, users) => (Raises e, users)
            end
        end
  end.

End Authentication.

(* ===================================================================== *)
(** ** Further concrete situations *)
(* ===================================================================== *)

Module Examples.
Import Py Models Aws Util Tasks Staging StagingTasks.

(** Tag events of two images, those of each image next to each other. *)
Definition contiguous_events (the_tag : string) : list CloudTrailImageTagEvent :=
  [ Scenario.tag_event 1 "ami-a" the_tag true;
    Scenario.tag_event 3 "ami-a" the_tag false;
    Scenario.tag_event 2 "ami-b" the_tag true ].

(** The cluster before its host has registered. *)
Definition empty_cluster : Cluster :=
  mkCluster false [] (λ _, "i-0a1") (λ _, true) (λ _ _ _, None) Scenario.device_name
            (λ _ _, None) Scenario.ascii_lower.

(** The cluster whose single host is not running yet. *)
Definition stopped_cluster : Cluster :=
  mkCluster false ["arn:container-instance/1"] (λ _, "i-0a1") (λ _, false)
            (λ _ _ _, None) Scenario.device_name (λ _ _, None) Scenario.ascii_lower.

Definition customer_arn : string := "arn:aws:iam::123456789012:role/customer".

(** A customer account in which every image has the snapshot snap-1, which
    [get_snapshot] answers with [snapshot]; the session runs as account
    123456789012. *)
Definition provider (snapshot : Snapshot + string * string) : Provider :=
  mkProvider (λ _, "123456789012") (λ ami region, Some (mkAmi ami false))
             (λ _, Some "snap-1") (λ _ _, snapshot) (λ _ _, "snap-copy-1").

Definition own_snapshot : Snapshot := mkSnapshot "snap-1" false "123456789012".
Definition foreign_snapshot : Snapshot := mkSnapshot "snap-1" false "999999999999".
Definition encrypted_snapshot : Snapshot := mkSnapshot "snap-1" true "123456789012".

(** Staging starts on the world where image ami-1 is pending. *)
Definition fresh_stage : Stage := mkStage Scenario.copy_gone_world [] [] [].

(** The provider copies every image as ami-copy-1. *)
Definition copy_ami (ami region : string) : string + string * string :=
  inl "ami-copy-1".

(** A processor of event messages that chokes on one body and succeeds on
    the others. *)
Definition process (message : Feed.FeedMessage) (x : unit) : result bool * unit :=
  if bool_decide (Feed.body message = "garbage")
  then (Raise AttributeError, x)
  else (Ok true, x).

Definition event_messages : list Feed.FeedMessage :=
  [ Feed.mkFeedMessage "m-1" "garbage"; Feed.mkFeedMessage "m-2" "s3://bucket/log" ].

(** One known account and no stored instance. *)
Definition instance_db : CloudTrail.InstanceDb :=
  CloudTrail.mkInstanceDb ∅ ∅
    (<["123456789012" := "arn:aws:iam::123456789012:role/customer"]> ∅).

(** A stop event, which carries neither the type nor the image. *)
Definition stop_event : CloudTrail.CloudTrailInstanceEvent :=
  CloudTrail.mkInstanceEvent "2019-05-21T20:00:00" "123456789012" "us-east-1"
                             "i-1" "power_off" None None None.

(** The run event of the same instance, which carries both. *)
Definition run_event : CloudTrail.CloudTrailInstanceEvent :=
  CloudTrail.mkInstanceEvent "2019-05-21T19:00:00" "123456789012" "us-east-1"
                             "i-1" "power_on" (Some "t2.micro") (Some "ami-1")
                             (Some "subnet-1").

Definition describe_nothing (account_arn region : string) (ids : gset string)
  : gmap string CloudTrail.DescribedInstance := ∅.

(** The beat table of a deployment that ran with the old configuration:
    one task under its old name. *)
Definition old_beat_table : gmap string nat :=
  <["analyze_log_every_2_mins" := 120]> ∅.

(** The identity header of an organisation administrator of account
    1234567, and the header of the same account with a null user entry. *)
Definition org_admin_header : string :=
  "eyJpZGVudGl0eSI6IHsiYWNjb3VudF9udW1iZXIiOiAiMTIzNDU2NyIsICJ1c2VyIjogeyJpc19vcmdfYWRtaW4iOiB0cnVlfX19".
Definition null_user_header : string :=
  "eyJpZGVudGl0eSI6IHsiYWNjb3VudF9udW1iZXIiOiAiMTIzNDU2NyIsICJ1c2VyIjogbnVsbH19".

(** The decoding of these two headers; any other header is taken as
    malformed JSON. *)
Definition decode (auth_header : string) : Authentication.Decoding :=
  if bool_decide (auth_header = org_admin_header) then
    Authentication.Decoded
      (JDict [("identity",
               JDict [("account_number", JStr "1234567");
                      ("user", JDict [("is_org_admin", JBool true)])])])
  else if bool_decide (auth_header = null_user_header) then
    Authentication.Decoded
      (JDict [("identity",
               JDict [("account_number", JStr "1234567"); ("user", JNull)])])
  else Authentication.Undecodable true.

Definition username_of (account_number : json) : string :=
  match account_number with
  | JStr s => s
  | _ => "None"
  end.

End Examples.


(* ===================================================================== *)
(** * Properties *)
(* ===================================================================== *)

Import Py Models Aws Util Tasks Spec.

(** ** Tag resolution: [_extract_ami_ids_by_tag_change] *)

Section TagResolution.
Implicit Types (sets : gset string * gset string) (e : CloudTrailImageTagEvent).

Lemma insert_by_Permutation {A} (key : A → Z) (x : A) (l : list A) :
  insert_by key x l ≡ₚ x :: l.
Proof.
  induction l as [|y r IH]; simpl; [done|].
  destruct (key x <=? key y)%Z; [done|].
  rewrite IH. apply Permutation_swap.
Qed.

Lemma sorted_Permutation {A} (key : A → Z) (l : list A) : sorted key l ≡ₚ l.
Proof.
  induction l as [|x r IH]; simpl; [done|].
  unfold sorted in *. simpl. rewrite insert_by_Permutation. by rewrite IH.
Qed.

(** Every element sits in a group labelled with its own key. *)
Lemma groupby_covers {A K} `{EqDecision K} (key : A → K) (l : list A) (x : A) :
  x ∈ l → ∃ g, (key x, g) ∈ groupby key l ∧ x ∈ g.
Proof.
  induction l as [|y r IH]; intros Hx; [by apply elem_of_nil in Hx|].
  simpl. apply elem_of_cons in Hx as [->|Hx].
  - destruct (groupby key r) as [|[k g] gs].
    + exists [y]. split; apply list_elem_of_here.
    + destruct (decide (key y = k)) as [<-|].
      * exists (y :: g). split; apply list_elem_of_here.
      * exists [y]. split; apply list_elem_of_here.
  - destruct (IH Hx) as (g & Hg & Hxg).
    destruct (groupby key r) as [|[k g'] gs]; [by apply elem_of_nil in Hg|].
    apply elem_of_cons in Hg as [Heq|Hg].
    + injection Heq as <- <-.
      destruct (decide (key y = key x)).
      * exists (y :: g). split; [apply list_elem_of_here|by apply list_elem_of_further].
      * exists g. split; [apply list_elem_of_further, list_elem_of_here|done].
    + destruct (decide (key y = k)).
      * exists g. split; [by apply list_elem_of_further|done].
      * exists g. split; [by do 2 apply list_elem_of_further|done].
Qed.

(** A batch about a single key is a single group. *)
Lemma groupby_uniform {A K} `{EqDecision K} (key : A → K) (k : K) (x : A) (l : list A) :
  Forall (λ y, key y = k) (x :: l) → groupby key (x :: l) = [(k, x :: l)].
Proof.
  revert x. induction l as [|y r IH]; intros x Hall.
  - apply Forall_cons in Hall as [<- _]. done.
  - apply Forall_cons in Hall as [Hx Hall].
    change (groupby key (x :: y :: r)) with
      (match groupby key (y :: r) with
       | (k', g) :: gs =>
           if decide (key x = k') then (k', x :: g) :: gs
           else (key x, [x]) :: (k', g) :: gs
       | [] => [(key x, [x])]
       end).
    rewrite (IH y Hall). by rewrite decide_True.
Qed.

Ltac step_cases e :=
  unfold tag_event_step; simpl;
  repeat case_bool_decide; simpl; destruct (exists_ e); simpl; set_solver.

Lemma tag_event_step_disjoint ami sets e :
  sets.1 ## sets.2 → (tag_event_step ami sets e).1 ## (tag_event_step ami sets e).2.
Proof. destruct sets as [t u]. step_cases e. Qed.

Lemma tag_event_step_mono ami sets e x :
  x ∈ sets.1 ∪ sets.2 →
  x ∈ (tag_event_step ami sets e).1 ∪ (tag_event_step ami sets e).2.
Proof. destruct sets as [t u]. step_cases e. Qed.

Lemma tag_event_step_covers ami sets e :
  ami ∈ (tag_event_step ami sets e).1 ∪ (tag_event_step ami sets e).2.
Proof. destruct sets as [t u]. step_cases e. Qed.

Lemma tag_events_disjoint ami (l : list CloudTrailImageTagEvent) sets :
  sets.1 ## sets.2 →
  (foldl (tag_event_step ami) sets l).1 ## (foldl (tag_event_step ami) sets l).2.
Proof.
  revert sets. induction l as [|e l IH]; intros sets H; simpl; [done|].
  by apply IH, tag_event_step_disjoint.
Qed.

Lemma tag_events_mono ami (l : list CloudTrailImageTagEvent) sets x :
  x ∈ sets.1 ∪ sets.2 →
  x ∈ (foldl (tag_event_step ami) sets l).1 ∪ (foldl (tag_event_step ami) sets l).2.
Proof.
  revert sets. induction l as [|e l IH]; intros sets H; simpl; [done|].
  by apply IH, tag_event_step_mono.
Qed.

Lemma tag_events_covers ami (l : list CloudTrailImageTagEvent) sets :
  l ≠ [] →
  ami ∈ (foldl (tag_event_step ami) sets l).1 ∪ (foldl (tag_event_step ami) sets l).2.
Proof.
  destruct l as [|e l]; [done|]. intros _. simpl.
  apply tag_events_mono, tag_event_step_covers.
Qed.

(** Once an image is classified, later events of the loop change nothing. *)
Lemma tag_events_stable ami (l : list CloudTrailImageTagEvent) sets :
  ami ∈ sets.1 ∪ sets.2 → foldl (tag_event_step ami) sets l = sets.
Proof.
  revert sets. induction l as [|e l IH]; intros [t u] Hin; [done|].
  cbn [foldl].
  assert (tag_event_step ami (t, u) e = (t, u)) as ->; [|by apply IH].
  unfold tag_event_step. simpl in Hin.
  repeat case_bool_decide; simpl; [set_solver|done..].
Qed.

(** Starting from nothing, the first event met decides. *)
Lemma tag_events_first_wins ami e (l : list CloudTrailImageTagEvent) :
  foldl (tag_event_step ami) (∅, ∅) (e :: l)
  = if exists_ e then ({[ami]}, ∅) else (∅, {[ami]}).
Proof.
  cbn [foldl].
  assert (tag_event_step ami (∅, ∅) e
          = if exists_ e then ({[ami]}, ∅) else (∅, {[ami]})) as ->.
  { unfold tag_event_step. rewrite !bool_decide_eq_true_2 by set_solver. simpl.
    destruct (exists_ e); by rewrite (right_id_L ∅ (∪)). }
  apply tag_events_stable. destruct (exists_ e); set_solver.
Qed.

Lemma tag_filter_same the_tag (l : list CloudTrailImageTagEvent) :
  Forall (λ e, tag e = the_tag) l →
  filterfalse (λ e, negb (bool_decide (tag e = the_tag))) l = l.
Proof.
  induction 1 as [|e l He _ IH]; [done|].
  unfold filterfalse in *. simpl. rewrite bool_decide_eq_true_2 by done. simpl.
  by rewrite IH.
Qed.

End TagResolution.

Section TagGroups.
Implicit Types (sets : gset string * gset string) (e : CloudTrailImageTagEvent).
Variable the_tag : string.

Lemma tag_group_step_disjoint sets group :
  sets.1 ## sets.2 →
  (tag_group_step the_tag sets group).1 ## (tag_group_step the_tag sets group).2.
Proof. destruct group as [ami evs]. apply tag_events_disjoint. Qed.

Lemma tag_group_step_mono sets group x :
  x ∈ sets.1 ∪ sets.2 →
  x ∈ (tag_group_step the_tag sets group).1 ∪ (tag_group_step the_tag sets group).2.
Proof. destruct group as [ami evs]. apply tag_events_mono. Qed.

Lemma tag_group_step_covers sets ami evs e :
  e ∈ evs → tag e = the_tag →
  ami ∈ (tag_group_step the_tag sets (ami, evs)).1
        ∪ (tag_group_step the_tag sets (ami, evs)).2.
Proof.
  intros He Ht. apply tag_events_covers.
  intros Hnil. apply (f_equal reverse) in Hnil. rewrite reverse_involutive in Hnil.
  assert (e ∈ sorted occurred_at
            (filterfalse (λ e0, negb (bool_decide (tag e0 = the_tag))) evs)) as Hin.
  { rewrite sorted_Permutation. unfold filterfalse.
    apply list_elem_of_In, filter_In. split; [by apply list_elem_of_In|].
    by rewrite bool_decide_eq_true_2. }
  rewrite Hnil in Hin. by apply elem_of_nil in Hin.
Qed.

Lemma tag_groups_disjoint groups sets :
  sets.1 ## sets.2 →
  (foldl (tag_group_step the_tag) sets groups).1
  ## (foldl (tag_group_step the_tag) sets groups).2.
Proof.
  revert sets. induction groups as [|g gs IH]; intros sets H; simpl; [done|].
  by apply IH, tag_group_step_disjoint.
Qed.

Lemma tag_groups_mono groups sets x :
  x ∈ sets.1 ∪ sets.2 →
  x ∈ (foldl (tag_group_step the_tag) sets groups).1
      ∪ (foldl (tag_group_step the_tag) sets groups).2.
Proof.
  revert sets. induction groups as [|g gs IH]; intros sets H; simpl; [done|].
  by apply IH, tag_group_step_mono.
Qed.

Lemma tag_groups_covers groups sets ami evs e :
  (ami, evs) ∈ groups → e ∈ evs → tag e = the_tag →
  ami ∈ (foldl (tag_group_step the_tag) sets groups).1
        ∪ (foldl (tag_group_step the_tag) sets groups).2.
Proof.
  revert sets. induction groups as [|g gs IH]; intros sets Hg He Ht;
    [by apply elem_of_nil in Hg|].
  simpl. apply elem_of_cons in Hg as [<-|Hg].
  - by eapply tag_groups_mono, tag_group_step_covers.
  - by apply IH.
Qed.

(** A batch that holds the events of one image for one tag, its latest
    event being [latest]: the image is classified by that event. *)
Lemma single_image_batch_latest_wins ami (events earlier : list CloudTrailImageTagEvent)
    latest :
  events ≠ [] →
  Forall (λ e, ec2_ami_id e = ami) events →
  Forall (λ e, tag e = the_tag) events →
  sorted occurred_at events = earlier ++ [latest] →
  _extract_ami_ids_by_tag_change events the_tag
  = if exists_ latest then ({[ami]}, ∅) else (∅, {[ami]}).
Proof.
  intros Hne Hami Htag Hsorted. unfold _extract_ami_ids_by_tag_change.
  destruct events as [|e0 events]; [done|].
  rewrite (groupby_uniform ec2_ami_id ami) by done.
  cbn [foldl]. unfold tag_group_step.
  rewrite tag_filter_same by done. rewrite Hsorted.
  rewrite reverse_app. change (reverse [latest]) with [latest].
  apply tag_events_first_wins.
Qed.

End TagGroups.

(** A create, a delete, then a create of the same tag on one image, in
    arrival and chronological order: the image ends tagged. *)
Lemma tag_resolution_create_delete_create (ami the_tag : string) (t1 t2 t3 : Z)
    (acct reg : string) :
  (t1 < t2)%Z → (t2 < t3)%Z →
  _extract_ami_ids_by_tag_change
    [ mkTagEvent t1 acct reg ami the_tag true;
      mkTagEvent t2 acct reg ami the_tag false;
      mkTagEvent t3 acct reg ami the_tag true ] the_tag
  = ({[ami]}, ∅).
Proof.
  intros H12 H23.
  apply (single_image_batch_latest_wins the_tag ami _
           [mkTagEvent t1 acct reg ami the_tag true;
            mkTagEvent t2 acct reg ami the_tag false]
           (mkTagEvent t3 acct reg ami the_tag true));
    [done|by repeat constructor..|].
  unfold sorted. simpl.
  rewrite (proj2 (Z.leb_le t2 t3)) by lia. simpl.
  by rewrite (proj2 (Z.leb_le t1 t2)) by lia.
Qed.

(** A create then a delete: the image ends untagged. *)
Lemma tag_resolution_create_delete (ami the_tag : string) (t1 t2 : Z)
    (acct reg : string) :
  (t1 < t2)%Z →
  _extract_ami_ids_by_tag_change
    [ mkTagEvent t1 acct reg ami the_tag true;
      mkTagEvent t2 acct reg ami the_tag false ] the_tag
  = (∅, {[ami]}).
Proof.
  intros H12.
  apply (single_image_batch_latest_wins the_tag ami _
           [mkTagEvent t1 acct reg ami the_tag true]
           (mkTagEvent t2 acct reg ami the_tag false));
    [done|by repeat constructor..|].
  unfold sorted. simpl. by rewrite (proj2 (Z.leb_le t1 t2)) by lia.
Qed.

(** A delete then a create: the image ends tagged. *)
Lemma tag_resolution_delete_create (ami the_tag : string) (t1 t2 : Z)
    (acct reg : string) :
  (t1 < t2)%Z →
  _extract_ami_ids_by_tag_change
    [ mkTagEvent t1 acct reg ami the_tag false;
      mkTagEvent t2 acct reg ami the_tag true ] the_tag
  = ({[ami]}, ∅).
Proof.
  intros H12.
  apply (single_image_batch_latest_wins the_tag ami _
           [mkTagEvent t1 acct reg ami the_tag false]
           (mkTagEvent t2 acct reg ami the_tag true));
    [done|by repeat constructor..|].
  unfold sorted. simpl. by rewrite (proj2 (Z.leb_le t1 t2)) by lia.
Qed.

(** A delete, a create, then a delete: the image ends untagged. *)
Lemma tag_resolution_delete_create_delete (ami the_tag : string) (t1 t2 t3 : Z)
    (acct reg : string) :
  (t1 < t2)%Z → (t2 < t3)%Z →
  _extract_ami_ids_by_tag_change
    [ mkTagEvent t1 acct reg ami the_tag false;
      mkTagEvent t2 acct reg ami the_tag true;
      mkTagEvent t3 acct reg ami the_tag false ] the_tag
  = (∅, {[ami]}).
Proof.
  intros H12 H23.
  apply (single_image_batch_latest_wins the_tag ami _
           [mkTagEvent t1 acct reg ami the_tag false;
            mkTagEvent t2 acct reg ami the_tag true]
           (mkTagEvent t3 acct reg ami the_tag false));
    [done|by repeat constructor..|].
  unfold sorted. simpl.
  rewrite (proj2 (Z.leb_le t2 t3)) by lia. simpl.
  by rewrite (proj2 (Z.leb_le t1 t2)) by lia.
Qed.

(** C9. For every list of tag events and every tag, the two sets returned
    by [_extract_ami_ids_by_tag_change] are disjoint, and every image id
    that has at least one event for that tag is in exactly one of them. *)
Theorem extract_ami_ids_partition
    (ami_tag_events : list CloudTrailImageTagEvent) (the_tag : string) :
  ((_extract_ami_ids_by_tag_change ami_tag_events the_tag).1
   ## (_extract_ami_ids_by_tag_change ami_tag_events the_tag).2)
  ∧ ∀ e, e ∈ ami_tag_events → tag e = the_tag →
      (ec2_ami_id e ∈ (_extract_ami_ids_by_tag_change ami_tag_events the_tag).1
       ∧ ec2_ami_id e ∉ (_extract_ami_ids_by_tag_change ami_tag_events the_tag).2)
      ∨ ((ec2_ami_id e ∉ (_extract_ami_ids_by_tag_change ami_tag_events the_tag).1)
         ∧ ec2_ami_id e ∈ (_extract_ami_ids_by_tag_change ami_tag_events the_tag).2).
Proof.
  unfold _extract_ami_ids_by_tag_change.
  assert (@empty (gset string) _ ## ∅) as H0 by set_solver.
  pose proof (tag_groups_disjoint the_tag (groupby ec2_ami_id ami_tag_events)
                (∅, ∅) H0) as Hd.
  split; [exact Hd|].
  intros e He Ht.
  destruct (groupby_covers ec2_ami_id ami_tag_events e He) as (g & Hg & Heg).
  pose proof (tag_groups_covers the_tag _ (∅, ∅) _ _ _ Hg Heg Ht) as Hc.
  set_solver.
Qed.

Lemma extract_ami_ids_partition_witness :
  ((_extract_ami_ids_by_tag_change (Scenario.interleaved_events "rhel") "rhel").1
   ## (_extract_ami_ids_by_tag_change (Scenario.interleaved_events "rhel") "rhel").2)
  ∧ (("ami-b" ∈ (_extract_ami_ids_by_tag_change
                   (Scenario.interleaved_events "rhel") "rhel").1
      ∧ "ami-b" ∉ (_extract_ami_ids_by_tag_change
                     (Scenario.interleaved_events "rhel") "rhel").2)
     ∨ (("ami-b" ∉ (_extract_ami_ids_by_tag_change
                      (Scenario.interleaved_events "rhel") "rhel").1)
        ∧ "ami-b" ∈ (_extract_ami_ids_by_tag_change
                       (Scenario.interleaved_events "rhel") "rhel").2)).
Proof.
  destruct (extract_ami_ids_partition (Scenario.interleaved_events "rhel") "rhel")
    as [Hd Hone].
  split; [exact Hd|].
  apply (Hone (Scenario.tag_event 2 "ami-b" "rhel" true)); [|reflexivity].
  apply list_elem_of_further, list_elem_of_here.
Defined.

(** C7, at the failing input.  The events of image ami-a come in two runs,
    around an event of ami-b: [itertools.groupby] yields ami-a twice, the
    first run (a create) classifies it, and the later delete, its latest
    event for the tag, is skipped.  The image ends in the tagged set and not
    in the untagged set. *)
Theorem tag_resolution_interleaved_keeps_first_run (the_tag : string) :
  "ami-a" ∈ (_extract_ami_ids_by_tag_change
               (Scenario.interleaved_events the_tag) the_tag).1
  ∧ "ami-a" ∉ (_extract_ami_ids_by_tag_change
                 (Scenario.interleaved_events the_tag) the_tag).2.
Proof.
  unfold _extract_ami_ids_by_tag_change, Scenario.interleaved_events.
  change (groupby ec2_ami_id _) with
    [ ("ami-a", [Scenario.tag_event 1 "ami-a" the_tag true]);
      ("ami-b", [Scenario.tag_event 2 "ami-b" the_tag true]);
      ("ami-a", [Scenario.tag_event 3 "ami-a" the_tag false]) ].
  cbn [foldl]. unfold tag_group_step.
  rewrite !tag_filter_same by (repeat constructor).
  cbn [sorted foldr insert_by reverse rev_append foldl].
  unfold tag_event_step; simpl.
  repeat (rewrite ?bool_decide_eq_true_2, ?bool_decide_eq_false_2 by set_solver; simpl).
  set_solver.
Qed.

(** ** Entity store lemmas *)

Lemma status_of_insert (images : gmap string AwsMachineImage) k flag mi id :
  status_of (<[k := mkAwsMachineImage flag (Some mi)]> images) id
  = if decide (k = id) then Some (status mi) else status_of images id.
Proof.
  unfold status_of. rewrite lookup_insert. by destruct (decide (k = id)).
Qed.

Lemma status_of_lookup (images : gmap string AwsMachineImage) id flag mi :
  images !! id = Some (mkAwsMachineImage flag (Some mi)) →
  status_of images id = Some (status mi).
Proof. intros H. unfold status_of. by rewrite H. Qed.

Lemma status_of_no_image (images : gmap string AwsMachineImage) id flag :
  images !! id = Some (mkAwsMachineImage flag None) → status_of images id = None.
Proof. intros H. unfold status_of. by rewrite H. Qed.

Lemma status_of_no_row (images : gmap string AwsMachineImage) id :
  images !! id = None → status_of images id = None.
Proof. intros H. unfold status_of. by rewrite H. Qed.

(** ** The dispatcher: [run_inspection_cluster] *)

(** A skipped message only adds a log line; the loop goes on from there. *)
Lemma relevant_loop_skip (m : Message) (rest relevant_messages : list Message)
    (w w1 : World) (IH : ∀ rel w0, ∃ w',
        relevant_loop rest rel w0
        = (Ok (rel ++ List.filter
                 (λ m, bool_decide (is_Some (status_of (images w0) (ami_id m)))) rest),
           w')
        ∧ ∀ id, status_of (images w') id
                = if bool_decide (id ∈ ami_id <$> rest)
                  then (λ _, INSPECTING) <$> status_of (images w0) id
                  else status_of (images w0) id) :
  status_of (images w) (ami_id m) = None →
  images w1 = images w →
  ∃ w',
    relevant_loop rest relevant_messages w1
    = (Ok (relevant_messages
           ++ List.filter
                (λ m, bool_decide (is_Some (status_of (images w) (ami_id m))))
                (m :: rest)), w')
    ∧ ∀ id, status_of (images w') id
            = if bool_decide (id ∈ ami_id <$> m :: rest)
              then (λ _, INSPECTING) <$> status_of (images w) id
              else status_of (images w) id.
Proof.
  intros Hs Himg.
  destruct (IH relevant_messages w1) as (w' & Hrun & Hst).
  rewrite Himg in Hrun, Hst.
  exists w'. split.
  - rewrite Hrun. cbn [List.filter]. rewrite Hs.
    by rewrite bool_decide_eq_false_2 by (by intros [? ?]).
  - intros id. rewrite Hst, fmap_cons.
    destruct (decide (ami_id m = id)) as [<-|Hne].
    + rewrite Hs. by repeat case_bool_decide.
    + repeat case_bool_decide; set_solver.
Qed.

(** The first loop of the dispatcher, in full: it always returns, it keeps
    exactly the messages whose image rows exist, and it leaves INSPECTING
    every image those messages name, whatever its status was. *)
Lemma relevant_loop_spec (messages relevant_messages : list Message) (w : World) :
  ∃ w',
    relevant_loop messages relevant_messages w
    = (Ok (relevant_messages
           ++ List.filter
                (λ m, bool_decide (is_Some (status_of (images w) (ami_id m))))
                messages), w')
    ∧ ∀ id, status_of (images w') id
            = if bool_decide (id ∈ ami_id <$> messages)
              then (λ _, INSPECTING) <$> status_of (images w) id
              else status_of (images w) id.
Proof.
  revert relevant_messages w.
  induction messages as [|m rest IH]; intros rel w.
  - exists w. simpl. unfold ret. by rewrite app_nil_r.
  - cbn [relevant_loop]. unfold bind at 1. unfold gets at 1.
    destruct (images w !! ami_id m) as [[flag [mi|]]|] eqn:Hm.
    + unfold bind at 1, modify at 1.
      set (w1 := set_images _ w).
      pose proof (status_of_lookup _ _ _ _ Hm) as Hs.
      destruct (IH (rel ++ [m]) w1) as (w' & Hrun & Hst).
      exists w'. split.
      * rewrite Hrun. f_equal. cbn [List.filter].
        rewrite Hs, bool_decide_eq_true_2 by eauto.
        rewrite <- app_assoc. simpl. do 3 f_equal.
        apply filter_ext. intros x. subst w1. simpl.
        rewrite status_of_insert.
        destruct (decide (ami_id m = ami_id x)) as [<-|]; [|done].
        rewrite Hs. by rewrite !bool_decide_eq_true_2 by eauto.
      * intros id. rewrite Hst. subst w1. simpl. rewrite status_of_insert.
        rewrite ?fmap_cons.
        destruct (decide (ami_id m = id)) as [<-|Hne].
        -- rewrite Hs.
           rewrite (bool_decide_eq_true_2 (ami_id m ∈ ami_id m :: _)) by set_solver.
           by case_bool_decide.
        -- repeat case_bool_decide; set_solver.
    + unfold bind at 1, logger at 1, modify at 1.
      apply relevant_loop_skip; [exact IH| |done].
      by eapply status_of_no_image.
    + unfold bind at 1, logger at 1, modify at 1.
      apply relevant_loop_skip; [exact IH| |done].
      by apply status_of_no_row.
Qed.

(** C1, as the code has it.  In [run_inspection_cluster], every message of
    the batch whose image rows exist is kept, and its image is saved as
    INSPECTING whatever its status was, INSPECTED included; only messages
    whose image rows are missing are filtered out, and images that no
    message names keep their status. *)
Theorem run_inspection_cluster_marks_existing_images
    (messages : list Message) (w : World) (m : Message) (s : Status) :
  m ∈ messages →
  status_of (images w) (ami_id m) = Some s →
  ∃ relevant_messages w',
    relevant_loop messages [] w = (Ok relevant_messages, w')
    ∧ m ∈ relevant_messages
    ∧ status_of (images w') (ami_id m) = Some INSPECTING
    ∧ ∀ id, id ∉ ami_id <$> messages →
            status_of (images w') id = status_of (images w) id.
Proof.
  intros Hin Hs.
  destruct (relevant_loop_spec messages [] w) as (w' & Hrun & Hst).
  eexists _, w'. split; [exact Hrun|]. split; [|split].
  - simpl. apply list_elem_of_In, filter_In. split; [by apply list_elem_of_In|].
    rewrite Hs. by rewrite bool_decide_eq_true_2 by eauto.
  - rewrite Hst, Hs. rewrite bool_decide_eq_true_2; [done|].
    by apply list_elem_of_fmap_2.
  - intros id Hid. rewrite Hst. by rewrite bool_decide_eq_false_2.
Qed.

Lemma run_inspection_cluster_marks_existing_images_witness :
  ∃ relevant_messages w',
    relevant_loop [mkMessage "ami-1" "vol-1"] [] Scenario.inspected_world
    = (Ok relevant_messages, w')
    ∧ mkMessage "ami-1" "vol-1" ∈ relevant_messages
    ∧ status_of (images w') "ami-1" = Some INSPECTING
    ∧ ∀ id, id ∉ ami_id <$> [mkMessage "ami-1" "vol-1"] →
            status_of (images w') id
            = status_of (images Scenario.inspected_world) id.
Proof.
  apply (run_inspection_cluster_marks_existing_images
           [mkMessage "ami-1" "vol-1"] Scenario.inspected_world
           (mkMessage "ami-1" "vol-1") INSPECTED).
  - apply list_elem_of_here.
  - reflexivity.
Defined.

(** C1, as stated, fails: the image of the message is INSPECTED, the run
    succeeds and launches the scan, and the image is left INSPECTING. *)
Lemma run_inspection_cluster_regresses_inspected :
  status_of (images Scenario.inspected_world) "ami-1" = Some INSPECTED
  ∧ (run_inspection_cluster Scenario.healthy_cluster
       [mkMessage "ami-1" "vol-1"] "aws" Scenario.inspected_world).1 = Ok tt
  ∧ status_of
      (images (run_inspection_cluster Scenario.healthy_cluster
                 [mkMessage "ami-1" "vol-1"] "aws" Scenario.inspected_world).2)
      "ami-1" = Some INSPECTING.
Proof. by vm_compute. Qed.

Lemma marketplace_attach_error_test (lower : string → string) (code message : string) :
  tuple_in code ["OptInRequired"; "IncorrectInstanceState"]
  && str_in "marketplace" (lower message) = true
  ↔ marketplace_attach_error lower code message.
Proof.
  unfold marketplace_attach_error, tuple_in.
  rewrite andb_true_iff, bool_decide_eq_true. set_solver.
Qed.

(** C6, as the code has it.  One turn of the attach loop on a volume whose
    attach fails, the image of the message being stored.  When the failure
    is an error answered by the provider (a ClientError), the image is
    marked INSPECTED if the error is a marketplace one (code OptInRequired
    or IncorrectInstanceState, message mentioning marketplace once
    lower-cased) and ERROR for any other such error; then the deletion of
    the volume is requested: when the provider deletes it, the volume is
    discarded and the loop goes on with the remaining messages, the scan
    command unchanged; when the deletion itself raises, the turn raises that
    error with the image already marked, the volume is kept and the
    remaining messages are not processed.  A failure that is not a
    ClientError is not handled: the turn raises it at once, with no image
    marked and no deletion requested.  In every case no other image is
    touched. *)
Theorem attach_failure_marks_image_and_discards_volume
    (c : Cluster) (ec2_instance_id : string) (index : nat)
    (message : Message) (rest : list Message) (task_command : list string)
    (w : World) (e : exn) (flag : bool) (image : MachineImage) :
  attach_to_instance c (volume_id message) (generate_device_name c index)
                     ec2_instance_id = Some e →
  images w !! ami_id message = Some (mkAwsMachineImage flag (Some image)) →
  ∃ w1,
    (∀ id, id ≠ ami_id message → images w1 !! id = images w !! id)
    ∧ volumes w1 = volumes w
    ∧ calls w1 = calls w
    ∧ delayed w1 = delayed w
    ∧ match e with
      | ClientError error_code error_message =>
          (marketplace_attach_error (lower c) error_code error_message →
             status_of (images w1) (ami_id message) = Some INSPECTED)
          ∧ (¬ marketplace_attach_error (lower c) error_code error_message →
               status_of (images w1) (ami_id message) = Some ERROR)
          ∧ match delete_volume c index (volume_id message) with
            | None =>
                attach_loop c ec2_instance_id index (message :: rest) task_command w
                = attach_loop c ec2_instance_id (S index) rest task_command
                    (set_volumes (delete (volume_id message))
                       (add_call (DeleteVolume (volume_id message)) w1))
            | Some e' =>
                attach_loop c ec2_instance_id index (message :: rest) task_command w
                = (Raise e', w1)
            end
      | _ =>
          images w1 = images w
          ∧ attach_loop c ec2_instance_id index (message :: rest) task_command w
            = (Raise e, w1)
      end.
Proof.
  intros Hattach Himg. cbn [attach_loop].
  unfold bind at 1, logger at 1, modify at 1. rewrite Hattach.
  destruct e as [error_code error_message| | | | | |];
    try (eexists; split_and!; [..|reflexivity]; by simpl).
  destruct (tuple_in error_code ["OptInRequired"; "IncorrectInstanceState"]
            && str_in "marketplace" (lower c error_message)) eqn:Htest.
  - apply marketplace_attach_error_test in Htest.
    unfold bind, logger, modify, update_aws_image_status_inspected, volume_delete,
      call, raise, ret.
    simpl. rewrite Himg. simpl.
    eexists. split; [|split; [|split; [|split; [|split; [|split]]]]].
    7:{ destruct (delete_volume c index (volume_id message)); reflexivity. }
    + intros id Hne. simpl. by rewrite lookup_insert_ne.
    + done.
    + done.
    + done.
    + intros _. simpl. rewrite status_of_insert. by rewrite decide_True.
    + done.
  - assert (¬ marketplace_attach_error (lower c) error_code error_message) as Hn.
    { intros H%marketplace_attach_error_test. congruence. }
    unfold bind, logger, modify, update_aws_image_status_error, volume_delete,
      call, raise, ret.
    simpl. rewrite Himg. simpl.
    eexists. split; [|split; [|split; [|split; [|split; [|split]]]]].
    7:{ destruct (delete_volume c index (volume_id message)); reflexivity. }
    + intros id Hne. simpl. by rewrite lookup_insert_ne.
    + done.
    + done.
    + done.
    + done.
    + intros _. simpl. rewrite status_of_insert. by rewrite decide_True.
Qed.

Lemma attach_failure_marks_image_and_discards_volume_witness :
  ∃ w1,
    (∀ id, id ≠ "ami-1" → images w1 !! id = images Scenario.waiting_world !! id)
    ∧ volumes w1 = volumes Scenario.waiting_world
    ∧ calls w1 = calls Scenario.waiting_world
    ∧ delayed w1 = delayed Scenario.waiting_world
    ∧ (marketplace_attach_error (lower Scenario.marketplace_cluster)
         "OptInRequired" "This volume requires a Marketplace subscription" →
         status_of (images w1) "ami-1" = Some INSPECTED)
    ∧ (¬ marketplace_attach_error (lower Scenario.marketplace_cluster)
           "OptInRequired" "This volume requires a Marketplace subscription" →
         status_of (images w1) "ami-1" = Some ERROR)
    ∧ attach_loop Scenario.marketplace_cluster "i-0a1" 0
                  [mkMessage "ami-1" "vol-1"; mkMessage "ami-2" "vol-2"]
                  ["-c"; "aws"] Scenario.waiting_world
      = attach_loop Scenario.marketplace_cluster "i-0a1" 1
                    [mkMessage "ami-2" "vol-2"] ["-c"; "aws"]
                    (set_volumes (delete "vol-1") (add_call (DeleteVolume "vol-1") w1)).
Proof.
  apply (attach_failure_marks_image_and_discards_volume
           Scenario.marketplace_cluster "i-0a1" 0
           (mkMessage "ami-1" "vol-1") [mkMessage "ami-2" "vol-2"] ["-c"; "aws"]
           Scenario.waiting_world
           (ClientError "OptInRequired"
                        "This volume requires a Marketplace subscription")
           false (mkMachineImage PENDING None false false false));
    reflexivity.
Defined.

(** C6, as stated, fails when the volume cannot be deleted.  The volumes of
    the batch are gone: the attach of the first is refused with the
    not-found error, its image is marked ERROR, and the unguarded
    [volume.delete()] raises the same error out of the task.  No volume is
    deleted and the second message is never processed: its image is left
    INSPECTING. *)
Lemma attach_failure_on_lost_volume_aborts_batch :
  (run_inspection_cluster Scenario.lost_volume_cluster
     [mkMessage "ami-1" "vol-1"; mkMessage "ami-2" "vol-2"] "aws"
     Scenario.volumes_gone_world).1
  = Raise (ClientError "InvalidVolume.NotFound" "vol-1")
  ∧ status_of (images (run_inspection_cluster Scenario.lost_volume_cluster
                 [mkMessage "ami-1" "vol-1"; mkMessage "ami-2" "vol-2"] "aws"
                 Scenario.volumes_gone_world).2) "ami-1" = Some ERROR
  ∧ status_of (images (run_inspection_cluster Scenario.lost_volume_cluster
                 [mkMessage "ami-1" "vol-1"; mkMessage "ami-2" "vol-2"] "aws"
                 Scenario.volumes_gone_world).2) "ami-2" = Some INSPECTING
  ∧ calls (run_inspection_cluster Scenario.lost_volume_cluster
             [mkMessage "ami-1" "vol-1"; mkMessage "ami-2" "vol-2"] "aws"
             Scenario.volumes_gone_world).2 = [].
Proof. by vm_compute. Qed.

(** The same turn run to the end on a batch of two refused volumes: both
    images end INSPECTED, both volumes are deleted, and no scan is launched
    since no target is left. *)
Lemma attach_failures_on_whole_batch :
  (run_inspection_cluster Scenario.marketplace_cluster
     [mkMessage "ami-1" "vol-1"; mkMessage "ami-2" "vol-2"] "aws"
     Scenario.waiting_world).1 = Ok tt
  ∧ calls (run_inspection_cluster Scenario.marketplace_cluster
             [mkMessage "ami-1" "vol-1"; mkMessage "ami-2" "vol-2"] "aws"
             Scenario.waiting_world).2
    = [DeleteVolume "vol-1"; DeleteVolume "vol-2"]
  ∧ status_of (images (run_inspection_cluster Scenario.marketplace_cluster
                 [mkMessage "ami-1" "vol-1"; mkMessage "ami-2" "vol-2"] "aws"
                 Scenario.waiting_world).2) "ami-2" = Some INSPECTED.
Proof. by vm_compute. Qed.

(** ** The cluster scaler: [scale_up_inspection_cluster] *)

Lemma is_scaled_down_true (w : World) :
  fully_at_zero (asg w) → is_scaled_down w = (Ok (true, asg w), w).
Proof.
  intros (Hi & Hmin & Hmax & Hd). unfold is_scaled_down, gets.
  by rewrite !bool_decide_eq_true_2.
Qed.

Lemma is_scaled_down_false (w : World) :
  ¬ fully_at_zero (asg w) → is_scaled_down w = (Ok (false, asg w), w).
Proof.
  intros Hn. unfold is_scaled_down, gets. do 2 f_equal.
  repeat case_bool_decide; simpl; try done. by destruct Hn.
Qed.

#[local] Instance fully_at_zero_dec (g : AutoScalingGroup) : Decision (fully_at_zero g).
Proof. unfold fully_at_zero. apply _. Defined.

Lemma log_instances_quiet (instances : list string) (w : World) :
  ∃ w', log_instances instances w = (Ok tt, w')
        ∧ calls w' = calls w ∧ delayed w' = delayed w ∧ queue w' = queue w
        ∧ asg w' = asg w ∧ images w' = images w.
Proof.
  revert w. induction instances as [|i r IH]; intros w; simpl.
  - by exists w.
  - unfold bind, logger, modify.
    destruct (IH (add_log (LInfo, "Instance exists", i) w)) as (w' & -> & ?).
    by exists w'.
Qed.

(** C2.  On every run of the scaler, a scale-up request is issued exactly
    when the group is fully at zero and at least one message was pulled from
    the queue; in every other case the task returns normally without a
    request and without a dispatch; and the batch handed to the dispatcher,
    when there is one, is never empty. *)
Theorem scaler_scales_up_only_from_zero_with_work
    (batch_size : nat) (outcome : option exn) (w : World) :
  ∃ r w', scale_up_inspection_cluster batch_size outcome w = (r, w')
  ∧ ((fully_at_zero (asg w) ∧ take batch_size (queue w) ≠ []) →
       calls w' = calls w ++ [ScaleUp])
  ∧ (¬ (fully_at_zero (asg w) ∧ take batch_size (queue w) ≠ []) →
       r = Ok tt ∧ calls w' = calls w ∧ delayed w' = delayed w ∧ asg w' = asg w)
  ∧ (delayed w' = delayed w
     ∨ ∃ messages, messages ≠ []
         ∧ delayed w' = delayed w ++ [run_inspection_cluster_task messages]).
Proof.
  unfold scale_up_inspection_cluster. unfold bind at 1.
  destruct (decide (fully_at_zero (asg w))) as [Hz|Hz].
  - rewrite is_scaled_down_true by done. simpl.
    unfold bind at 1. unfold read_messages_from_queue at 1.
    destruct (take batch_size (queue w)) as [|m ms] eqn:Htake.
    + simpl. unfold logger, modify. eexists _, _. split; [done|].
      split; [by intros [_ ?]|]. split; [done|]. by left.
    + simpl. unfold bind, reraising_ClientError, scale_up, bind, call, modify, raise.
      destruct outcome as [e|]; simpl.
      * destruct e; simpl; eexists _, _; (split; [done|]); simpl; (split; [done|]);
          (split; [intros Hn; destruct Hn; done|]); by left.
      * eexists _, _. split; [done|]. simpl. split; [done|].
        split; [intros Hn; destruct Hn; done|]. right. by exists (m :: ms).
  - rewrite is_scaled_down_false by done. simpl.
    unfold bind, logger, modify.
    destruct (log_instances_quiet (Instances (asg w))
                (add_log (LInfo, "Auto Scaling group is not scaled down.", "") w))
      as (w' & -> & Hc & Hd & Hq & Ha & Hi).
    exists (Ok tt), w'. split; [done|]. simpl in *.
    split; [by intros [? _]|]. split; [done|]. by left.
Qed.

Lemma scaler_scales_up_only_from_zero_with_work_witness :
  ∃ r w',
    scale_up_inspection_cluster 10 None Scenario.waiting_world = (r, w')
    ∧ calls w' = calls Scenario.waiting_world ++ [ScaleUp]
    ∧ (delayed w' = delayed Scenario.waiting_world
       ∨ ∃ messages, messages ≠ []
           ∧ delayed w' = delayed Scenario.waiting_world
                          ++ [run_inspection_cluster_task messages]).
Proof.
  destruct (scaler_scales_up_only_from_zero_with_work 10 None Scenario.waiting_world)
    as (r & w' & Hrun & Hup & _ & Hbatch).
  exists r, w'. split; [exact Hrun|]. split; [|exact Hbatch].
  apply Hup. split.
  - repeat split; reflexivity.
  - simpl. discriminate.
Defined.

(** The scaler once a non-empty batch has been pulled from a group at zero,
    by what the scale-up request raises.  A ClientError is re-raised with
    every pulled message back in the queue.  Any other exception passes the
    handler by: it is raised with the pulled messages gone from the queue.
    When the request succeeds the batch is handed to the dispatcher.  In no
    case is the batch handed over after a failure. *)
Lemma scaler_after_pull (batch_size : nat) (outcome : option exn) (w : World) :
  fully_at_zero (asg w) →
  take batch_size (queue w) ≠ [] →
  ∃ r w', scale_up_inspection_cluster batch_size outcome w = (r, w')
  ∧ match outcome with
    | Some (ClientError code message) =>
        r = Raise (ClientError code message)
        ∧ queue w' = drop batch_size (queue w) ++ take batch_size (queue w)
        ∧ (∀ m, m ∈ take batch_size (queue w) → m ∈ queue w')
        ∧ delayed w' = delayed w
    | Some e =>
        r = Raise e
        ∧ queue w' = drop batch_size (queue w)
        ∧ delayed w' = delayed w
    | None =>
        r = Ok tt
        ∧ queue w' = drop batch_size (queue w)
        ∧ delayed w'
          = delayed w ++ [run_inspection_cluster_task (take batch_size (queue w))]
    end.
Proof.
  intros Hz Hne. unfold scale_up_inspection_cluster. unfold bind at 1.
  rewrite is_scaled_down_true by done. simpl.
  unfold bind at 1. unfold read_messages_from_queue at 1.
  destruct (take batch_size (queue w)) as [|m ms] eqn:Htake; [done|]. simpl.
  unfold bind, reraising_ClientError, scale_up, bind, call, modify, raise.
  destruct outcome as [e|]; simpl.
  - destruct e; simpl; eexists _, _; (split; [done|]); simpl; try done.
    split; [done|]. split; [done|]. split; [|done].
    intros x Hx. apply elem_of_app. by right.
  - eexists _, _. split; [done|]. by simpl.
Qed.

(** C3, at the failing input.  The group is at zero, two messages wait in
    the queue, and the scale-up request does not get through: boto3 raises
    EndpointConnectionError, which is not a ClientError.  The handler that
    re-adds the pulled messages "so they aren't lost" catches ClientError
    only and does not run: the error is raised, nothing is handed to the
    dispatcher, and both messages are gone from the queue. *)
Theorem scaler_drops_batch_when_scale_up_cannot_connect :
  queue Scenario.waiting_world
  = [mkMessage "ami-1" "vol-1"; mkMessage "ami-2" "vol-2"]
  ∧ (scale_up_inspection_cluster 10 (Some EndpointConnectionError)
       Scenario.waiting_world).1 = Raise EndpointConnectionError
  ∧ queue (scale_up_inspection_cluster 10 (Some EndpointConnectionError)
             Scenario.waiting_world).2 = []
  ∧ delayed (scale_up_inspection_cluster 10 (Some EndpointConnectionError)
               Scenario.waiting_world).2 = [].
Proof. by vm_compute. Qed.

(** ** The volume provisioner's follow-up: [delete_snapshot] *)

(** With the volume ready, [delete_snapshot] raises the provider's
    not-found error whenever the snapshot copy is gone: nothing catches it. *)
Lemma delete_snapshot_raises_not_found
    (snapshot_copy_id volume_id volume_region : string) (w : World) :
  volumes w !! volume_id = Some available →
  snapshot_copy_id ∉ snapshots w →
  (delete_snapshot snapshot_copy_id volume_id volume_region w).1
  = Raise (ClientError "InvalidSnapshot.NotFound" snapshot_copy_id).
Proof.
  intros Hvol Hgone.
  unfold delete_snapshot, bind, get_volume, ret, check_volume_state, logger, modify,
    snapshot_delete.
  rewrite Hvol. simpl. by rewrite bool_decide_eq_false_2.
Qed.

(** The sibling task does tolerate it: [remove_snapshot_ownership] logs that
    the snapshot copy is already deleted and completes. *)
Lemma remove_snapshot_ownership_tolerates_not_found
    (arn customer_snapshot_id customer_snapshot_region snapshot_copy_id : string)
    (w : World) :
  snapshot_copy_id ∉ snapshots w →
  (remove_snapshot_ownership arn customer_snapshot_id customer_snapshot_region
                             snapshot_copy_id w).1 = Ok tt.
Proof.
  intros Hgone.
  unfold remove_snapshot_ownership, bind, check_snapshot_state, logger, call, modify.
  by rewrite bool_decide_eq_false_2.
Qed.

(** C4, at the failing input: the volume is ready and the snapshot copy no
    longer exists; the task body ends with the provider's not-found error
    instead of completing. *)
Theorem delete_snapshot_raises_when_copy_is_gone :
  volumes Scenario.copy_gone_world !! "vol-1" = Some available
  ∧ ("snap-copy-1" ∉ snapshots Scenario.copy_gone_world)
  ∧ (delete_snapshot "snap-copy-1" "vol-1" "us-east-1" Scenario.copy_gone_world).1
    = Raise (ClientError "InvalidSnapshot.NotFound" "snap-copy-1").
Proof.
  assert ("snap-copy-1" ∉ snapshots Scenario.copy_gone_world) as Hgone
    by (simpl; set_solver).
  split; [reflexivity|]. split; [exact Hgone|].
  by apply delete_snapshot_raises_not_found.
Qed.

(** ** The snapshot stager: [copy_ami_to_customer_account] *)

(** C5.  The image exists and is described; copying it fails with an
    InvalidRequest error whose message, a trailing period stripped, is one
    of the marketplace or billing phrases (the entries of [public_errors]
    other than the private-storage phrase).  Then the task returns without
    raising, the image is INSPECTED with the marketplace flag set, and the
    staging chain stops: no task is scheduled and no provider request is
    made, so no snapshot copy or volume comes to exist for it. *)
Theorem copy_ami_marketplace_marks_inspected
    (get_ami : string → string → option Ami)
    (copy_ami : string → string → string + string * string)
    (arn reference_ami_id snapshot_region message : string)
    (reference_ami : Ami) (flag : bool) (image : MachineImage) (w : World) :
  images w !! reference_ami_id = Some (mkAwsMachineImage flag (Some image)) →
  get_ami reference_ami_id snapshot_region = Some reference_ami →
  copy_ami (id reference_ami) snapshot_region = inr ("InvalidRequest", message) →
  (if endswith_dot message then drop_last message else message) ∈ public_errors →
  (if endswith_dot message then drop_last message else message) ≠ private_errors →
  ∃ w',
    copy_ami_to_customer_account get_ami copy_ami arn reference_ami_id snapshot_region w
    = (Ok tt, w')
    ∧ images w' = <[reference_ami_id :=
                      mkAwsMachineImage true (Some (with_status INSPECTED image))]>
                    (images w)
    ∧ delayed w' = delayed w
    ∧ calls w' = calls w
    ∧ snapshots w' = snapshots w
    ∧ volumes w' = volumes w.
Proof.
  intros Himg Hami Hcopy Hpub Hpriv.
  unfold copy_ami_to_customer_account.
  unfold bind at 1. unfold gets at 1.
  rewrite bool_decide_eq_true_2 by (rewrite Himg; eauto). cbn [negb].
  rewrite Hami, Hcopy. rewrite bool_decide_eq_true_2 by done.
  set (error := if endswith_dot message then drop_last message else message) in *.
  assert (negb (public reference_ami) && str_in error private_errors = false) as ->.
  { unfold public_errors in Hpub.
    repeat (apply elem_of_cons in Hpub as [Hpub|Hpub]).
    - rewrite Hpub. replace (str_in _ _) with false by (by vm_compute).
      apply andb_false_r.
    - rewrite Hpub. replace (str_in _ _) with false by (by vm_compute).
      apply andb_false_r.
    - done.
    - by apply elem_of_nil in Hpub. }
  assert (tuple_in error public_errors = true) as ->.
  { unfold tuple_in. by apply bool_decide_eq_true_2. }
  unfold bind, logger, modify, update_aws_image_status_inspected, ret. simpl.
  rewrite Himg. eexists. split; [done|]. simpl. by rewrite orb_true_r.
Qed.

Lemma copy_ami_marketplace_marks_inspected_witness :
  ∃ w',
    copy_ami_to_customer_account Scenario.private_ami Scenario.marketplace_refusal
      "arn:aws:iam::123456789012:role/customer" "ami-1" "us-east-1"
      Scenario.copy_gone_world
    = (Ok tt, w')
    ∧ images w'
      = <["ami-1" := mkAwsMachineImage true
                       (Some (with_status INSPECTED
                                (mkMachineImage PENDING None false false false)))]>
          (images Scenario.copy_gone_world)
    ∧ delayed w' = delayed Scenario.copy_gone_world
    ∧ calls w' = calls Scenario.copy_gone_world
    ∧ snapshots w' = snapshots Scenario.copy_gone_world
    ∧ volumes w' = volumes Scenario.copy_gone_world.
Proof.
  apply (copy_ami_marketplace_marks_inspected
           Scenario.private_ami Scenario.marketplace_refusal
           "arn:aws:iam::123456789012:role/customer" "ami-1" "us-east-1"
           "Images from AWS Marketplace cannot be copied to another AWS account."
           (mkAmi "ami-1" false) false
           (mkMachineImage PENDING None false false false)
           Scenario.copy_gone_world).
  - reflexivity.
  - reflexivity.
  - reflexivity.
  - vm_compute. apply list_elem_of_here.
  - vm_compute. discriminate.
Defined.

(** The third entry of [public_errors] is the private-storage phrase: on an
    image that is not public it is met first by the private test, and the
    image is marked ERROR instead. *)
Lemma copy_ami_private_storage_marks_error
    (arn : string) (copy_ami : string → string → string + string * string) :
  copy_ami "ami-1" "us-east-1"
  = inr ("InvalidRequest",
         "You do not have permission to access the storage of this ami") →
  status_of
    (images (copy_ami_to_customer_account Scenario.private_ami copy_ami arn
               "ami-1" "us-east-1" Scenario.copy_gone_world).2) "ami-1"
  = Some ERROR.
Proof.
  intros Hcopy. unfold copy_ami_to_customer_account, bind, gets. simpl.
  rewrite Hcopy. by vm_compute.
Qed.

(** ** The result collector: [persist_aws_inspection_cluster_results] *)

Lemma update_inspected_payload ec2_ami_id payload (w : World) :
  ∃ w',
    update_aws_image_status_inspected ec2_ami_id false (Some payload) w
    = (Ok (bool_decide (is_Some (status_of (images w) ec2_ami_id))), w')
    ∧ images w' !! ec2_ami_id = persisted payload <$> images w !! ec2_ami_id
    ∧ (∀ id, id ≠ ec2_ami_id → images w' !! id = images w !! id)
    ∧ log w' = log w.
Proof.
  unfold update_aws_image_status_inspected, status_of.
  destruct (images w !! ec2_ami_id) as [[flag [image|]]|] eqn:Hm; simpl.
  - eexists. split; [reflexivity|]. simpl. rewrite orb_false_r.
    rewrite lookup_insert_eq. split; [done|]. split; [|done].
    intros id Hne. by rewrite lookup_insert_ne.
  - by exists w.
  - by exists w.
Qed.

(** The loop over the results never raises. *)
Lemma persist_loop_returns (json_dumps : json → string)
    (items : list (string * json)) (w : World) :
  ∃ w', persist_loop json_dumps items w = (Ok tt, w').
Proof.
  revert w. induction items as [|[k v] r IH]; intros w; cbn [persist_loop].
  - by exists w.
  - unfold bind at 1.
    destruct (update_inspected_payload k (json_dumps v) w) as (w1 & -> & _).
    unfold bind at 1.
    destruct (negb _); unfold logger, modify, ret; apply IH.
Qed.

Lemma persist_loop_spec (json_dumps : json → string) (items : list (string * json))
    (w : World) :
  NoDup items.*1 →
  ∃ w',
    persist_loop json_dumps items w = (Ok tt, w')
    ∧ (∀ id, id ∉ items.*1 → images w' !! id = images w !! id)
    ∧ (∀ id j, (id, j) ∈ items →
         images w' !! id = persisted (json_dumps j) <$> images w !! id)
    ∧ (∀ l, l ∈ log w → l ∈ log w')
    ∧ (∀ id j, (id, j) ∈ items → status_of (images w) id = None →
         (LWarning,
          "Persisting AWS inspection results, but we do not have any record of it",
          id) ∈ log w').
Proof.
  revert w. induction items as [|[image_id image_json] rest IH]; intros w Hnd.
  - exists w. simpl. unfold ret. split; [done|]. split; [done|].
    split; [by intros ?? ?%elem_of_nil|]. split; [done|]. by intros ?? ?%elem_of_nil.
  - apply NoDup_cons in Hnd as [Hfresh Hnd]. cbn [persist_loop].
    unfold bind at 1.
    destruct (update_inspected_payload image_id (json_dumps image_json) w)
      as (w1 & -> & Hsame & Hother & Hlog).
    unfold bind at 1.
    set (known := bool_decide (is_Some (status_of (images w) image_id))).
    set (w2 := (if negb known
                then logger LWarning
                  "Persisting AWS inspection results, but we do not have any record of it"
                  image_id
                else ret tt) w1).
    assert (w2 = (Ok tt, if known then w1
                          else add_log (LWarning,
            "Persisting AWS inspection results, but we do not have any record of it",
            image_id) w1)) as Hw2 by (subst w2; by destruct known).
    rewrite Hw2. clear Hw2 w2.
    set (w2 := if known then w1 else add_log _ w1).
    assert (images w2 = images w1) as Himg2 by (subst w2; by destruct known).
    assert (∀ l, l ∈ log w1 → l ∈ log w2) as Hlog2.
    { subst w2. destruct known; [done|]. simpl. intros l Hl. apply elem_of_app. by left. }
    destruct (IH w2 Hnd) as (w' & Hrun & Hout & Hin & Hlogs & Hwarn).
    exists w'. split; [exact Hrun|]. split; [|split; [|split]].
    + intros id Hid. rewrite fmap_cons in Hid. simpl in Hid.
      apply not_elem_of_cons in Hid as [Hne Hid].
      rewrite Hout, Himg2 by done. by apply Hother.
    + intros id j Hij. apply elem_of_cons in Hij as [Heq|Hij].
      * injection Heq as -> ->. rewrite Hout, Himg2 by done. exact Hsame.
      * rewrite (Hin _ _ Hij), Himg2.
        rewrite Hother; [done|]. intros ->. apply Hfresh.
        by apply (list_elem_of_fmap_2 fst _ (image_id, j)).
    + intros l Hl. apply Hlogs, Hlog2. by rewrite Hlog.
    + intros id j Hij Hnone. apply elem_of_cons in Hij as [Heq|Hij].
      * injection Heq as -> ->. apply Hlogs. subst w2 known.
        rewrite Hnone. rewrite bool_decide_eq_false_2 by (by intros [? ?]).
        simpl. apply elem_of_app. right. apply list_elem_of_here.
      * apply (Hwarn _ _ Hij). unfold status_of. rewrite Himg2.
        rewrite Hother.
        -- exact Hnone.
        -- intros ->. apply Hfresh. by apply (list_elem_of_fmap_2 fst _ (image_id, j)).
Qed.

(** The malformed-input error is raised exactly when [.get("images")] is
    [None]: the key is missing, or it is there with a null value. *)
Lemma persist_raises_malformed_iff (json_dumps : json → string)
    (inspection_results : list (string * json)) (w : World) :
  (persist_aws_inspection_cluster_results json_dumps inspection_results w).1
    = Raise InvalidHoundigradeJsonFormat
  ↔ dict_get "images" inspection_results = None
    ∨ dict_get "images" inspection_results = Some JNull.
Proof.
  unfold persist_aws_inspection_cluster_results.
  destruct (dict_get "images" inspection_results) as [[| | | | |items]|] eqn:Hget;
    simpl.
  - split; [by right|done].
  - split; [done|by intros [?|?]].
  - split; [done|by intros [?|?]].
  - split; [done|by intros [?|?]].
  - split; [done|by intros [?|?]].
  - destruct (persist_loop_returns json_dumps items w) as (w' & ->).
    split; [done|by intros [?|?]].
  - split; [by left|done].
Qed.

(** C8, as the code has it.  The collector raises the malformed-input error
    if and only if the payload has no "images" entry or maps it to null.
    When "images" is a dict, the call returns, every image id in it that
    matches a stored record is INSPECTED with its serialized payload
    attached, and every id with no matching record is left alone with a
    warning logged. *)
Theorem persist_results_spec (json_dumps : json → string)
    (inspection_results : list (string * json)) (w : World) :
  ((persist_aws_inspection_cluster_results json_dumps inspection_results w).1
     = Raise InvalidHoundigradeJsonFormat
   ↔ dict_get "images" inspection_results = None
     ∨ dict_get "images" inspection_results = Some JNull)
  ∧ ∀ items,
      dict_get "images" inspection_results = Some (JDict items) →
      NoDup items.*1 →
      ∃ w',
        persist_aws_inspection_cluster_results json_dumps inspection_results w
        = (Ok tt, w')
        ∧ ∀ id j, (id, j) ∈ items →
            (is_Some (status_of (images w) id) →
               status_of (images w') id = Some INSPECTED
               ∧ inspection_json_of (images w') id = Some (json_dumps j))
            ∧ (status_of (images w) id = None →
                 images w' !! id = images w !! id
                 ∧ (LWarning,
                    "Persisting AWS inspection results, but we do not have any record of it",
                    id) ∈ log w').
Proof.
  split; [apply persist_raises_malformed_iff|].
  - intros items Hget Hnd. unfold persist_aws_inspection_cluster_results.
    rewrite Hget.
    destruct (persist_loop_spec json_dumps items w Hnd)
      as (w' & Hrun & Hout & Hin & Hlogs & Hwarn).
    exists w'. split; [exact Hrun|].
    intros id j Hij. split.
    + intros [s Hs]. unfold status_of, inspection_json_of in *.
      rewrite (Hin _ _ Hij).
      destruct (images w !! id) as [[flag [image|]]|]; simpl in *; done.
    + intros Hnone. split; [|by eapply Hwarn].
      rewrite (Hin _ _ Hij). unfold status_of in Hnone.
      destruct (images w !! id) as [[flag [image|]]|]; simpl in *; done.
Qed.

Lemma persist_results_spec_witness :
  ∃ w',
    persist_aws_inspection_cluster_results Scenario.dumps
      [("images", JDict [("ami-1", JDict []); ("ami-9", JDict [])])]
      Scenario.waiting_world
    = (Ok tt, w')
    ∧ (status_of (images w') "ami-1" = Some INSPECTED
       ∧ inspection_json_of (images w') "ami-1" = Some "{}")
    ∧ (images w' !! "ami-9" = images Scenario.waiting_world !! "ami-9"
       ∧ (LWarning,
          "Persisting AWS inspection results, but we do not have any record of it",
          "ami-9") ∈ log w').
Proof.
  destruct (persist_results_spec Scenario.dumps
              [("images", JDict [("ami-1", JDict []); ("ami-9", JDict [])])]
              Scenario.waiting_world) as [_ Hdict].
  destruct (Hdict [("ami-1", JDict []); ("ami-9", JDict [])]) as (w' & Hrun & Hids).
  - reflexivity.
  - compute_done.
  - exists w'. split; [exact Hrun|]. split.
    + apply (Hids "ami-1" (JDict [])); [apply list_elem_of_here|].
      exists PENDING. reflexivity.
    + apply (Hids "ami-9" (JDict []));
        [apply list_elem_of_further, list_elem_of_here|reflexivity].
Defined.

(** C8, as stated, fails: the "images" key is present, its value is null,
    and the collector raises the malformed-input error all the same. *)
Lemma persist_rejects_null_images :
  dict_get "images" [("images", JNull)] ≠ None
  ∧ (persist_aws_inspection_cluster_results Scenario.dumps [("images", JNull)]
       Scenario.waiting_world).1
    = Raise InvalidHoundigradeJsonFormat.
Proof. split; [discriminate|reflexivity]. Qed.

(** C10, as the code has it.  A payload whose "images" entry is an empty
    dict: the collector returns without error and the world, every image's
    status and inspection data included, is unchanged.  The payloads
    rejected as malformed are those lacking the key and those mapping it to
    null. *)
Theorem persist_empty_images_is_noop (json_dumps : json → string)
    (inspection_results : list (string * json)) (w : World) :
  (dict_get "images" inspection_results = Some (JDict []) →
   persist_aws_inspection_cluster_results json_dumps inspection_results w = (Ok tt, w))
  ∧ ((persist_aws_inspection_cluster_results json_dumps inspection_results w).1
       = Raise InvalidHoundigradeJsonFormat
     ↔ dict_get "images" inspection_results = None
       ∨ dict_get "images" inspection_results = Some JNull).
Proof.
  split; [|apply persist_raises_malformed_iff].
  intros Hget. unfold persist_aws_inspection_cluster_results. by rewrite Hget.
Qed.

Lemma persist_empty_images_is_noop_witness :
  persist_aws_inspection_cluster_results Scenario.dumps [("images", JDict [])]
    Scenario.waiting_world
  = (Ok tt, Scenario.waiting_world).
Proof.
  apply (persist_empty_images_is_noop Scenario.dumps [("images", JDict [])]
           Scenario.waiting_world).
  reflexivity.
Defined.

(** C10, as stated, fails in its last part: this payload does not lack the
    key, and it is rejected. *)
Lemma persist_rejects_payload_with_null_entry :
  dict_get "images" [("cloud", JStr "aws"); ("images", JNull)] = Some JNull
  ∧ (persist_aws_inspection_cluster_results Scenario.dumps
       [("cloud", JStr "aws"); ("images", JNull)] Scenario.inspected_world).1
    = Raise InvalidHoundigradeJsonFormat.
Proof. split; reflexivity. Qed.

(* ===================================================================== *)
(** * Further properties of the code *)
(* ===================================================================== *)

(** ** Tag resolution, continued *)

Lemma filter_none {A} (f : A → bool) (l : list A) :
  (∀ x, x ∈ l → f x = false) → List.filter f l = [].
Proof.
  induction l as [|y r IH]; intros H; simpl; [done|].
  rewrite (H y) by apply list_elem_of_here.
  apply IH. intros x Hx. apply H. by apply list_elem_of_further.
Qed.

Section GroupBy.
Context {A K : Type} `{EqDecision K} (key : A → K).

Lemma groupby_nil_inv (l : list A) : groupby key l = [] → l = [].
Proof.
  destruct l as [|x r]; [done|]. simpl.
  destruct (groupby key r) as [|[k g] gs]; [done|]. by destruct (decide (key x = k)).
Qed.

(** Every member of a group comes from the list and carries the group's key. *)
Lemma groupby_sound (l : list A) (k : K) (g : list A) (x : A) :
  (k, g) ∈ groupby key l → x ∈ g → x ∈ l ∧ key x = k.
Proof.
  revert k g. induction l as [|y r IH]; intros k g Hg Hx; simpl in Hg;
    [by apply elem_of_nil in Hg|].
  destruct (groupby key r) as [|[k' g'] gs] eqn:Hr.
  - apply list_elem_of_singleton in Hg. injection Hg as -> ->.
    apply list_elem_of_singleton in Hx as ->. split; [apply list_elem_of_here|done].
  - destruct (decide (key y = k')) as [Hk|Hk].
    + apply elem_of_cons in Hg as [Hg|Hg].
      * injection Hg as -> ->. apply elem_of_cons in Hx as [->|Hx].
        -- split; [apply list_elem_of_here|done].
        -- destruct (IH k' g' (list_elem_of_here _ _) Hx) as [? ?].
           split; [by apply list_elem_of_further|done].
      * destruct (IH k g (list_elem_of_further _ _ _ Hg) Hx) as [? ?].
        split; [by apply list_elem_of_further|done].
    + apply elem_of_cons in Hg as [Hg|Hg].
      * injection Hg as -> ->. apply list_elem_of_singleton in Hx as ->.
        split; [apply list_elem_of_here|done].
      * destruct (IH k g Hg Hx) as [? ?].
        split; [by apply list_elem_of_further|done].
Qed.

Lemma groupby_keys_covered (l : list A) (x : A) :
  x ∈ l → key x ∈ (groupby key l).*1.
Proof.
  intros Hx. destruct (groupby_covers key l x Hx) as (g & Hg & _).
  by apply (list_elem_of_fmap_2 fst _ (key x, g)).
Qed.

(** When no key comes back after another one, every group is the whole set
    of elements of its key. *)
Lemma groupby_contiguous (l : list A) (k : K) (g : list A) :
  NoDup (groupby key l).*1 →
  (k, g) ∈ groupby key l →
  g = List.filter (λ x, bool_decide (key x = k)) l.
Proof.
  revert k g. induction l as [|y r IH]; intros k g Hnd Hg; simpl in *;
    [by apply elem_of_nil in Hg|].
  destruct (groupby key r) as [|[k' g'] gs] eqn:Hr.
  - apply groupby_nil_inv in Hr as ->.
    apply list_elem_of_singleton in Hg. injection Hg as -> ->.
    simpl. by rewrite bool_decide_eq_true_2.
  - destruct (decide (key y = k')) as [Hk|Hk].
    + simpl in Hnd. apply elem_of_cons in Hg as [Hg|Hg].
      * injection Hg as -> ->. rewrite bool_decide_eq_true_2 by done.
        f_equal. apply IH; [done|apply list_elem_of_here].
      * assert (k ≠ k') as Hne.
        { intros ->. apply NoDup_cons in Hnd as [Hnotin _]. apply Hnotin.
          by apply (list_elem_of_fmap_2 fst _ (k', g)). }
        rewrite bool_decide_eq_false_2 by congruence.
        apply IH; [done|by apply list_elem_of_further].
    + simpl in Hnd. apply NoDup_cons in Hnd as [Hfresh Hnd].
      apply elem_of_cons in Hg as [Hg|Hg].
      * injection Hg as -> ->. rewrite bool_decide_eq_true_2 by done.
        f_equal. symmetry. apply filter_none. intros x Hx.
        apply bool_decide_eq_false_2. intros Hkx. apply Hfresh.
        pose proof (groupby_keys_covered r x Hx) as Hc.
        rewrite Hr in Hc. simpl in Hc. by rewrite Hkx in Hc.
      * assert (k ≠ key y) as Hne.
        { intros ->. apply Hfresh. exact (list_elem_of_fmap_2 fst _ _ Hg). }
        rewrite bool_decide_eq_false_2 by congruence.
        by apply IH.
Qed.

End GroupBy.

Section TagSoundness.
Implicit Types (sets : gset string * gset string) (e : CloudTrailImageTagEvent).
Variable the_tag : string.

Lemma tag_event_step_sound ami sets e x :
  (x ∈ (tag_event_step ami sets e).1 → x ∈ sets.1 ∨ (x = ami ∧ exists_ e = true))
  ∧ (x ∈ (tag_event_step ami sets e).2 → x ∈ sets.2 ∨ (x = ami ∧ exists_ e = false)).
Proof.
  destruct sets as [t u]. unfold tag_event_step. simpl.
  repeat case_bool_decide; simpl; destruct (exists_ e) eqn:He; simpl; set_solver.
Qed.

Lemma tag_events_sound ami (l : list CloudTrailImageTagEvent) sets x :
  (x ∈ (foldl (tag_event_step ami) sets l).1 →
     x ∈ sets.1 ∨ (x = ami ∧ ∃ e, e ∈ l ∧ exists_ e = true))
  ∧ (x ∈ (foldl (tag_event_step ami) sets l).2 →
       x ∈ sets.2 ∨ (x = ami ∧ ∃ e, e ∈ l ∧ exists_ e = false)).
Proof.
  revert sets. induction l as [|e l IH]; intros sets; cbn [foldl]; [by split; left|].
  destruct (IH (tag_event_step ami sets e)) as [IH1 IH2].
  destruct (tag_event_step_sound ami sets e x) as [S1 S2].
  split; intros Hx.
  - destruct (IH1 Hx) as [H|(-> & e' & He' & Hex)].
    + destruct (S1 H) as [?|[-> ?]]; [by left|]. right. split; [done|].
      exists e. split; [apply list_elem_of_here|done].
    + right. split; [done|]. exists e'. split; [by apply list_elem_of_further|done].
  - destruct (IH2 Hx) as [H|(-> & e' & He' & Hex)].
    + destruct (S2 H) as [?|[-> ?]]; [by left|]. right. split; [done|].
      exists e. split; [apply list_elem_of_here|done].
    + right. split; [done|]. exists e'. split; [by apply list_elem_of_further|done].
Qed.

Lemma tag_filter_elem (l : list CloudTrailImageTagEvent) e :
  e ∈ reverse (sorted occurred_at
                 (filterfalse (λ e0, negb (bool_decide (tag e0 = the_tag))) l))
  ↔ e ∈ l ∧ tag e = the_tag.
Proof.
  rewrite elem_of_reverse, sorted_Permutation. unfold filterfalse.
  rewrite list_elem_of_In, filter_In, <- list_elem_of_In.
  rewrite negb_involutive, bool_decide_eq_true. done.
Qed.

Lemma tag_group_step_sound sets k g x :
  (x ∈ (tag_group_step the_tag sets (k, g)).1 →
     x ∈ sets.1 ∨ (x = k ∧ ∃ e, e ∈ g ∧ tag e = the_tag ∧ exists_ e = true))
  ∧ (x ∈ (tag_group_step the_tag sets (k, g)).2 →
       x ∈ sets.2 ∨ (x = k ∧ ∃ e, e ∈ g ∧ tag e = the_tag ∧ exists_ e = false)).
Proof.
  unfold tag_group_step.
  destruct (tag_events_sound k
    (reverse (sorted occurred_at
       (filterfalse (λ e0, negb (bool_decide (tag e0 = the_tag))) g))) sets x)
    as [S1 S2].
  split; intros Hx.
  - destruct (S1 Hx) as [?|(-> & e & He & Hex)]; [by left|]. right. split; [done|].
    apply tag_filter_elem in He as [? ?]. by exists e.
  - destruct (S2 Hx) as [?|(-> & e & He & Hex)]; [by left|]. right. split; [done|].
    apply tag_filter_elem in He as [? ?]. by exists e.
Qed.

Lemma tag_groups_sound groups sets x :
  (x ∈ (foldl (tag_group_step the_tag) sets groups).1 →
     x ∈ sets.1
     ∨ ∃ g e, (x, g) ∈ groups ∧ e ∈ g ∧ tag e = the_tag ∧ exists_ e = true)
  ∧ (x ∈ (foldl (tag_group_step the_tag) sets groups).2 →
       x ∈ sets.2
       ∨ ∃ g e, (x, g) ∈ groups ∧ e ∈ g ∧ tag e = the_tag ∧ exists_ e = false).
Proof.
  revert sets. induction groups as [|[k g] gs IH]; intros sets; cbn [foldl];
    [by split; left|].
  destruct (IH (tag_group_step the_tag sets (k, g))) as [IH1 IH2].
  destruct (tag_group_step_sound sets k g x) as [S1 S2].
  split; intros Hx.
  - destruct (IH1 Hx) as [H|(g' & e & Hg & He)].
    + destruct (S1 H) as [?|(-> & e & He)]; [by left|]. right.
      exists g, e. split; [apply list_elem_of_here|done].
    + right. exists g', e. split; [by apply list_elem_of_further|done].
  - destruct (IH2 Hx) as [H|(g' & e & Hg & He)].
    + destruct (S2 H) as [?|(-> & e & He)]; [by left|]. right.
      exists g, e. split; [apply list_elem_of_here|done].
    + right. exists g', e. split; [by apply list_elem_of_further|done].
Qed.

End TagSoundness.

(** X1.  The tag resolution reports only changes it has seen: an image id in
    the tagged set has an event in the batch that adds the tag to it, and an
    image id in the untagged set has an event that removes the tag from
    it. *)
Theorem extract_ami_ids_reports_only_seen_changes
    (ami_tag_events : list CloudTrailImageTagEvent) (the_tag ami : string) :
  (ami ∈ (_extract_ami_ids_by_tag_change ami_tag_events the_tag).1 →
     ∃ e, e ∈ ami_tag_events ∧ ec2_ami_id e = ami ∧ tag e = the_tag
          ∧ exists_ e = true)
  ∧ (ami ∈ (_extract_ami_ids_by_tag_change ami_tag_events the_tag).2 →
       ∃ e, e ∈ ami_tag_events ∧ ec2_ami_id e = ami ∧ tag e = the_tag
            ∧ exists_ e = false).
Proof.
  unfold _extract_ami_ids_by_tag_change.
  destruct (tag_groups_sound the_tag (groupby ec2_ami_id ami_tag_events) (∅, ∅) ami)
    as [S1 S2].
  split; intros Hx.
  - destruct (S1 Hx) as [H|(g & e & Hg & He & Ht & Hex)]; [set_solver|].
    destruct (groupby_sound ec2_ami_id _ _ _ _ Hg He) as [? ?]. by exists e.
  - destruct (S2 Hx) as [H|(g & e & Hg & He & Ht & Hex)]; [set_solver|].
    destruct (groupby_sound ec2_ami_id _ _ _ _ Hg He) as [? ?]. by exists e.
Qed.

Lemma extract_ami_ids_reports_only_seen_changes_witness :
  ∃ e, e ∈ Examples.contiguous_events "rhel" ∧ ec2_ami_id e = "ami-a"
       ∧ tag e = "rhel" ∧ exists_ e = false.
Proof.
  apply (proj2 (extract_ami_ids_reports_only_seen_changes
                  (Examples.contiguous_events "rhel") "rhel" "ami-a")).
  compute_done.
Defined.

Section TagContiguous.
Implicit Types (sets : gset string * gset string) (e : CloudTrailImageTagEvent).
Variable the_tag : string.

Lemma tag_event_step_other ami sets e x :
  x ≠ ami →
  (x ∈ (tag_event_step ami sets e).1 ↔ x ∈ sets.1)
  ∧ (x ∈ (tag_event_step ami sets e).2 ↔ x ∈ sets.2).
Proof.
  intros Hne. destruct sets as [t u]. unfold tag_event_step. simpl.
  repeat case_bool_decide; simpl; destruct (exists_ e); simpl; set_solver.
Qed.

Lemma tag_events_other ami (l : list CloudTrailImageTagEvent) sets x :
  x ≠ ami →
  (x ∈ (foldl (tag_event_step ami) sets l).1 ↔ x ∈ sets.1)
  ∧ (x ∈ (foldl (tag_event_step ami) sets l).2 ↔ x ∈ sets.2).
Proof.
  intros Hne. revert sets. induction l as [|e l IH]; intros sets; cbn [foldl]; [done|].
  destruct (IH (tag_event_step ami sets e)) as [-> ->].
  by apply tag_event_step_other.
Qed.

Lemma tag_groups_other groups sets x :
  x ∉ groups.*1 →
  (x ∈ (foldl (tag_group_step the_tag) sets groups).1 ↔ x ∈ sets.1)
  ∧ (x ∈ (foldl (tag_group_step the_tag) sets groups).2 ↔ x ∈ sets.2).
Proof.
  revert sets. induction groups as [|[k g] gs IH]; intros sets Hx; cbn [foldl]; [done|].
  rewrite fmap_cons in Hx. apply not_elem_of_cons in Hx as [Hne Hx].
  destruct (IH (tag_group_step the_tag sets (k, g)) Hx) as [-> ->].
  unfold tag_group_step. by apply tag_events_other.
Qed.

(** An image not yet classified is classified by the first event met. *)
Lemma tag_events_fresh_first ami e (l : list CloudTrailImageTagEvent) sets :
  ami ∉ sets.1 → ami ∉ sets.2 →
  foldl (tag_event_step ami) sets (e :: l)
  = if exists_ e then ({[ami]} ∪ sets.1, sets.2) else (sets.1, {[ami]} ∪ sets.2).
Proof.
  intros H1 H2. destruct sets as [t u]. cbn [foldl fst snd] in *.
  assert (tag_event_step ami (t, u) e
          = if exists_ e then ({[ami]} ∪ t, u) else (t, {[ami]} ∪ u)) as ->.
  { unfold tag_event_step. by rewrite !bool_decide_eq_true_2. }
  apply tag_events_stable. destruct (exists_ e); set_solver.
Qed.

Lemma filter_filter_tag (ami : string) (l : list CloudTrailImageTagEvent) :
  filterfalse (λ e, negb (bool_decide (tag e = the_tag)))
              (List.filter (λ e, bool_decide (ec2_ami_id e = ami)) l)
  = List.filter (λ e, bool_decide (ec2_ami_id e = ami) && bool_decide (tag e = the_tag))
                l.
Proof.
  unfold filterfalse. induction l as [|e l IH]; simpl; [done|].
  destruct (bool_decide (ec2_ami_id e = ami)); simpl.
  - rewrite negb_involutive. destruct (bool_decide (tag e = the_tag)); by rewrite IH.
  - done.
Qed.

End TagContiguous.

(** X2.  When the events of every image are next to each other in the batch
    (no image id comes back after another one), an image with at least one
    event for the tag is classified by the latest of them: it is in the
    tagged set exactly when that event adds the tag, and in the untagged set
    exactly when it removes it. *)
Theorem contiguous_batch_latest_event_wins
    (ami_tag_events earlier : list CloudTrailImageTagEvent)
    (latest : CloudTrailImageTagEvent) (the_tag ami : string) :
  NoDup (groupby ec2_ami_id ami_tag_events).*1 →
  sorted occurred_at
    (List.filter (λ e, bool_decide (ec2_ami_id e = ami) && bool_decide (tag e = the_tag))
                 ami_tag_events)
  = earlier ++ [latest] →
  (ami ∈ (_extract_ami_ids_by_tag_change ami_tag_events the_tag).1
   ↔ exists_ latest = true)
  ∧ (ami ∈ (_extract_ami_ids_by_tag_change ami_tag_events the_tag).2
     ↔ exists_ latest = false).
Proof.
  intros Hnd Hsorted. unfold _extract_ami_ids_by_tag_change.
  assert (latest ∈ ami_tag_events ∧ ec2_ami_id latest = ami) as [Hin Hami].
  { assert (latest ∈ earlier ++ [latest]) as H by set_solver.
    rewrite <- Hsorted, sorted_Permutation in H.
    apply list_elem_of_In, filter_In in H as [H Hb].
    apply andb_true_iff in Hb as [Hb _]. apply bool_decide_eq_true in Hb.
    split; [by apply list_elem_of_In|done]. }
  destruct (groupby_covers ec2_ami_id ami_tag_events latest Hin) as (g & Hg & _).
  rewrite Hami in Hg.
  pose proof (groupby_contiguous ec2_ami_id _ _ _ Hnd Hg) as Hgeq.
  apply list_elem_of_split in Hg as (G1 & G2 & HG).
  rewrite HG in Hnd |- *. rewrite fmap_app, fmap_cons in Hnd. simpl in Hnd.
  apply NoDup_app in Hnd as (_ & Hdisj & Hnd2).
  apply NoDup_cons in Hnd2 as [Hfresh2 _].
  assert (ami ∉ G1.*1) as Hfresh1.
  { intros H1. apply (Hdisj _ H1). apply list_elem_of_here. }
  rewrite foldl_app. cbn [foldl].
  set (s1 := foldl (tag_group_step the_tag) (∅, ∅) G1).
  destruct (tag_groups_other the_tag G1 (∅, ∅) ami Hfresh1) as [H11 H12].
  fold s1 in H11, H12.
  assert (ami ∉ s1.1) as Hn1 by (rewrite H11; set_solver).
  assert (ami ∉ s1.2) as Hn2 by (rewrite H12; set_solver).
  destruct (tag_groups_other the_tag G2 (tag_group_step the_tag s1 (ami, g)) ami Hfresh2)
    as [-> ->].
  unfold tag_group_step. rewrite Hgeq, filter_filter_tag, Hsorted.
  rewrite reverse_app. change (reverse [latest]) with [latest]. simpl app.
  rewrite tag_events_fresh_first by done.
  destruct (exists_ latest); simpl; set_solver.
Qed.

Lemma contiguous_batch_latest_event_wins_witness :
  ("ami-a" ∈ (_extract_ami_ids_by_tag_change
                (Examples.contiguous_events "rhel") "rhel").1
   ↔ exists_ (Scenario.tag_event 3 "ami-a" "rhel" false) = true)
  ∧ ("ami-a" ∈ (_extract_ami_ids_by_tag_change
                  (Examples.contiguous_events "rhel") "rhel").2
     ↔ exists_ (Scenario.tag_event 3 "ami-a" "rhel" false) = false).
Proof.
  apply (contiguous_batch_latest_event_wins
           (Examples.contiguous_events "rhel")
           [Scenario.tag_event 1 "ami-a" "rhel" true]
           (Scenario.tag_event 3 "ami-a" "rhel" false) "rhel" "ami-a").
  - compute_done.
  - vm_compute. reflexivity.
Defined.

(** ** The dispatcher as a whole: [run_inspection_cluster] *)

Section Dispatcher.
Import Dispatch.

Lemma relevant_loop_frame (messages relevant_messages : list Message) (w : World) :
  same_provider_side w (relevant_loop messages relevant_messages w).2.
Proof.
  revert relevant_messages w. induction messages as [|m rest IH]; intros rel w.
  - by repeat split.
  - cbn [relevant_loop]. unfold bind at 1, gets at 1.
    destruct (images w !! ami_id m) as [[flag [mi|]]|].
    + unfold bind at 1, modify at 1.
      destruct (IH (rel ++ [m]) (set_images
        <[ami_id m := mkAwsMachineImage flag (Some (with_status INSPECTING mi))]> w))
        as (?&?&?&?&?&?). by repeat split.
    + unfold bind at 1, logger at 1, modify at 1.
      destruct (IH rel (add_log (LWarning,
        "Skipping inspection because we do not have a MachineImage", ami_id m) w))
        as (?&?&?&?&?&?). by repeat split.
    + unfold bind at 1, logger at 1, modify at 1.
      destruct (IH rel (add_log (LWarning,
        "Skipping inspection because we do not have an AwsMachineImage", ami_id m) w))
        as (?&?&?&?&?&?). by repeat split.
Qed.

Lemma relevant_loop_all_skipped (messages relevant_messages : list Message) (w : World) :
  (∀ m, m ∈ messages → status_of (images w) (ami_id m) = None) →
  ∃ w', relevant_loop messages relevant_messages w = (Ok relevant_messages, w')
        ∧ images w' = images w.
Proof.
  revert relevant_messages w. induction messages as [|m rest IH]; intros rel w Hall.
  - by exists w.
  - cbn [relevant_loop]. unfold bind at 1, gets at 1.
    pose proof (Hall m (list_elem_of_here _ _)) as Hm. unfold status_of in Hm.
    assert (∀ m0, m0 ∈ rest → status_of (images w) (ami_id m0) = None) as Hrest.
    { intros m0 H0. apply Hall. by apply list_elem_of_further. }
    destruct (images w !! ami_id m) as [[flag [mi|]]|]; [done| |].
    + unfold bind at 1, logger at 1, modify at 1.
      match goal with
      | |- context [relevant_loop rest rel ?w1] =>
          destruct (IH rel w1 Hrest) as (w' & Hr & Hi)
      end.
      rewrite Hr. exists w'. split; [done|exact Hi].
    + unfold bind at 1, logger at 1, modify at 1.
      match goal with
      | |- context [relevant_loop rest rel ?w1] =>
          destruct (IH rel w1 Hrest) as (w' & Hr & Hi)
      end.
      rewrite Hr. exists w'. split; [done|exact Hi].
Qed.

(** X3.  When none of the messages names a stored image (each one lacks its
    AwsMachineImage row or its MachineImage), the dispatcher succeeds without
    touching the cluster: it schedules the scale-down of the cluster, sends
    no request to the provider, and leaves images and volumes as they
    were. *)
Theorem run_inspection_cluster_nothing_relevant
    (c : Cluster) (messages : list Message) (cloud : string) (w : World) :
  (∀ m, m ∈ messages → status_of (images w) (ami_id m) = None) →
  ∃ w',
    run_inspection_cluster c messages cloud w = (Ok tt, w')
    ∧ delayed w' = delayed w ++ [scale_down_cluster_task]
    ∧ calls w' = calls w
    ∧ images w' = images w
    ∧ volumes w' = volumes w.
Proof.
  intros Hall. unfold run_inspection_cluster. unfold bind at 1.
  pose proof (relevant_loop_frame messages [] w) as Hframe.
  destruct (relevant_loop_all_skipped messages [] w Hall) as (w1 & Hrun & Himg).
  rewrite Hrun in Hframe |- *. destruct Hframe as (?&?&Hv&?&Hd&Hc). simpl in *.
  unfold delay, modify. eexists. split; [done|]. simpl.
  rewrite Hd, Hc, Himg, Hv. done.
Qed.

Lemma run_inspection_cluster_nothing_relevant_witness :
  ∃ w',
    run_inspection_cluster Scenario.healthy_cluster [mkMessage "ami-9" "vol-9"]
                           "aws" Scenario.inspected_world = (Ok tt, w')
    ∧ delayed w' = delayed Scenario.inspected_world ++ [scale_down_cluster_task]
    ∧ calls w' = calls Scenario.inspected_world
    ∧ images w' = images Scenario.inspected_world
    ∧ volumes w' = volumes Scenario.inspected_world.
Proof.
  apply (run_inspection_cluster_nothing_relevant
           Scenario.healthy_cluster [mkMessage "ami-9" "vol-9"] "aws"
           Scenario.inspected_world).
  intros m Hm. apply list_elem_of_singleton in Hm. rewrite Hm. reflexivity.
Defined.

(** The first loop seen from the caller: what it returns and leaves. *)
Lemma relevant_loop_result (messages : list Message) (w : World) :
  ∃ w1,
    relevant_loop messages [] w
    = (Ok (List.filter
             (λ m, bool_decide (is_Some (status_of (images w) (ami_id m)))) messages),
       w1)
    ∧ same_provider_side w w1
    ∧ ∀ id, status_of (images w1) id
            = if bool_decide (id ∈ ami_id <$> messages)
              then (λ _, INSPECTING) <$> status_of (images w) id
              else status_of (images w) id.
Proof.
  destruct (relevant_loop_spec messages [] w) as (w1 & Hrun & Hst).
  pose proof (relevant_loop_frame messages [] w) as Hframe.
  rewrite Hrun in Hframe. exists w1. by rewrite Hrun.
Qed.

Lemma filter_keeps {A} (f : A → bool) (l : list A) (x : A) :
  x ∈ l → f x = true → List.filter f l ≠ [].
Proof.
  intros Hx Hf Hnil.
  assert (x ∈ List.filter f l) as H.
  { apply list_elem_of_In, filter_In. split; [by apply list_elem_of_In|done]. }
  rewrite Hnil in H. by apply elem_of_nil in H.
Qed.

(** X4.  With at least one message naming a stored image, the dispatcher
    insists on exactly one container instance: with none it raises
    AwsECSInstanceNotReady, with more than one AwsTooManyECSInstances.  In
    both cases the error comes after the first loop: no request has been
    sent and nothing scheduled, yet the image is already saved as
    INSPECTING. *)
Theorem run_inspection_cluster_requires_single_host
    (c : Cluster) (messages : list Message) (cloud : string) (w : World)
    (m : Message) (s : Status) :
  m ∈ messages →
  status_of (images w) (ami_id m) = Some s →
  length (containerInstanceArns c) ≠ 1 →
  ∃ w',
    run_inspection_cluster c messages cloud w
    = (Raise (if bool_decide (length (containerInstanceArns c) = 0)
              then AwsECSInstanceNotReady else AwsTooManyECSInstances), w')
    ∧ calls w' = calls w
    ∧ delayed w' = delayed w
    ∧ status_of (images w') (ami_id m) = Some INSPECTING.
Proof.
  intros Hin Hs Hlen. unfold run_inspection_cluster. unfold bind at 1.
  destruct (relevant_loop_result messages w) as (w1 & -> & Hframe & Hst).
  destruct Hframe as (_&_&_&_&Hd&Hc).
  rewrite bool_decide_eq_false_2.
  2:{ apply (filter_keeps _ _ m Hin). rewrite Hs. by apply bool_decide_eq_true_2. }
  assert (status_of (images w1) (ami_id m) = Some INSPECTING) as Hm.
  { rewrite Hst, Hs. rewrite bool_decide_eq_true_2; [done|].
    by apply list_elem_of_fmap_2. }
  destruct (containerInstanceArns c) as [|a [|b l]]; simpl in *; [|done|].
  - unfold raise. by exists w1.
  - unfold raise. by exists w1.
Qed.

Lemma run_inspection_cluster_requires_single_host_witness :
  ∃ w',
    run_inspection_cluster Examples.empty_cluster [mkMessage "ami-1" "vol-1"]
                           "aws" Scenario.inspected_world
    = (Raise (if bool_decide (length (containerInstanceArns Examples.empty_cluster) = 0)
              then AwsECSInstanceNotReady else AwsTooManyECSInstances), w')
    ∧ calls w' = calls Scenario.inspected_world
    ∧ delayed w' = delayed Scenario.inspected_world
    ∧ status_of (images w') (ami_id (mkMessage "ami-1" "vol-1")) = Some INSPECTING.
Proof.
  apply (run_inspection_cluster_requires_single_host
           Examples.empty_cluster [mkMessage "ami-1" "vol-1"] "aws"
           Scenario.inspected_world (mkMessage "ami-1" "vol-1") INSPECTED).
  - apply list_elem_of_here.
  - reflexivity.
  - simpl. lia.
Defined.

(** X5.  With one container instance whose EC2 instance is not running, the
    dispatcher raises AwsECSInstanceNotReady before any volume is attached:
    no request is sent, nothing is scheduled, the volumes are kept. *)
Theorem run_inspection_cluster_requires_running_host
    (c : Cluster) (messages : list Message) (cloud arn : string) (w : World)
    (m : Message) (s : Status) :
  m ∈ messages →
  status_of (images w) (ami_id m) = Some s →
  containerInstanceArns c = [arn] →
  is_running c (ec2InstanceId c arn) = false →
  ∃ w',
    run_inspection_cluster c messages cloud w = (Raise AwsECSInstanceNotReady, w')
    ∧ calls w' = calls w
    ∧ delayed w' = delayed w
    ∧ volumes w' = volumes w.
Proof.
  intros Hin Hs Harn Hrun. unfold run_inspection_cluster. unfold bind at 1.
  destruct (relevant_loop_result messages w) as (w1 & -> & Hframe & Hst).
  destruct Hframe as (_&_&Hv&_&Hd&Hc).
  rewrite bool_decide_eq_false_2.
  2:{ apply (filter_keeps _ _ m Hin). rewrite Hs. by apply bool_decide_eq_true_2. }
  rewrite Harn, Hrun. simpl. unfold bind, logger, modify, raise.
  eexists. split; [done|]. by simpl.
Qed.

Lemma run_inspection_cluster_requires_running_host_witness :
  ∃ w',
    run_inspection_cluster Examples.stopped_cluster [mkMessage "ami-1" "vol-1"]
                           "aws" Scenario.inspected_world
    = (Raise AwsECSInstanceNotReady, w')
    ∧ calls w' = calls Scenario.inspected_world
    ∧ delayed w' = delayed Scenario.inspected_world
    ∧ volumes w' = volumes Scenario.inspected_world.
Proof.
  apply (run_inspection_cluster_requires_running_host
           Examples.stopped_cluster [mkMessage "ami-1" "vol-1"] "aws"
           "arn:container-instance/1" Scenario.inspected_world
           (mkMessage "ami-1" "vol-1") INSPECTED).
  - apply list_elem_of_here.
  - reflexivity.
  - reflexivity.
  - reflexivity.
Defined.

Lemma scan_targets_has_flag (c : Cluster) (index : nat) (messages : list Message) :
  messages ≠ [] → "-t" ∈ scan_targets c index messages.
Proof. destruct messages; [done|]. intros _. simpl. apply list_elem_of_here. Qed.

Lemma attach_loop_all_attached (c : Cluster) (ec2_instance_id : string)
    (messages : list Message) (index : nat) (task_command : list string) (w : World) :
  (∀ i m, messages !! i = Some m →
     attach_to_instance c (volume_id m) (generate_device_name c (index + i))
                        ec2_instance_id = None) →
  ∃ w',
    attach_loop c ec2_instance_id index messages task_command w
    = (Ok (task_command ++ scan_targets c index messages), w')
    ∧ calls w' = calls w ++ attach_calls c ec2_instance_id index messages
    ∧ images w' = images w ∧ volumes w' = volumes w ∧ delayed w' = delayed w.
Proof.
  revert index task_command w.
  induction messages as [|m rest IH]; intros index cmd w Hall.
  - exists w. simpl. unfold ret. by rewrite !app_nil_r.
  - cbn [attach_loop]. unfold bind at 1, logger at 1, modify at 1.
    pose proof (Hall 0 m eq_refl) as H0. rewrite Nat.add_0_r in H0. rewrite H0.
    unfold bind at 1, call at 1, modify at 1.
    unfold bind at 1, logger at 1, modify at 1.
    unfold bind at 1, call at 1, modify at 1.
    match goal with
    | |- context [attach_loop c ec2_instance_id (S index) rest ?cmd1 ?w1] =>
        destruct (IH (S index) cmd1 w1) as (w' & -> & Hc & Hi & Hv & Hd)
    end.
    { intros i m' Hi. replace (S index + i) with (index + S i) by lia.
      by apply Hall. }
    exists w'. simpl in *. rewrite Hc, Hi, Hv, Hd.
    by rewrite <- !app_assoc.
Qed.

(** X6.  On a batch whose images are all stored, with one running host and
    every attach accepted, the dispatcher attaches each volume at the device
    of its position and marks it delete-on-termination, then registers and
    runs one scan task whose command is [-c <cloud>], [--debug] when set,
    and [-t <image id> <device>] for each message in order; nothing else is
    requested, no volume is deleted and every image is INSPECTING. *)
Theorem run_inspection_cluster_launches_one_scan
    (c : Cluster) (messages : list Message) (cloud arn : string) (w : World) :
  messages ≠ [] →
  (∀ m, m ∈ messages → is_Some (status_of (images w) (ami_id m))) →
  containerInstanceArns c = [arn] →
  is_running c (ec2InstanceId c arn) = true →
  (∀ i m, messages !! i = Some m →
     attach_to_instance c (volume_id m) (generate_device_name c i)
                        (ec2InstanceId c arn) = None) →
  ∃ w',
    run_inspection_cluster c messages cloud w = (Ok tt, w')
    ∧ calls w'
      = calls w ++ attach_calls c (ec2InstanceId c arn) 0 messages
        ++ [RegisterTaskDefinition
              (["-c"; cloud] ++ (if HOUNDIGRADE_DEBUG c then ["--debug"] else [])
               ++ scan_targets c 0 messages);
            RunTask
              (["-c"; cloud] ++ (if HOUNDIGRADE_DEBUG c then ["--debug"] else [])
               ++ scan_targets c 0 messages)]
    ∧ delayed w' = delayed w
    ∧ volumes w' = volumes w
    ∧ ∀ m, m ∈ messages → status_of (images w') (ami_id m) = Some INSPECTING.
Proof.
  intros Hne Hall Harn Hrun Hattach. unfold run_inspection_cluster. unfold bind at 1.
  destruct (relevant_loop_result messages w) as (w1 & -> & Hframe & Hst).
  destruct Hframe as (_&_&Hv&_&Hd&Hc).
  assert (List.filter
            (λ m, bool_decide (is_Some (status_of (images w) (ami_id m)))) messages
          = messages) as ->.
  { clear -Hall. induction messages as [|m r IH]; [done|]. simpl.
    rewrite bool_decide_eq_true_2 by (apply Hall, list_elem_of_here).
    f_equal. apply IH. intros m0 H0. apply Hall. by apply list_elem_of_further. }
  rewrite bool_decide_eq_false_2 by done.
  rewrite Harn, Hrun. cbn [negb].
  unfold bind at 1, logger at 1, modify at 1.
  unfold bind at 1.
  match goal with
  | |- context [attach_loop c _ 0 messages ?cmd1 ?w2] =>
      destruct (attach_loop_all_attached c (ec2InstanceId c arn) messages 0 cmd1 w2)
        as (w3 & -> & Hc3 & Hi3 & Hv3 & Hd3); [exact Hattach|]
  end.
  rewrite bool_decide_eq_true_2.
  2:{ apply elem_of_app. right. by apply scan_targets_has_flag. }
  cbn [negb]. unfold bind, call, modify. eexists. split; [done|]. simpl in *.
  rewrite Hc3, Hc, Hd3, Hd, Hv3, Hv, Hi3.
  split; [|split; [done|split; [done|]]].
  - destruct (HOUNDIGRADE_DEBUG c); simpl; by rewrite <- !app_assoc.
  - intros m Hm. rewrite Hst. rewrite bool_decide_eq_true_2 by (by apply list_elem_of_fmap_2).
    destruct (Hall m Hm) as [s ->]. done.
Qed.

Lemma run_inspection_cluster_launches_one_scan_witness :
  ∃ w',
    run_inspection_cluster Scenario.healthy_cluster [mkMessage "ami-1" "vol-1"]
                           "aws" Scenario.inspected_world = (Ok tt, w')
    ∧ calls w'
      = calls Scenario.inspected_world
        ++ attach_calls Scenario.healthy_cluster
             (ec2InstanceId Scenario.healthy_cluster "arn:container-instance/1") 0
             [mkMessage "ami-1" "vol-1"]
        ++ [RegisterTaskDefinition
              (["-c"; "aws"]
               ++ (if HOUNDIGRADE_DEBUG Scenario.healthy_cluster
                   then ["--debug"] else [])
               ++ scan_targets Scenario.healthy_cluster 0 [mkMessage "ami-1" "vol-1"]);
            RunTask
              (["-c"; "aws"]
               ++ (if HOUNDIGRADE_DEBUG Scenario.healthy_cluster
                   then ["--debug"] else [])
               ++ scan_targets Scenario.healthy_cluster 0 [mkMessage "ami-1" "vol-1"])]
    ∧ delayed w' = delayed Scenario.inspected_world
    ∧ volumes w' = volumes Scenario.inspected_world
    ∧ ∀ m, m ∈ [mkMessage "ami-1" "vol-1"] →
           status_of (images w') (ami_id m) = Some INSPECTING.
Proof.
  apply (run_inspection_cluster_launches_one_scan
           Scenario.healthy_cluster [mkMessage "ami-1" "vol-1"] "aws"
           "arn:container-instance/1" Scenario.inspected_world).
  - discriminate.
  - intros m Hm. apply list_elem_of_singleton in Hm. rewrite Hm.
    exists INSPECTED. reflexivity.
  - reflexivity.
  - reflexivity.
  - intros i m _. reflexivity.
Defined.

Lemma attach_loop_all_refused (c : Cluster) (ec2_instance_id : string)
    (messages : list Message) (index : nat) (task_command : list string) (w : World) :
  (∀ v d i, is_Some (attach_to_instance c v d i)) →
  ∃ r w' deleted,
    attach_loop c ec2_instance_id index messages task_command w = (r, w')
    ∧ (∀ cmd, r = Ok cmd → cmd = task_command)
    ∧ calls w' = calls w ++ (DeleteVolume <$> deleted)
    ∧ delayed w' = delayed w.
Proof.
  intros Hrefused. revert index w.
  induction messages as [|m rest IH]; intros index w.
  - exists (Ok task_command), w, []. simpl. unfold ret. rewrite app_nil_r.
    split; [done|]. split; [by intros ? [= <-]|done].
  - cbn [attach_loop]. unfold bind at 1, logger at 1, modify at 1.
    destruct (Hrefused (volume_id m) (generate_device_name c index) ec2_instance_id)
      as [e ->].
    destruct e as [code message| | | | | |];
      try (eexists _, _, []; split; [reflexivity|]; split; [done|];
           simpl; by rewrite app_nil_r).
    unfold bind at 1.
    set (w0 := add_log _ w).
    assert (∃ b w1, (if tuple_in code ["OptInRequired"; "IncorrectInstanceState"]
                        && str_in "marketplace" (lower c message)
                     then logger LInfo "Found a marketplace AMI when trying to copy volume"
                            (ami_id m) ;;
                          update_aws_image_status_inspected (ami_id m) false None
                     else logger LError "Encountered an issue when trying to attach volume"
                            (volume_id m) ;;
                          update_aws_image_status_error (ami_id m)) w0 = (Ok b, w1)
                    ∧ calls w1 = calls w ∧ delayed w1 = delayed w
                    ∧ volumes w1 = volumes w) as (b & w1 & -> & Hc1 & Hd1 & Hv1).
    { destruct (_ && _); unfold bind, logger, modify,
        update_aws_image_status_inspected, update_aws_image_status_error; simpl;
        destruct (images w !! ami_id m) as [[flag [mi|]]|]; by eexists _, _. }
    unfold bind at 1.
    assert (∃ w2, (if negb b
                   then logger LWarning
                          "Failed to save updated status to AwsMachineImage" (ami_id m)
                   else ret tt) w1 = (Ok tt, w2)
                  ∧ calls w2 = calls w ∧ delayed w2 = delayed w
                  ∧ volumes w2 = volumes w) as (w2 & -> & Hc2 & Hd2 & Hv2).
    { destruct b; unfold logger, modify, ret; simpl; by eexists. }
    unfold bind at 1. unfold volume_delete at 1.
    destruct (delete_volume c index (volume_id m)) as [e|].
    + eexists _, w2, []. split; [done|]. split; [done|].
      simpl. by rewrite app_nil_r.
    + unfold bind at 1, call at 1, modify at 1. unfold modify at 1.
      match goal with
      | |- context [attach_loop c ec2_instance_id (S index) rest task_command ?w3] =>
          destruct (IH (S index) w3) as (r & w' & deleted & -> & Hcmd & Hc & Hd)
      end.
      exists r, w', (volume_id m :: deleted). split; [done|]. split; [done|].
      simpl in *. rewrite Hc, Hd, Hc2, Hd2. by rewrite <- app_assoc.
Qed.

(** X7.  When the provider refuses every attach, no scan is launched: the
    only requests the dispatcher sends are deletions of volumes (those of
    the refused messages); no task definition is registered and no task is
    run.  The cloud name must not itself be the flag [-t], which the
    dispatcher searches for in the command. *)
Theorem run_inspection_cluster_no_scan_without_target
    (c : Cluster) (messages : list Message) (cloud : string) (w : World) :
  cloud ≠ "-t" →
  (∀ v d i, is_Some (attach_to_instance c v d i)) →
  ∃ deleted,
    calls (run_inspection_cluster c messages cloud w).2
    = calls w ++ (DeleteVolume <$> deleted).
Proof.
  intros Hcloud Hrefused. unfold run_inspection_cluster. unfold bind at 1.
  destruct (relevant_loop_result messages w) as (w1 & -> & Hframe & Hst).
  destruct Hframe as (_&_&Hv&_&Hd&Hc).
  case_bool_decide.
  - exists []. simpl. by rewrite app_nil_r.
  - destruct (containerInstanceArns c) as [|arn [|b l]].
    + exists []. simpl. by rewrite app_nil_r.
    + destruct (is_running c (ec2InstanceId c arn)); cbn [negb].
      * unfold bind at 1, logger at 1, modify at 1. unfold bind at 1.
        match goal with
        | |- context [attach_loop c ?inst 0 ?msgs ?cmd1 ?w2] =>
            destruct (attach_loop_all_refused c inst msgs 0 cmd1 w2 Hrefused)
              as (r & w3 & deleted & -> & Hcmd & Hc3 & Hd3)
        end.
        exists deleted. simpl in Hc3. rewrite Hc in Hc3.
        destruct r as [cmd|e]; [|done].
        rewrite (Hcmd cmd eq_refl).
        rewrite bool_decide_eq_false_2.
        { simpl. done. }
        destruct (HOUNDIGRADE_DEBUG c); simpl; set_solver.
      * exists []. simpl. by rewrite app_nil_r.
    + exists []. simpl. by rewrite app_nil_r.
Qed.

Lemma run_inspection_cluster_no_scan_without_target_witness :
  ∃ deleted,
    calls (run_inspection_cluster Scenario.marketplace_cluster
             [mkMessage "ami-1" "vol-1"; mkMessage "ami-2" "vol-2"] "aws"
             Scenario.waiting_world).2
    = calls Scenario.waiting_world ++ (DeleteVolume <$> deleted).
Proof.
  apply (run_inspection_cluster_no_scan_without_target
           Scenario.marketplace_cluster
           [mkMessage "ami-1" "vol-1"; mkMessage "ami-2" "vol-2"] "aws"
           Scenario.waiting_world).
  - discriminate.
  - intros v d i. eexists. reflexivity.
Defined.

End Dispatcher.

(** ** The scaler and the volume follow-ups *)

(** X8.  The scaler loses messages in one situation only.  Whatever the
    state of the group and whatever the scale-up request raises, one of
    three things holds.  Nothing is dispatched and the queue holds the same
    messages as before (possibly in another order, the pulled ones being put
    back at the end).  Or one dispatcher task is scheduled with a batch, and
    the batch followed by what is left on the queue is the queue as it was.
    Or the scale-up request raised an exception that is not a ClientError:
    that exception is raised, nothing is dispatched, and the pulled batch,
    which was not empty, is gone from the queue. *)
Theorem scaler_loses_messages_only_on_uncaught_failure
    (batch_size : nat) (outcome : option exn) (w : World) :
  (delayed (scale_up_inspection_cluster batch_size outcome w).2 = delayed w
   ∧ queue (scale_up_inspection_cluster batch_size outcome w).2 ≡ₚ queue w)
  ∨ (∃ batch,
       delayed (scale_up_inspection_cluster batch_size outcome w).2
       = delayed w ++ [run_inspection_cluster_task batch]
       ∧ batch ++ queue (scale_up_inspection_cluster batch_size outcome w).2 = queue w)
  ∨ (∃ e,
       outcome = Some e
       ∧ (∀ code message, e ≠ ClientError code message)
       ∧ (scale_up_inspection_cluster batch_size outcome w).1 = Raise e
       ∧ delayed (scale_up_inspection_cluster batch_size outcome w).2 = delayed w
       ∧ take batch_size (queue w) ≠ []
       ∧ queue (scale_up_inspection_cluster batch_size outcome w).2
         = drop batch_size (queue w)).
Proof.
  destruct (scale_up_inspection_cluster batch_size outcome w) as [r w'] eqn:Hrun.
  simpl. revert Hrun.
  unfold scale_up_inspection_cluster. unfold bind at 1.
  destruct (decide (fully_at_zero (asg w))) as [Hz|Hz].
  - rewrite is_scaled_down_true by done. simpl.
    unfold bind at 1. unfold read_messages_from_queue at 1.
    pose proof (take_drop batch_size (queue w)) as Hq.
    destruct (take batch_size (queue w)) as [|m ms] eqn:Htake.
    + simpl. unfold logger, modify. intros [= <- <-]. left. simpl. split; [done|].
      simpl in Hq. by rewrite Hq.
    + simpl. unfold bind, reraising_ClientError, scale_up, bind, call, modify, raise.
      destruct outcome as [e|]; simpl.
      * destruct e as [code message| | | | | |]; simpl; intros [= <- <-]; simpl;
          try (right; right; eexists; by repeat split).
        left. split; [done|].
        etrans; [apply Permutation_app_comm|]. by rewrite Hq.
      * intros [= <- <-]. simpl. right. left. exists (m :: ms). by split.
  - rewrite is_scaled_down_false by done. simpl.
    unfold bind, logger, modify.
    destruct (log_instances_quiet (Instances (asg w))
                (add_log (LInfo, "Auto Scaling group is not scaled down.", "") w))
      as (w1 & -> & Hc & Hd & Hq & Ha & Hi).
    intros [= <- <-]. left. simpl in *. by rewrite Hd, Hq.
Qed.

(** X9.  [enqueue_ready_volume] puts the message (image id, volume id) on
    the queue only once the volume is available; in any other case it raises
    and leaves the world as it was, so that the retry finds the same
    situation. *)
Theorem enqueue_ready_volume_waits_for_volume
    (ami_id volume_id volume_region : string) (w : World) :
  (volumes w !! volume_id = Some available →
     enqueue_ready_volume ami_id volume_id volume_region w
     = (Ok tt, set_queue (λ q, q ++ [mkMessage ami_id volume_id]) w))
  ∧ (volumes w !! volume_id ≠ Some available →
       ∃ e, enqueue_ready_volume ami_id volume_id volume_region w = (Raise e, w)).
Proof.
  unfold enqueue_ready_volume, bind, get_volume, ret, check_volume_state,
    add_messages_to_queue, modify.
  split.
  - by intros ->.
  - intros Hne. destruct (volumes w !! volume_id) as [[]|]; try done; by eexists.
Qed.

Lemma enqueue_ready_volume_waits_for_volume_witness :
  enqueue_ready_volume "ami-1" "vol-1" "us-east-1" Scenario.waiting_world
  = (Ok tt, set_queue (λ q, q ++ [mkMessage "ami-1" "vol-1"]) Scenario.waiting_world).
Proof.
  apply (proj1 (enqueue_ready_volume_waits_for_volume
                  "ami-1" "vol-1" "us-east-1" Scenario.waiting_world)).
  reflexivity.
Defined.

(** X10.  The two tasks that follow the creation of a volume,
    [delete_snapshot] and [enqueue_ready_volume], do not interfere: run in
    either order they leave the same world, and each returns or raises what
    it would have without the other. *)
Theorem volume_follow_ups_commute
    (ami_id snapshot_copy_id volume_id volume_region : string) (w : World) :
  (enqueue_ready_volume ami_id volume_id volume_region
     (delete_snapshot snapshot_copy_id volume_id volume_region w).2).2
  = (delete_snapshot snapshot_copy_id volume_id volume_region
       (enqueue_ready_volume ami_id volume_id volume_region w).2).2
  ∧ (enqueue_ready_volume ami_id volume_id volume_region
       (delete_snapshot snapshot_copy_id volume_id volume_region w).2).1
    = (enqueue_ready_volume ami_id volume_id volume_region w).1
  ∧ (delete_snapshot snapshot_copy_id volume_id volume_region
       (enqueue_ready_volume ami_id volume_id volume_region w).2).1
    = (delete_snapshot snapshot_copy_id volume_id volume_region w).1.
Proof.
  unfold enqueue_ready_volume, delete_snapshot, bind, get_volume, ret,
    check_volume_state, add_messages_to_queue, snapshot_delete, logger, modify.
  simpl.
  destruct (volumes w !! volume_id) as [[]|] eqn:Hv;
    destruct (bool_decide (snapshot_copy_id ∈ snapshots w)) eqn:Hb;
    simpl; rewrite ?Hv, ?Hb; simpl; rewrite ?Hv, ?Hb; done.
Qed.

(** ** The snapshot stager: [copy_ami_snapshot] *)

Section Stager.
Import Staging StagingTasks.

Ltac run_stage :=
  unfold sbind, sret, sraise, lift, schedule, request, create_aws_machine_image_copy,
    gets, logger, modify; simpl.

(** X11.  When the image the task works for has no AwsMachineImage row any
    more (the reference image if one is given, the image itself otherwise),
    [copy_ami_snapshot] returns at once: nothing is scheduled, requested of
    the provider or recorded, and no image changes. *)
Theorem copy_ami_snapshot_skips_deleted_image
    (p : Provider) (arn ami_id snapshot_region : string)
    (reference_ami_id : option string) (st : Stage) :
  images (world st)
    !! (if truthy reference_ami_id then default "" reference_ami_id else ami_id)
  = None →
  ∃ st',
    copy_ami_snapshot p arn ami_id snapshot_region reference_ami_id st = (Done tt, st')
    ∧ scheduled st' = scheduled st
    ∧ requests st' = requests st
    ∧ image_copies st' = image_copies st
    ∧ images (world st') = images (world st)
    ∧ calls (world st') = calls (world st)
    ∧ delayed (world st') = delayed (world st).
Proof.
  intros Hgone. unfold copy_ami_snapshot. run_stage.
  destruct (truthy reference_ami_id); rewrite Hgone;
    rewrite bool_decide_eq_false_2 by (by intros [? ?]); simpl; by eexists.
Qed.

Lemma copy_ami_snapshot_skips_deleted_image_witness :
  ∃ st',
    copy_ami_snapshot (Examples.provider (inl Examples.own_snapshot))
      Examples.customer_arn "ami-9" "us-east-1" None Examples.fresh_stage
    = (Done tt, st')
    ∧ scheduled st' = scheduled Examples.fresh_stage
    ∧ requests st' = requests Examples.fresh_stage
    ∧ image_copies st' = image_copies Examples.fresh_stage
    ∧ images (world st') = images (world Examples.fresh_stage)
    ∧ calls (world st') = calls (world Examples.fresh_stage)
    ∧ delayed (world st') = delayed (world Examples.fresh_stage).
Proof.
  apply (copy_ami_snapshot_skips_deleted_image
           (Examples.provider (inl Examples.own_snapshot))
           Examples.customer_arn "ami-9" "us-east-1" None Examples.fresh_stage).
  reflexivity.
Defined.

(** X12.  An image whose snapshot is encrypted is saved as ERROR with
    [is_encrypted] set, and the staging stops there: no snapshot is copied,
    no ownership is granted and no further task is scheduled. *)
Theorem copy_ami_snapshot_rejects_encrypted_snapshot
    (p : Provider) (arn ami_id snapshot_region customer_snapshot_id : string)
    (ami : Ami) (customer_snapshot : Snapshot)
    (flag : bool) (image : MachineImage) (st : Stage) :
  images (world st) !! ami_id = Some (mkAwsMachineImage flag (Some image)) →
  get_ami p ami_id snapshot_region = Some ami →
  get_ami_snapshot_id p ami = Some customer_snapshot_id →
  customer_snapshot_id ≠ "" →
  get_snapshot p customer_snapshot_id snapshot_region = inl customer_snapshot →
  encrypted customer_snapshot = true →
  ∃ st',
    copy_ami_snapshot p arn ami_id snapshot_region None st = (Done tt, st')
    ∧ images (world st')
      = <[ami_id := mkAwsMachineImage flag
            (Some (with_status ERROR (with_is_encrypted true image)))]>
          (images (world st))
    ∧ scheduled st' = scheduled st
    ∧ requests st' = requests st
    ∧ image_copies st' = image_copies st.
Proof.
  intros Himg Hami Hsid Hne Hsnap Henc. unfold copy_ami_snapshot. run_stage.
  rewrite Himg. rewrite bool_decide_eq_true_2 by eauto. simpl.
  rewrite Hami, Hsid.
  assert (truthy (Some customer_snapshot_id) = true) as ->
    by (by destruct customer_snapshot_id).
  simpl. rewrite Hsnap, Henc. unfold mark_encrypted. simpl. rewrite Himg.
  by eexists.
Qed.

Lemma copy_ami_snapshot_rejects_encrypted_snapshot_witness :
  ∃ st',
    copy_ami_snapshot (Examples.provider (inl Examples.encrypted_snapshot))
      Examples.customer_arn "ami-1" "us-east-1" None Examples.fresh_stage
    = (Done tt, st')
    ∧ images (world st')
      = <["ami-1" := mkAwsMachineImage false
            (Some (with_status ERROR
                     (with_is_encrypted true
                        (mkMachineImage PENDING None false false false))))]>
          (images (world Examples.fresh_stage))
    ∧ scheduled st' = scheduled Examples.fresh_stage
    ∧ requests st' = requests Examples.fresh_stage
    ∧ image_copies st' = image_copies Examples.fresh_stage.
Proof.
  apply (copy_ami_snapshot_rejects_encrypted_snapshot
           (Examples.provider (inl Examples.encrypted_snapshot))
           Examples.customer_arn "ami-1" "us-east-1" "snap-1"
           (mkAmi "ami-1" false) Examples.encrypted_snapshot
           false (mkMachineImage PENDING None false false false)
           Examples.fresh_stage).
  - reflexivity.
  - reflexivity.
  - reflexivity.
  - discriminate.
  - reflexivity.
  - reflexivity.
Defined.

(** X13.  When the snapshot belongs to another account than the session's
    and no reference image is given, nothing is copied here: the task hands
    over to [copy_ami_to_customer_account] for the same image and region and
    stops. *)
Theorem copy_ami_snapshot_defers_to_image_copy
    (p : Provider) (arn ami_id snapshot_region customer_snapshot_id : string)
    (ami : Ami) (customer_snapshot : Snapshot) (st : Stage) :
  is_Some (images (world st) !! ami_id) →
  get_ami p ami_id snapshot_region = Some ami →
  get_ami_snapshot_id p ami = Some customer_snapshot_id →
  customer_snapshot_id ≠ "" →
  get_snapshot p customer_snapshot_id snapshot_region = inl customer_snapshot →
  encrypted customer_snapshot = false →
  owner_id customer_snapshot ≠ get_session_account_id p arn →
  ∃ st',
    copy_ami_snapshot p arn ami_id snapshot_region None st = (Done tt, st')
    ∧ scheduled st'
      = scheduled st ++ [copy_ami_to_customer_account_task arn ami_id snapshot_region]
    ∧ requests st' = requests st
    ∧ image_copies st' = image_copies st
    ∧ images (world st') = images (world st).
Proof.
  intros Himg Hami Hsid Hne Hsnap Henc Howner. unfold copy_ami_snapshot. run_stage.
  rewrite bool_decide_eq_true_2 by done. simpl.
  rewrite Hami, Hsid.
  assert (truthy (Some customer_snapshot_id) = true) as ->
    by (by destruct customer_snapshot_id).
  simpl. rewrite Hsnap, Henc. rewrite bool_decide_eq_false_2 by done. simpl.
  by eexists.
Qed.

Lemma copy_ami_snapshot_defers_to_image_copy_witness :
  ∃ st',
    copy_ami_snapshot (Examples.provider (inl Examples.foreign_snapshot))
      Examples.customer_arn "ami-1" "us-east-1" None Examples.fresh_stage
    = (Done tt, st')
    ∧ scheduled st'
      = scheduled Examples.fresh_stage
        ++ [copy_ami_to_customer_account_task Examples.customer_arn "ami-1" "us-east-1"]
    ∧ requests st' = requests Examples.fresh_stage
    ∧ image_copies st' = image_copies Examples.fresh_stage
    ∧ images (world st') = images (world Examples.fresh_stage).
Proof.
  apply (copy_ami_snapshot_defers_to_image_copy
           (Examples.provider (inl Examples.foreign_snapshot))
           Examples.customer_arn "ami-1" "us-east-1" "snap-1"
           (mkAmi "ami-1" false) Examples.foreign_snapshot Examples.fresh_stage).
  - eexists. reflexivity.
  - reflexivity.
  - reflexivity.
  - discriminate.
  - reflexivity.
  - reflexivity.
  - discriminate.
Defined.

(** The full copy path, for either mode. *)
Lemma copy_ami_snapshot_copy_path
    (p : Provider) (arn ami_id snapshot_region customer_snapshot_id : string)
    (reference_ami_id : option string)
    (ami : Ami) (customer_snapshot : Snapshot) (st : Stage) :
  is_Some (images (world st)
             !! (if truthy reference_ami_id then default "" reference_ami_id
                 else ami_id)) →
  get_ami p ami_id snapshot_region = Some ami →
  get_ami_snapshot_id p ami = Some customer_snapshot_id →
  customer_snapshot_id ≠ "" →
  get_snapshot p customer_snapshot_id snapshot_region = inl customer_snapshot →
  encrypted customer_snapshot = false →
  owner_id customer_snapshot = get_session_account_id p arn
  ∨ reference_ami_id ≠ None →
  ∃ st',
    copy_ami_snapshot p arn ami_id snapshot_region reference_ami_id st = (Done tt, st')
    ∧ requests st'
      = requests st ++ [AddSnapshotOwnership (snapshot_id customer_snapshot);
                        CopySnapshot customer_snapshot_id snapshot_region]
    ∧ scheduled st'
      = scheduled st
        ++ [remove_snapshot_ownership_task arn customer_snapshot_id snapshot_region
              (copy_snapshot p customer_snapshot_id snapshot_region);
            create_volume_task (default ami_id reference_ami_id)
              (copy_snapshot p customer_snapshot_id snapshot_region)]
    ∧ image_copies st'
      = image_copies st
        ++ match reference_ami_id with
           | Some reference => [(ami_id, reference)]
           | None => []
           end
    ∧ images (world st') = images (world st).
Proof.
  intros Himg Hami Hsid Hne Hsnap Henc Hmode. unfold copy_ami_snapshot. run_stage.
  assert ((if truthy reference_ami_id
           then bool_decide (is_Some (images (world st) !! default "" reference_ami_id))
           else bool_decide (is_Some (images (world st) !! ami_id))) = true) as ->.
  { destruct (truthy reference_ami_id); by apply bool_decide_eq_true_2. }
  simpl. rewrite Hami, Hsid.
  assert (truthy (Some customer_snapshot_id) = true) as ->
    by (by destruct customer_snapshot_id).
  simpl. rewrite Hsnap, Henc.
  assert (negb (bool_decide (owner_id customer_snapshot = get_session_account_id p arn))
          && bool_decide (reference_ami_id = None) = false) as ->.
  { destruct Hmode as [Ho|Hr].
    - by rewrite bool_decide_eq_true_2.
    - rewrite (bool_decide_eq_false_2 (reference_ami_id = None)) by done.
      apply andb_false_r. }
  destruct reference_ami_id as [reference|]; simpl; eexists; split; try done;
    simpl; rewrite <- ?app_assoc, ?app_nil_r; done.
Qed.

(** X14.  Working on a copy of an image (a reference image is given), the
    task copies the snapshot whoever owns it, records the copy as a copy of
    the reference image, and passes the reference image, not the copy, on to
    [create_volume]: the results will be reported for the original. *)
Theorem copy_ami_snapshot_threads_reference_image
    (p : Provider) (arn ami_id snapshot_region customer_snapshot_id reference : string)
    (ami : Ami) (customer_snapshot : Snapshot) (st : Stage) :
  reference ≠ "" →
  is_Some (images (world st) !! reference) →
  get_ami p ami_id snapshot_region = Some ami →
  get_ami_snapshot_id p ami = Some customer_snapshot_id →
  customer_snapshot_id ≠ "" →
  get_snapshot p customer_snapshot_id snapshot_region = inl customer_snapshot →
  encrypted customer_snapshot = false →
  ∃ st',
    copy_ami_snapshot p arn ami_id snapshot_region (Some reference) st = (Done tt, st')
    ∧ scheduled st'
      = scheduled st
        ++ [remove_snapshot_ownership_task arn customer_snapshot_id snapshot_region
              (copy_snapshot p customer_snapshot_id snapshot_region);
            create_volume_task reference
              (copy_snapshot p customer_snapshot_id snapshot_region)]
    ∧ image_copies st' = image_copies st ++ [(ami_id, reference)]
    ∧ requests st'
      = requests st ++ [AddSnapshotOwnership (snapshot_id customer_snapshot);
                        CopySnapshot customer_snapshot_id snapshot_region].
Proof.
  intros Hne Himg Hami Hsid Hsne Hsnap Henc.
  destruct (copy_ami_snapshot_copy_path p arn ami_id snapshot_region
              customer_snapshot_id (Some reference) ami customer_snapshot st)
    as (st' & Hrun & Hreq & Hsch & Hcop & _); try done.
  - by destruct reference.
  - by right.
  - by exists st'.
Qed.

Lemma copy_ami_snapshot_threads_reference_image_witness :
  ∃ st',
    copy_ami_snapshot (Examples.provider (inl Examples.foreign_snapshot))
      Examples.customer_arn "ami-copy-1" "us-east-1" (Some "ami-1")
      Examples.fresh_stage
    = (Done tt, st')
    ∧ scheduled st'
      = scheduled Examples.fresh_stage
        ++ [remove_snapshot_ownership_task Examples.customer_arn "snap-1" "us-east-1"
              (copy_snapshot (Examples.provider (inl Examples.foreign_snapshot))
                             "snap-1" "us-east-1");
            create_volume_task "ami-1"
              (copy_snapshot (Examples.provider (inl Examples.foreign_snapshot))
                             "snap-1" "us-east-1")]
    ∧ image_copies st' = image_copies Examples.fresh_stage ++ [("ami-copy-1", "ami-1")]
    ∧ requests st'
      = requests Examples.fresh_stage
        ++ [AddSnapshotOwnership (snapshot_id Examples.foreign_snapshot);
            CopySnapshot "snap-1" "us-east-1"].
Proof.
  apply (copy_ami_snapshot_threads_reference_image
           (Examples.provider (inl Examples.foreign_snapshot))
           Examples.customer_arn "ami-copy-1" "us-east-1" "snap-1" "ami-1"
           (mkAmi "ami-copy-1" false) Examples.foreign_snapshot Examples.fresh_stage).
  - discriminate.
  - eexists. reflexivity.
  - reflexivity.
  - reflexivity.
  - discriminate.
  - reflexivity.
  - reflexivity.
Defined.

Lemma copy_ami_snapshot_with_no_refusal
    (p : Provider) (arn ami_id snapshot_region : string)
    (reference_ami_id : option string) (st : Stage) :
  copy_ami_snapshot_with_refusals (λ _, None) p arn ami_id snapshot_region
                                  reference_ami_id st
  = copy_ami_snapshot p arn ami_id snapshot_region reference_ami_id st.
Proof.
  unfold copy_ami_snapshot_with_refusals, copy_ami_snapshot, request_checked.
  run_stage. repeat case_match; done.
Qed.

(** X15.  Whatever is stored, whatever the provider answers to the lookups
    and whichever of the two requests it refuses, [copy_ami_snapshot] ends
    in one of three ways.  It copies nothing: no request is sent, no image
    copy is recorded and at most a [copy_ami_to_customer_account] for the
    same image is scheduled.  Or it asks for the ownership and the copy of
    one snapshot, which the provider reported as not encrypted, both are
    granted, and it schedules the removal of the ownership and the creation
    of a volume from the copy: a copy that was made is never left without
    its follow-ups.  Or one of the two requests raises: the task raises the
    same, nothing is scheduled or recorded, and when it was the copy that
    was refused the ownership already granted is left in place. *)
Theorem copy_ami_snapshot_never_orphans_a_copy
    (refused : StagingCall → option exn)
    (p : Provider) (arn ami_id snapshot_region : string)
    (reference_ami_id : option string) (st : Stage) :
  ∃ r st',
    copy_ami_snapshot_with_refusals refused p arn ami_id snapshot_region
                                    reference_ami_id st = (r, st')
    ∧ ((requests st' = requests st
        ∧ image_copies st' = image_copies st
        ∧ (scheduled st' = scheduled st
           ∨ scheduled st'
             = scheduled st
               ++ [copy_ami_to_customer_account_task arn ami_id snapshot_region]))
       ∨ ∃ customer_snapshot_id customer_snapshot,
           get_snapshot p customer_snapshot_id snapshot_region = inl customer_snapshot
           ∧ encrypted customer_snapshot = false
           ∧ ((r = Done tt
               ∧ refused (AddSnapshotOwnership (snapshot_id customer_snapshot)) = None
               ∧ refused (CopySnapshot customer_snapshot_id snapshot_region) = None
               ∧ requests st'
                 = requests st
                   ++ [AddSnapshotOwnership (snapshot_id customer_snapshot);
                       CopySnapshot customer_snapshot_id snapshot_region]
               ∧ scheduled st'
                 = scheduled st
                   ++ [remove_snapshot_ownership_task arn customer_snapshot_id
                         snapshot_region
                         (copy_snapshot p customer_snapshot_id snapshot_region);
                       create_volume_task (default ami_id reference_ami_id)
                         (copy_snapshot p customer_snapshot_id snapshot_region)])
              ∨ (∃ e,
                   r = Failed (Raised e)
                   ∧ scheduled st' = scheduled st
                   ∧ image_copies st' = image_copies st
                   ∧ ((refused (AddSnapshotOwnership (snapshot_id customer_snapshot))
                       = Some e
                       ∧ requests st'
                         = requests st
                           ++ [AddSnapshotOwnership (snapshot_id customer_snapshot)])
                      ∨ (refused (AddSnapshotOwnership (snapshot_id customer_snapshot))
                         = None
                         ∧ refused (CopySnapshot customer_snapshot_id snapshot_region)
                           = Some e
                         ∧ requests st'
                           = requests st
                             ++ [AddSnapshotOwnership (snapshot_id customer_snapshot);
                                 CopySnapshot customer_snapshot_id
                                              snapshot_region]))))).
Proof.
  destruct (copy_ami_snapshot_with_refusals refused p arn ami_id snapshot_region
              reference_ami_id st) as [r st'] eqn:Hrun.
  exists r, st'. split; [done|]. revert Hrun.
  unfold copy_ami_snapshot_with_refusals, request_checked. run_stage.
  destruct (if truthy reference_ami_id then _ else _); simpl.
  2:{ intros [= <- <-]. left. simpl. auto. }
  destruct (get_ami p ami_id snapshot_region) as [ami|]; simpl.
  2:{ destruct (update_aws_image_status_error _ _) as [[b|e] w1];
      intros [= <- <-]; left; simpl; auto. }
  destruct (truthy (get_ami_snapshot_id p ami)) eqn:Hsid; simpl.
  2:{ destruct (update_aws_image_status_error _ _) as [[b|e] w1];
      intros [= <- <-]; left; simpl; auto. }
  destruct (get_snapshot p _ snapshot_region) as [customer_snapshot|[code message]]
    eqn:Hsnap.
  2:{ case_bool_decide; intros [= <- <-]; left; simpl; auto. }
  destruct (encrypted customer_snapshot) eqn:Henc.
  { unfold mark_encrypted. simpl.
    destruct (images (world st) !! ami_id) as [[flag [image|]]|];
      intros [= <- <-]; left; simpl; auto. }
  simpl. destruct (_ && _); simpl.
  { intros [= <- <-]. left. simpl. auto. }
  intros Hrun.
  right. eexists _, customer_snapshot. split; [exact Hsnap|]. split; [done|].
  destruct (refused (AddSnapshotOwnership (snapshot_id customer_snapshot)))
    as [e|] eqn:Hgrant; simpl in Hrun.
  { revert Hrun. intros [= <- <-]. right. exists e. simpl.
    split; [done|]. split; [done|]. split; [done|]. by left. }
  destruct (refused (CopySnapshot _ snapshot_region)) as [e|] eqn:Hcopy;
    simpl in Hrun.
  { revert Hrun. intros [= <- <-]. right. exists e. simpl.
    split; [done|]. split; [done|]. split; [done|]. right.
    by rewrite <- app_assoc. }
  left. destruct reference_ami_id as [reference|]; simpl in Hrun;
    revert Hrun; intros [= <- <-]; simpl; rewrite <- ?app_assoc; simpl;
    by repeat split.
Qed.

(** X16.  When the provider answers the snapshot lookup with an error, the
    task treats InvalidSnapshot.NotFound as a possible marketplace image and
    hands over to [copy_ami_to_customer_account]; any other error is raised
    again, with nothing scheduled and the world as it was. *)
Theorem copy_ami_snapshot_on_snapshot_error
    (p : Provider) (arn ami_id snapshot_region customer_snapshot_id code message : string)
    (ami : Ami) (st : Stage) :
  is_Some (images (world st) !! ami_id) →
  get_ami p ami_id snapshot_region = Some ami →
  get_ami_snapshot_id p ami = Some customer_snapshot_id →
  customer_snapshot_id ≠ "" →
  get_snapshot p customer_snapshot_id snapshot_region = inr (code, message) →
  copy_ami_snapshot p arn ami_id snapshot_region None st
  = if bool_decide (code = "InvalidSnapshot.NotFound")
    then (Done tt,
          mkStage (world st)
                  (scheduled st
                   ++ [copy_ami_to_customer_account_task arn ami_id snapshot_region])
                  (requests st) (image_copies st))
    else (Failed (Raised (ClientError code message)), st).
Proof.
  intros Himg Hami Hsid Hne Hsnap. unfold copy_ami_snapshot. run_stage.
  rewrite bool_decide_eq_true_2 by done. simpl.
  rewrite Hami, Hsid.
  assert (truthy (Some customer_snapshot_id) = true) as ->
    by (by destruct customer_snapshot_id).
  simpl. rewrite Hsnap. case_bool_decide; by destruct st.
Qed.

Lemma copy_ami_snapshot_on_snapshot_error_witness :
  copy_ami_snapshot (Examples.provider (inr ("InvalidSnapshot.NotFound", "gone")))
    Examples.customer_arn "ami-1" "us-east-1" None Examples.fresh_stage
  = if bool_decide ("InvalidSnapshot.NotFound" = "InvalidSnapshot.NotFound")
    then (Done tt,
          mkStage (world Examples.fresh_stage)
                  (scheduled Examples.fresh_stage
                   ++ [copy_ami_to_customer_account_task
                         Examples.customer_arn "ami-1" "us-east-1"])
                  (requests Examples.fresh_stage) (image_copies Examples.fresh_stage))
    else (Failed (Raised (ClientError "InvalidSnapshot.NotFound" "gone")),
          Examples.fresh_stage).
Proof.
  apply (copy_ami_snapshot_on_snapshot_error
           (Examples.provider (inr ("InvalidSnapshot.NotFound", "gone")))
           Examples.customer_arn "ami-1" "us-east-1" "snap-1"
           "InvalidSnapshot.NotFound" "gone" (mkAmi "ami-1" false)
           Examples.fresh_stage).
  - eexists. reflexivity.
  - reflexivity.
  - reflexivity.
  - discriminate.
  - reflexivity.
Defined.

(** X17.  Working on a copy whose snapshot is encrypted, the task raises
    AwsMachineImage.DoesNotExist when the copy has no row of its own (rows
    of copies are only recorded after the snapshot has been copied): the
    encrypted branch looks up the image under the id of the copy.  Nothing
    is saved, and the reference image is not marked as encrypted. *)
Theorem copy_ami_snapshot_encrypted_copy_is_not_recorded
    (p : Provider) (arn ami_id snapshot_region customer_snapshot_id reference : string)
    (ami : Ami) (customer_snapshot : Snapshot) (st : Stage) :
  reference ≠ "" →
  is_Some (images (world st) !! reference) →
  images (world st) !! ami_id = None →
  get_ami p ami_id snapshot_region = Some ami →
  get_ami_snapshot_id p ami = Some customer_snapshot_id →
  customer_snapshot_id ≠ "" →
  get_snapshot p customer_snapshot_id snapshot_region = inl customer_snapshot →
  encrypted customer_snapshot = true →
  copy_ami_snapshot p arn ami_id snapshot_region (Some reference) st
  = (Failed (DoesNotExist "AwsMachineImage"), st).
Proof.
  intros Hne Href Hcopy Hami Hsid Hsne Hsnap Henc.
  destruct reference as [|a r]; [done|].
  unfold copy_ami_snapshot. run_stage.
  rewrite bool_decide_eq_true_2 by done. simpl.
  rewrite Hami, Hsid.
  assert (truthy (Some customer_snapshot_id) = true) as ->
    by (by destruct customer_snapshot_id).
  simpl. rewrite Hsnap, Henc. unfold mark_encrypted. simpl. rewrite Hcopy.
  by destruct st.
Qed.

Lemma copy_ami_snapshot_encrypted_copy_is_not_recorded_witness :
  copy_ami_snapshot (Examples.provider (inl Examples.encrypted_snapshot))
    Examples.customer_arn "ami-copy-1" "us-east-1" (Some "ami-1") Examples.fresh_stage
  = (Failed (DoesNotExist "AwsMachineImage"), Examples.fresh_stage).
Proof.
  apply (copy_ami_snapshot_encrypted_copy_is_not_recorded
           (Examples.provider (inl Examples.encrypted_snapshot))
           Examples.customer_arn "ami-copy-1" "us-east-1" "snap-1" "ami-1"
           (mkAmi "ami-copy-1" false) Examples.encrypted_snapshot
           Examples.fresh_stage).
  - discriminate.
  - eexists. reflexivity.
  - reflexivity.
  - reflexivity.
  - reflexivity.
  - discriminate.
  - reflexivity.
  - reflexivity.
Defined.

(** X18.  The image copy and the snapshot copy compose: when
    [copy_ami_to_customer_account] succeeds in copying a stored image, the
    [copy_ami_snapshot] it schedules for the copy, run with an unencrypted
    snapshot, records the copy against the original and schedules
    [create_volume] for the original image. *)
Theorem image_copy_then_snapshot_copy_targets_original
    (p : Provider) (copy_ami : string → string → string + string * string)
    (arn reference_ami_id snapshot_region new_ami_id customer_snapshot_id : string)
    (reference_ami new_ami : Ami) (customer_snapshot : Snapshot) (w : World) :
  reference_ami_id ≠ "" →
  is_Some (images w !! reference_ami_id) →
  get_ami p reference_ami_id snapshot_region = Some reference_ami →
  copy_ami (id reference_ami) snapshot_region = inl new_ami_id →
  get_ami p new_ami_id snapshot_region = Some new_ami →
  get_ami_snapshot_id p new_ami = Some customer_snapshot_id →
  customer_snapshot_id ≠ "" →
  get_snapshot p customer_snapshot_id snapshot_region = inl customer_snapshot →
  encrypted customer_snapshot = false →
  ∃ w1 st2,
    copy_ami_to_customer_account (get_ami p) copy_ami arn reference_ami_id
                                 snapshot_region w = (Ok tt, w1)
    ∧ delayed w1
      = delayed w ++ [copy_ami_snapshot_task arn new_ami_id snapshot_region
                        (Some reference_ami_id)]
    ∧ copy_ami_snapshot p arn new_ami_id snapshot_region (Some reference_ami_id)
                        (mkStage w1 [] [] []) = (Done tt, st2)
    ∧ scheduled st2
      = [remove_snapshot_ownership_task arn customer_snapshot_id snapshot_region
           (copy_snapshot p customer_snapshot_id snapshot_region);
         create_volume_task reference_ami_id
           (copy_snapshot p customer_snapshot_id snapshot_region)]
    ∧ image_copies st2 = [(new_ami_id, reference_ami_id)].
Proof.
  intros Hne Himg Hami Hcopy Hnew Hsid Hsne Hsnap Henc.
  assert (copy_ami_to_customer_account (get_ami p) copy_ami arn reference_ami_id
            snapshot_region w
          = (Ok tt, add_delayed (copy_ami_snapshot_task arn new_ami_id snapshot_region
                                   (Some reference_ami_id)) w)) as Hfirst.
  { unfold copy_ami_to_customer_account, bind, gets, delay, modify.
    rewrite bool_decide_eq_true_2 by done. simpl. by rewrite Hami, Hcopy. }
  destruct (copy_ami_snapshot_copy_path p arn new_ami_id snapshot_region
              customer_snapshot_id (Some reference_ami_id) new_ami customer_snapshot
              (mkStage (add_delayed (copy_ami_snapshot_task arn new_ami_id
                          snapshot_region (Some reference_ami_id)) w) [] [] []))
    as (st2 & Hrun & Hreq & Hsch & Hcop & _); try done.
  - by destruct reference_ami_id.
  - by right.
  - eexists _, st2. split; [exact Hfirst|]. split; [done|]. split; [exact Hrun|].
    by split.
Qed.

Lemma image_copy_then_snapshot_copy_targets_original_witness :
  ∃ w1 st2,
    copy_ami_to_customer_account
      (get_ami (Examples.provider (inl Examples.foreign_snapshot))) Examples.copy_ami
      Examples.customer_arn "ami-1" "us-east-1" Scenario.copy_gone_world
    = (Ok tt, w1)
    ∧ delayed w1
      = delayed Scenario.copy_gone_world
        ++ [copy_ami_snapshot_task Examples.customer_arn "ami-copy-1" "us-east-1"
              (Some "ami-1")]
    ∧ copy_ami_snapshot (Examples.provider (inl Examples.foreign_snapshot))
        Examples.customer_arn "ami-copy-1" "us-east-1" (Some "ami-1")
        (mkStage w1 [] [] [])
      = (Done tt, st2)
    ∧ scheduled st2
      = [remove_snapshot_ownership_task Examples.customer_arn "snap-1" "us-east-1"
           (copy_snapshot (Examples.provider (inl Examples.foreign_snapshot))
                          "snap-1" "us-east-1");
         create_volume_task "ami-1"
           (copy_snapshot (Examples.provider (inl Examples.foreign_snapshot))
                          "snap-1" "us-east-1")]
    ∧ image_copies st2 = [("ami-copy-1", "ami-1")].
Proof.
  apply (image_copy_then_snapshot_copy_targets_original
           (Examples.provider (inl Examples.foreign_snapshot)) Examples.copy_ami
           Examples.customer_arn "ami-1" "us-east-1" "ami-copy-1" "snap-1"
           (mkAmi "ami-1" false) (mkAmi "ami-copy-1" false)
           Examples.foreign_snapshot Scenario.copy_gone_world).
  - discriminate.
  - eexists. reflexivity.
  - reflexivity.
  - reflexivity.
  - reflexivity.
  - reflexivity.
  - discriminate.
  - reflexivity.
  - reflexivity.
Defined.

End Stager.

(** ** The audit-log reconciler's loop: [analyze_log] *)

Section Reconciler.
Import Feed.

Lemma list_difference_nil_r {A} `{EqDecision A} (l : list A) :
  list_difference l [] = l.
Proof.
  induction l as [|a l IH]; [done|]. simpl.
  destruct (decide_rel elem_of a []) as [Hin|_]; [by apply elem_of_nil in Hin|].
  by rewrite IH.
Qed.

Lemma list_difference_cons_r {A} `{EqDecision A} (l : list A) (m : A) (k : list A) :
  list_difference (list_difference l [m]) k = list_difference l (m :: k).
Proof.
  induction l as [|a l IH]; [done|]. simpl.
  destruct (decide_rel elem_of a [m]) as [Hin|Hnin];
    destruct (decide_rel elem_of a (m :: k)) as [Hin'|Hnin']; simpl.
  - done.
  - exfalso. apply Hnin'. apply list_elem_of_singleton in Hin as ->.
    apply list_elem_of_here.
  - destruct (decide_rel elem_of a k) as [Hk|Hk]; [done|].
    exfalso. apply elem_of_cons in Hin' as [->|?]; [|done].
    apply Hnin, list_elem_of_here.
  - destruct (decide_rel elem_of a k) as [Hk|Hk].
    + exfalso. apply Hnin'. by apply list_elem_of_further.
    + by rewrite IH.
Qed.

Section AnalyzeLog.
Context {X : Type} (process : FeedMessage → X → result bool * X).

Lemma analyze_loop_spec (messages successes failures : list FeedMessage)
    (fw : FeedWorld X) :
  ∃ ok bad fw',
    analyze_loop process messages successes failures fw
    = (successes ++ ok, failures ++ bad, fw')
    ∧ ok ++ bad ≡ₚ messages
    ∧ feed fw' = list_difference (feed fw) ok
    ∧ (∀ m, m ∈ ok → ∃ x, (process m x).1 = Ok true).
Proof.
  revert successes failures fw.
  induction messages as [|m rest IH]; intros successes failures fw.
  - exists [], [], fw. simpl. rewrite !app_nil_r. split; [done|]. split; [done|].
    split; [|by intros ? ?%elem_of_nil].
    by rewrite list_difference_nil_r.
  - cbn [analyze_loop].
    destruct (process m (processing fw)) as [[[|]|e] x] eqn:Hp.
    + match goal with
      | |- context [analyze_loop process rest ?s ?f ?fw1] =>
          destruct (IH s f fw1) as (ok & bad & fw' & -> & Hperm & Hfeed & Hok)
      end.
      exists (m :: ok), bad, fw'. rewrite <- app_assoc. split; [done|].
      split; [by rewrite <- Hperm|]. split.
      * rewrite Hfeed. simpl. apply list_difference_cons_r.
      * intros m' [->|Hm']%elem_of_cons; [|by apply Hok].
        exists (processing fw). by rewrite Hp.
    + match goal with
      | |- context [analyze_loop process rest ?s ?f ?fw1] =>
          destruct (IH s f fw1) as (ok & bad & fw' & -> & Hperm & Hfeed & Hok)
      end.
      exists ok, (m :: bad), fw'. rewrite <- app_assoc. split; [done|].
      split; [|by split].
      rewrite <- Hperm. by rewrite Permutation_middle.
    + match goal with
      | |- context [analyze_loop process rest ?s ?f ?fw1] =>
          destruct (IH s f fw1) as (ok & bad & fw' & -> & Hperm & Hfeed & Hok)
      end.
      exists ok, (m :: bad), fw'. rewrite <- app_assoc. split; [done|].
      split; [|by split].
      rewrite <- Hperm. by rewrite Permutation_middle.
Qed.

End AnalyzeLog.

(** X19.  [analyze_log] sorts every message it was given into exactly one of
    its two results, successes or failures, and acknowledges exactly the
    successes: the event queue afterwards is the queue before without the
    messages returned as successes. *)
Theorem analyze_log_acknowledges_exactly_the_successes {X : Type}
    (process : FeedMessage → X → result bool * X)
    (messages : list FeedMessage) (fw : FeedWorld X) :
  (analyze_log process messages fw).1.1 ++ (analyze_log process messages fw).1.2
  ≡ₚ messages
  ∧ feed (analyze_log process messages fw).2
    = list_difference (feed fw) (analyze_log process messages fw).1.1.
Proof.
  unfold analyze_log.
  destruct (analyze_loop_spec process messages [] [] fw)
    as (ok & bad & fw' & -> & Hperm & Hfeed & _).
  by simpl.
Qed.

(** X20.  A message whose processing never succeeds (it returns false or
    raises, whatever the state) is returned among the failures, not among
    the successes, and is still on the event queue afterwards: an error in
    one message neither stops the loop nor loses the message. *)
Theorem analyze_log_keeps_failed_message {X : Type}
    (process : FeedMessage → X → result bool * X)
    (messages : list FeedMessage) (fw : FeedWorld X) (m : FeedMessage) :
  (∀ x, (process m x).1 ≠ Ok true) →
  m ∈ messages →
  m ∈ feed fw →
  m ∈ (analyze_log process messages fw).1.2
  ∧ (m ∉ (analyze_log process messages fw).1.1)
  ∧ m ∈ feed (analyze_log process messages fw).2.
Proof.
  intros Hfail Hin Hfeed0. unfold analyze_log.
  destruct (analyze_loop_spec process messages [] [] fw)
    as (ok & bad & fw' & -> & Hperm & Hfeed & Hok).
  simpl.
  assert (m ∉ ok) as Hnok.
  { intros H. destruct (Hok m H) as [x Hx]. by apply (Hfail x). }
  split; [|split; [done|]].
  - rewrite <- Hperm in Hin. apply elem_of_app in Hin as [?|?]; done.
  - rewrite Hfeed. by apply list_elem_of_difference.
Qed.

Lemma analyze_log_keeps_failed_message_witness :
  mkFeedMessage "m-1" "garbage"
    ∈ (analyze_log Examples.process Examples.event_messages
         (mkFeedWorld tt Examples.event_messages [])).1.2
  ∧ (mkFeedMessage "m-1" "garbage"
       ∉ (analyze_log Examples.process Examples.event_messages
            (mkFeedWorld tt Examples.event_messages [])).1.1)
  ∧ mkFeedMessage "m-1" "garbage"
      ∈ feed (analyze_log Examples.process Examples.event_messages
                (mkFeedWorld tt Examples.event_messages [])).2.
Proof.
  apply (analyze_log_keeps_failed_message Examples.process Examples.event_messages
           (mkFeedWorld tt Examples.event_messages [])
           (mkFeedMessage "m-1" "garbage")).
  - intros x. discriminate.
  - apply list_elem_of_here.
  - apply list_elem_of_here.
Defined.

End Reconciler.

(** ** The gap-fill pass: [_load_missing_instance_data] *)

Section GapFillDefined.
Import CloudTrail.
Variable db : InstanceDb.

Lemma defined_step_spec defined e x :
  x ∈ defined_step db defined e
  ↔ x ∈ defined
    ∨ (x = ec2_instance_id e
       ∧ (_instance_event_is_complete e = true ∨ stored_instance db x)).
Proof.
  unfold defined_step, stored_instance.
  destruct (_instance_event_is_complete e); simpl.
  - set_solver.
  - repeat case_bool_decide; simpl; set_solver.
Qed.

Lemma defined_fold_spec (events : list CloudTrailInstanceEvent) defined x :
  x ∈ foldl (defined_step db) defined events
  ↔ x ∈ defined
    ∨ ∃ e, e ∈ events ∧ ec2_instance_id e = x
           ∧ (_instance_event_is_complete e = true ∨ stored_instance db x).
Proof.
  revert defined. induction events as [|e r IH]; intros defined; cbn [foldl].
  - split; [by left|]. intros [?|(e & He & _)]; [done|by apply elem_of_nil in He].
  - rewrite IH, defined_step_spec. split.
    + intros [[?|(-> & H)]|(e' & He' & H)].
      * by left.
      * right. exists e. split; [apply list_elem_of_here|done].
      * right. exists e'. split; [by apply list_elem_of_further|done].
    + intros [?|(e' & He' & Hid & H)]; [by left; left|].
      apply elem_of_cons in He' as [->|He'].
      * left. right. by split.
      * right. by exists e'.
Qed.

End GapFillDefined.

Section GapFill.
Import CloudTrail.
Variable describe_instances
  : string → string → gset string → gmap string DescribedInstance.
Variable db : InstanceDb.

Lemma describe_groups_calls defined groups acc (P : string * string * gset string → Prop) :
  Forall P (describe_calls acc) →
  (∀ account region events arn,
     (account, region, events) ∈ groups →
     account_arns db !! account = Some arn →
     (list_to_set (ec2_instance_id <$> events) ∖ defined : gset string) ≠ ∅ →
     P (arn, region, list_to_set (ec2_instance_id <$> events) ∖ defined)) →
  Forall P (describe_calls (describe_groups describe_instances db defined groups acc).1).
Proof.
  revert acc. induction groups as [|[[account region] events] rest IH];
    intros acc Hacc Hstep; cbn [describe_groups]; [done|].
  assert (∀ account0 region0 events0 arn,
     (account0, region0, events0) ∈ rest →
     account_arns db !! account0 = Some arn →
     (list_to_set (ec2_instance_id <$> events0) ∖ defined : gset string) ≠ ∅ →
     P (arn, region0, list_to_set (ec2_instance_id <$> events0) ∖ defined)) as Hrest.
  { intros ???? Hin. apply Hstep. by apply list_elem_of_further. }
  case_bool_decide as Hempty; [by apply IH|].
  destruct (account_arns db !! account) as [arn|] eqn:Harn; [|done].
  apply IH; [|done]. simpl. apply Forall_app. split; [done|].
  apply Forall_singleton. apply (Hstep account region events arn); [|done..].
  apply list_elem_of_here.
Qed.

(** X21.  The gap-fill pass asks the provider only about instances it cannot
    resolve otherwise.  Every describe call names a non-empty set of
    instances and, for each of them: the batch has an event of that instance
    in the account and region of the call; no event of the batch for that
    instance carries both the type and the image; and the store does not
    already hold the instance with an image and a typed event. *)
Theorem load_missing_instance_data_describes_only_unknown
    (instance_events : list CloudTrailInstanceEvent)
    (account_arn the_region : string) (ec2_instance_ids : gset string) :
  (account_arn, the_region, ec2_instance_ids)
    ∈ (_load_missing_instance_data describe_instances db instance_events).1 →
  ec2_instance_ids ≠ ∅
  ∧ ∀ id, id ∈ ec2_instance_ids →
      (∃ e, e ∈ instance_events ∧ ec2_instance_id e = id ∧ region e = the_region
            ∧ account_arns db !! aws_account_id e = Some account_arn)
      ∧ (∀ e, e ∈ instance_events → ec2_instance_id e = id →
              _instance_event_is_complete e = false)
      ∧ ¬ stored_instance db id.
Proof.
  unfold _load_missing_instance_data.
  set (defined := foldl (defined_step db) ∅ instance_events).
  set (groups := groupby (λ e, (aws_account_id e, region e)) instance_events).
  assert (Forall
    (λ call : string * string * gset string, call.2 ≠ ∅
       ∧ ∀ id, id ∈ call.2 →
           (∃ e, e ∈ instance_events ∧ ec2_instance_id e = id ∧ region e = call.1.2
                 ∧ account_arns db !! aws_account_id e = Some call.1.1)
           ∧ (∀ e, e ∈ instance_events → ec2_instance_id e = id →
                   _instance_event_is_complete e = false)
           ∧ ¬ stored_instance db id)
    (describe_calls
       (describe_groups describe_instances db defined groups (mkDescribing ∅ [])).1))
    as Hcalls.
  { apply describe_groups_calls; [by apply Forall_nil|].
    intros account reg events arn Hg Harn Hne. simpl. split; [done|].
    intros id [Hid Hundef]%elem_of_difference.
    apply elem_of_list_to_set, list_elem_of_fmap in Hid as (e & -> & He).
    destruct (groupby_sound (λ e, (aws_account_id e, region e)) _ _ _ _ Hg He)
      as [Hine Hkey].
    injection Hkey as Hacc Hreg.
    assert (∀ e', e' ∈ instance_events → ec2_instance_id e' = ec2_instance_id e →
              ¬ (_instance_event_is_complete e' = true
                 ∨ stored_instance db (ec2_instance_id e))) as Hno.
    { intros e' He' Hid' H. apply Hundef. subst defined.
      apply defined_fold_spec. right. by exists e'. }
    split; [|split].
    + exists e. by rewrite Hacc, Hreg.
    + intros e' He' Hid'. destruct (_instance_event_is_complete e') eqn:Hc; [|done].
      exfalso. apply (Hno e' He' Hid'). by left.
    + intros Hst. apply (Hno e Hine eq_refl). by right. }
  destruct (describe_groups describe_instances db defined groups (mkDescribing ∅ []))
    as [acc completed]. simpl in *.
  intros Hin. rewrite Forall_forall in Hcalls. exact (Hcalls _ Hin).
Qed.

End GapFill.

Lemma load_missing_instance_data_describes_only_unknown_witness :
  ({["i-1"]} : gset string) ≠ ∅
  ∧ ∀ id, id ∈ ({["i-1"]} : gset string) →
      (∃ e, e ∈ [Examples.stop_event] ∧ CloudTrail.ec2_instance_id e = id
            ∧ CloudTrail.region e = "us-east-1"
            ∧ CloudTrail.account_arns Examples.instance_db
                !! CloudTrail.aws_account_id e
              = Some Examples.customer_arn)
      ∧ (∀ e, e ∈ [Examples.stop_event] → CloudTrail.ec2_instance_id e = id →
              CloudTrail._instance_event_is_complete e = false)
      ∧ ¬ CloudTrail.stored_instance Examples.instance_db id.
Proof.
  apply (load_missing_instance_data_describes_only_unknown
           Examples.describe_nothing Examples.instance_db [Examples.stop_event]
           Examples.customer_arn "us-east-1" {["i-1"]}).
  compute_done.
Defined.


Section GapFillResolved.
Import CloudTrail.
Variable describe_instances
  : string → string → gset string → gmap string DescribedInstance.
Variable db : InstanceDb.

Lemma describe_groups_nothing_to_do defined groups acc :
  (∀ account region events e,
     (account, region, events) ∈ groups → e ∈ events → ec2_instance_id e ∈ defined) →
  describe_groups describe_instances db defined groups acc = (acc, true).
Proof.
  induction groups as [|[[account region] events] rest IH]; intros Hall;
    cbn [describe_groups]; [done|].
  rewrite bool_decide_eq_true_2.
  - apply IH. intros a r0 ev e Hin He.
    apply (Hall a r0 ev e); [by apply list_elem_of_further|done].
  - apply set_eq. intros x. split; [|set_solver].
    intros [Hx Hnd]%elem_of_difference. exfalso. apply Hnd.
    apply elem_of_list_to_set, list_elem_of_fmap in Hx as (e & -> & He).
    apply (Hall account region events e); [apply list_elem_of_here|done].
Qed.

Lemma backfill_nothing (e : CloudTrailInstanceEvent) : backfill ∅ e = e.
Proof. unfold backfill. rewrite lookup_empty. by destruct (ec2_ami_id e). Qed.

(** X22.  When every instance of the batch is resolved, by the store or by
    some event of the batch that carries both the type and the image
    (before or after the incomplete ones, in any account and region), the
    pass makes no call to the provider, describes nothing and leaves the
    events as they are. *)
Theorem load_missing_instance_data_resolved_batch
    (instance_events : list CloudTrailInstanceEvent) :
  (∀ e, e ∈ instance_events →
     stored_instance db (ec2_instance_id e)
     ∨ ∃ e', e' ∈ instance_events ∧ ec2_instance_id e' = ec2_instance_id e
             ∧ _instance_event_is_complete e' = true) →
  _load_missing_instance_data describe_instances db instance_events
  = ([], Some (∅, instance_events)).
Proof.
  intros Hall. unfold _load_missing_instance_data.
  rewrite describe_groups_nothing_to_do.
  - simpl. do 3 f_equal. clear. induction instance_events as [|e r IH]; [done|].
    rewrite fmap_cons, backfill_nothing. by f_equal.
  - intros account reg events e Hg He.
    destruct (groupby_sound (λ e, (aws_account_id e, region e)) _ _ _ _ Hg He)
      as [Hine _].
    apply (proj2 (defined_fold_spec db instance_events ∅ (ec2_instance_id e))). right.
    destruct (Hall e Hine) as [Hst|(e' & He' & Hid & Hc)].
    + exists e. split; [done|]. split; [done|]. by right.
    + exists e'. split; [done|]. split; [done|]. by left.
Qed.

End GapFillResolved.

Lemma load_missing_instance_data_resolved_batch_witness :
  CloudTrail._load_missing_instance_data Examples.describe_nothing
    Examples.instance_db [Examples.stop_event; Examples.run_event]
  = ([], Some (∅, [Examples.stop_event; Examples.run_event])).
Proof.
  apply (load_missing_instance_data_resolved_batch
           Examples.describe_nothing Examples.instance_db
           [Examples.stop_event; Examples.run_event]).
  intros e He. right. exists Examples.run_event.
  split; [apply list_elem_of_further, list_elem_of_here|].
  split; [|reflexivity].
  apply elem_of_cons in He. destruct He as [He|He].
  - rewrite He. reflexivity.
  - apply list_elem_of_singleton in He. rewrite He. reflexivity.
Defined.

(** ** The instance type catalog: [_save_ec2_instance_type_definitions] *)

Section CatalogProperties.
Import Catalog.
Context {number : Type}.
Implicit Types (table : gmap string (Attributes number))
  (definitions : list (string * Attributes number)).

Lemma attributes_eta (a : Attributes number) : mkAttributes (memory a) (vcpu a) = a.
Proof. by destruct a. Qed.

Lemma save_definitions_table definitions table log :
  (_save_ec2_instance_type_definitions definitions table log).1
  = table ∪ list_to_map definitions.
Proof.
  revert table log. induction definitions as [|[name a] rest IH]; intros table log.
  - simpl. by rewrite (right_id_L ∅ (∪)).
  - cbn [_save_ec2_instance_type_definitions]. unfold get_or_create.
    rewrite attributes_eta. simpl.
    destruct (table !! name) as [obj|] eqn:Hname; rewrite IH.
    + apply map_eq. intros k. rewrite !lookup_union.
      destruct (decide (k = name)) as [->|Hne].
      * rewrite Hname. by rewrite !union_Some_l.
      * by rewrite lookup_insert_ne.
    + apply map_eq. intros k. rewrite !lookup_union.
      destruct (decide (k = name)) as [->|Hne].
      * rewrite lookup_insert_eq, Hname. rewrite lookup_insert_eq.
        by rewrite union_Some_l, (left_id_L None (∪)).
      * by rewrite !lookup_insert_ne.
Qed.

(** X23.  Saving instance type definitions never overwrites: a type already
    in the table keeps the attributes stored for it, whatever the new
    definitions say, and a type not in the table gets the attributes the
    definitions give it, if any. *)
Theorem save_definitions_is_append_only definitions table log name :
  (_save_ec2_instance_type_definitions definitions table log).1 !! name
  = match table !! name with
    | Some stored => Some stored
    | None => (list_to_map definitions : gmap string (Attributes number)) !! name
    end.
Proof.
  rewrite save_definitions_table, lookup_union.
  destruct (table !! name); [by rewrite union_Some_l|by rewrite (left_id_L None (∪))].
Qed.

(** X24.  Saving the same definitions a second time leaves the table as the
    first save left it. *)
Theorem save_definitions_twice_is_once definitions table log log' :
  (_save_ec2_instance_type_definitions definitions
     (_save_ec2_instance_type_definitions definitions table log).1 log').1
  = (_save_ec2_instance_type_definitions definitions table log).1.
Proof.
  rewrite !save_definitions_table. apply map_eq. intros k.
  rewrite !lookup_union.
  destruct (table !! k), ((list_to_map definitions : gmap _ _) !! k); done.
Qed.

End CatalogProperties.

(** ** The renaming of the periodic tasks: [update_celery_periodic_tasks] *)

Section Migration.
Import Migration0037.
Context {T : Type}.
Implicit Types (tasks : gmap string T) (names : list (string * string)).

Lemma rename_step_lookup tasks old_name new_name k :
  old_name ≠ new_name →
  rename_step tasks (old_name, new_name) !! k
  = if decide (k = old_name) then None
    else if decide (k = new_name)
         then match tasks !! new_name with
              | Some t => Some t
              | None => tasks !! old_name
              end
         else tasks !! k.
Proof.
  intros Hne. unfold rename_step.
  destruct (tasks !! old_name) as [task|] eqn:Hold.
  - case_bool_decide as Hnew.
    + destruct Hnew as [t Hnew]. rewrite Hnew.
      repeat case_decide; subst; simplify_map_eq; done.
    + assert (tasks !! new_name = None) as Hnone.
      { destruct (tasks !! new_name); [exfalso; eauto|done]. }
      rewrite Hnone. repeat case_decide; subst; simplify_map_eq; done.
  - repeat case_decide; subst; try done.
    by destruct (tasks !! new_name).
Qed.

Lemma renamed_from_cons o n names k :
  renamed_from ((o, n) :: names) k
  = if decide (n = k) then Some o else renamed_from names k.
Proof.
  unfold renamed_from. simpl. case_decide; [done|].
  destruct (list_find (λ p, p.2 = k) names) as [[i p]|]; done.
Qed.

Lemma renamed_from_None names k : k ∉ names.*2 → renamed_from names k = None.
Proof.
  induction names as [|[o n] r IH]; intros Hk; [done|].
  rewrite fmap_cons in Hk. apply not_elem_of_cons in Hk as [Hne Hk].
  rewrite renamed_from_cons. rewrite decide_False by done. by apply IH.
Qed.

Lemma renamed_from_Some names k o : renamed_from names k = Some o → o ∈ names.*1.
Proof.
  induction names as [|[o' n] r IH]; [done|].
  rewrite renamed_from_cons. case_decide.
  - intros [= ->]. apply list_elem_of_here.
  - intros H1. apply list_elem_of_further. by apply IH.
Qed.

(** The table after the loop, name by name. *)
Lemma rename_fold_lookup names tasks k :
  NoDup names.*1 → NoDup names.*2 →
  (∀ o n, o ∈ names.*1 → n ∈ names.*2 → o ≠ n) →
  foldl rename_step tasks names !! k
  = if decide (k ∈ names.*1) then None
    else match renamed_from names k with
         | Some old_name =>
             match tasks !! k with
             | Some t => Some t
             | None => tasks !! old_name
             end
         | None => tasks !! k
         end.
Proof.
  revert tasks. induction names as [|[o n] r IH]; intros tasks Ho Hn Hdisj.
  - cbn [foldl fmap list_fmap].
    destruct (decide (k ∈ [])) as [Hk|_]; [by apply elem_of_nil in Hk|done].
  - rewrite !fmap_cons in *. cbn [foldl fst snd] in *.
    apply NoDup_cons in Ho as [Ho1 Ho]. apply NoDup_cons in Hn as [Hn1 Hn].
    assert (o ≠ n) as Hon by (apply Hdisj; apply list_elem_of_here).
    rewrite IH; [|done|done|].
    2:{ intros o' n' ? ?. apply Hdisj; by apply list_elem_of_further. }
    rewrite renamed_from_cons.
    destruct (decide (k = o)) as [->|Hko].
    + rewrite (decide_True (P := o ∈ o :: r.*1)) by apply list_elem_of_here.
      rewrite decide_False by done.
      rewrite renamed_from_None.
      2:{ intros Hin. eapply Hdisj; [apply list_elem_of_here| |done].
          by apply list_elem_of_further. }
      rewrite rename_step_lookup by done. by rewrite decide_True.
    + destruct (decide (k ∈ r.*1)) as [Hkr|Hkr].
      * by rewrite decide_True by (by apply list_elem_of_further).
      * rewrite (decide_False (P := k ∈ o :: r.*1)).
        2:{ intros [?|?]%elem_of_cons; done. }
        destruct (decide (n = k)) as [->|Hnk].
        -- rewrite renamed_from_None by done.
           rewrite rename_step_lookup by done.
           rewrite decide_False by done. by rewrite decide_True.
        -- destruct (renamed_from r k) as [old_name|] eqn:Hfrom.
           ++ pose proof (renamed_from_Some _ _ _ Hfrom) as Hold.
              assert (old_name ≠ o) as H1 by (by intros ->).
              assert (old_name ≠ n) as H2.
              { eapply Hdisj; [by apply list_elem_of_further|apply list_elem_of_here]. }
              rewrite !rename_step_lookup by done.
              rewrite !decide_False by done. done.
           ++ rewrite rename_step_lookup by done.
              by rewrite !decide_False by done.
Qed.

Lemma periodic_task_names_wf :
  NoDup periodic_task_names.*1 ∧ NoDup periodic_task_names.*2
  ∧ ∀ o n, o ∈ periodic_task_names.*1 → n ∈ periodic_task_names.*2 → o ≠ n.
Proof.
  split; [compute_done|]. split; [compute_done|].
  intros o n Ho Hn.
  assert (Forall (λ o, Forall (λ n, o ≠ n) periodic_task_names.*2)
                 periodic_task_names.*1) as H by compute_done.
  rewrite Forall_forall in H. specialize (H o Ho). rewrite Forall_forall in H.
  by apply H.
Qed.

Lemma migrated_lookup tasks k :
  foldl rename_step tasks periodic_task_names !! k
  = if decide (k ∈ periodic_task_names.*1) then None
    else match renamed_from periodic_task_names k with
         | Some old_name =>
             match tasks !! k with
             | Some t => Some t
             | None => tasks !! old_name
             end
         | None => tasks !! k
         end.
Proof.
  destruct periodic_task_names_wf as (H1 & H2 & H3). by apply rename_fold_lookup.
Qed.

Lemma renamed_from_pair names o n :
  NoDup names.*2 → (o, n) ∈ names → renamed_from names n = Some o.
Proof.
  induction names as [|[o' n'] r IH]; intros Hn Hin; [by apply elem_of_nil in Hin|].
  rewrite fmap_cons in Hn. apply NoDup_cons in Hn as [Hn1 Hn].
  rewrite renamed_from_cons. apply elem_of_cons in Hin as [[= <- <-]|Hin].
  - by rewrite decide_True.
  - rewrite decide_False; [by apply IH|].
    intros ->. apply Hn1. by apply (list_elem_of_fmap_2 snd r (o, n)).
Qed.

(** X25.  After the migration no task carries one of the old names, and a
    task whose name is neither an old nor a new name of the list is left as
    it was. *)
Theorem migration_retires_old_names tasks migrated k :
  update_celery_periodic_tasks (Some tasks) = Some migrated →
  (k ∈ periodic_task_names.*1 → migrated !! k = None)
  ∧ (k ∉ periodic_task_names.*1 → k ∉ periodic_task_names.*2 →
     migrated !! k = tasks !! k).
Proof.
  intros Hrun.
  assert (migrated = foldl rename_step tasks periodic_task_names) as ->
    by (unfold update_celery_periodic_tasks in Hrun; congruence).
  rewrite migrated_lookup. split.
  - intros Hk. by rewrite decide_True.
  - intros Hk1 Hk2. rewrite decide_False by done.
    by rewrite renamed_from_None.
Qed.

(** X26.  Under a new name the migration leaves the task that already had
    that name when there is one (the old version is then deleted, not
    renamed over it), and otherwise the task that had the old name. *)
Theorem migration_keeps_existing_new_task tasks migrated old_name new_name :
  (old_name, new_name) ∈ periodic_task_names →
  update_celery_periodic_tasks (Some tasks) = Some migrated →
  migrated !! new_name
  = match tasks !! new_name with
    | Some t => Some t
    | None => tasks !! old_name
    end.
Proof.
  intros Hin Hrun.
  assert (migrated = foldl rename_step tasks periodic_task_names) as ->
    by (unfold update_celery_periodic_tasks in Hrun; congruence).
  destruct periodic_task_names_wf as (H1 & H2 & H3).
  rewrite migrated_lookup.
  rewrite decide_False.
  2:{ intros Hk. eapply H3; [exact Hk| |done].
      by apply (list_elem_of_fmap_2 snd periodic_task_names (old_name, new_name)). }
  by rewrite (renamed_from_pair _ old_name new_name).
Qed.

(** X27.  Running the migration a second time changes nothing. *)
Theorem migration_is_idempotent (tasks : option (gmap string T)) :
  update_celery_periodic_tasks (update_celery_periodic_tasks tasks)
  = update_celery_periodic_tasks tasks.
Proof.
  destruct tasks as [tasks|]; [|done]. unfold update_celery_periodic_tasks.
  f_equal. apply map_eq. intros k. rewrite migrated_lookup.
  destruct (decide (k ∈ periodic_task_names.*1)) as [Hk|Hk].
  - rewrite migrated_lookup. by rewrite decide_True.
  - destruct (renamed_from periodic_task_names k) as [old_name|] eqn:Hfrom; [|done].
    apply renamed_from_Some in Hfrom.
    rewrite (migrated_lookup tasks old_name). rewrite decide_True by done.
    by destruct (foldl rename_step tasks periodic_task_names !! k).
Qed.

End Migration.

Lemma migration_retires_old_names_witness :
  ("analyze_log_every_2_mins" ∈ Migration0037.periodic_task_names.*1 →
     foldl Migration0037.rename_step Examples.old_beat_table
           Migration0037.periodic_task_names !! "analyze_log_every_2_mins" = None)
  ∧ ("analyze_log_every_2_mins" ∉ Migration0037.periodic_task_names.*1 →
     "analyze_log_every_2_mins" ∉ Migration0037.periodic_task_names.*2 →
     foldl Migration0037.rename_step Examples.old_beat_table
           Migration0037.periodic_task_names !! "analyze_log_every_2_mins"
     = Examples.old_beat_table !! "analyze_log_every_2_mins").
Proof.
  apply (migration_retires_old_names Examples.old_beat_table
           (foldl Migration0037.rename_step Examples.old_beat_table
                  Migration0037.periodic_task_names)
           "analyze_log_every_2_mins").
  reflexivity.
Defined.

Lemma migration_keeps_existing_new_task_witness :
  foldl Migration0037.rename_step Examples.old_beat_table
        Migration0037.periodic_task_names !! "pilot_analyze_log_every_2_mins"
  = match Examples.old_beat_table !! "pilot_analyze_log_every_2_mins" with
    | Some t => Some t
    | None => Examples.old_beat_table !! "analyze_log_every_2_mins"
    end.
Proof.
  apply (migration_keeps_existing_new_task Examples.old_beat_table
           (foldl Migration0037.rename_step Examples.old_beat_table
                  Migration0037.periodic_task_names)
           "analyze_log_every_2_mins" "pilot_analyze_log_every_2_mins").
  - compute_done.
  - reflexivity.
Defined.

(** ** Identity header authentication: [authenticate] *)

Section IdentityHeader.
Import Authentication.
Variable decode : string → Decoding.
Variable username_of : json → string.

Lemma subscript_Return value key v :
  subscript value key = Return v →
  ∃ d, value = JDict d ∧ dict_get key d = Some v.
Proof.
  destruct value as [| | | | |d]; simpl; try done.
  destruct (dict_get key d) as [v'|] eqn:Hget; [|done].
  intros [= ->]. by exists d.
Qed.

Lemma present_Some auth_header :
  present auth_header = true → ∃ h, auth_header = Some h ∧ h ≠ "".
Proof. destruct auth_header as [[|a h]|]; try done. intros _. by eexists. Qed.

(** What a successful parse says of the header. *)
Lemma parse_requests_header_Return auth_header header account_number is_org_admin :
  parse_requests_header decode auth_header
  = Return (header, account_number, is_org_admin) →
  (present auth_header = false ∧ header = None ∧ account_number = JNull
   ∧ is_org_admin = JBool false)
  ∨ (present auth_header = true ∧ header = auth_header
     ∧ ∃ d_auth d_identity user,
         decode (default "" auth_header) = Decoded (JDict d_auth)
         ∧ dict_get "identity" d_auth = Some (JDict d_identity)
         ∧ dict_get "account_number" d_identity = Some account_number
         ∧ get (JDict d_identity) "user" (JDict []) = Return user
         ∧ get user "is_org_admin" JNull = Return is_org_admin).
Proof.
  unfold parse_requests_header.
  destruct (present auth_header) eqn:Hp; cbn [negb].
  - destruct (decode (default "" auth_header)) as [auth|[|]] eqn:Hd; [|done..].
    destruct (subscript auth "identity") as [identity|e] eqn:Hid; cbn [obind].
    2:{ by destruct e. }
    destruct (subscript identity "account_number") as [a|e] eqn:Hacc.
    2:{ by destruct e. }
    apply subscript_Return in Hid as (d_auth & -> & Hid).
    apply subscript_Return in Hacc as (d_identity & -> & Hacc).
    destruct (get (JDict d_identity) "user" (JDict [])) as [user|e] eqn:Hu;
      cbn [obind]; [|done].
    destruct (get user "is_org_admin" JNull) as [o|e] eqn:Ho; cbn [obind]; [|done].
    intros [= <- <- <-]. right. split; [done|]. split; [done|].
    by exists d_auth, d_identity, user.
  - intros [= <- <- <-]. by left.
Qed.

(** X28.  The default authentication class authenticates a request only on
    these grounds: the identity header is present and decodes to an object
    whose identity has a true account number and a user entry with a true
    [is_org_admin], and a user with that account number as username is
    already stored.  The user returned is that one, and no user is
    created. *)
Theorem identity_header_authentication_is_sound
    (auth_header : option string) (users users' : gset string)
    (user : string) (flag : bool) :
  authenticate IdentityHeaderAuthentication decode username_of auth_header users
  = (Return (Some (user, flag)), users') →
  ∃ h d_auth d_identity d_user account_number is_org_admin,
    auth_header = Some h ∧ h ≠ ""
    ∧ decode h = Decoded (JDict d_auth)
    ∧ dict_get "identity" d_auth = Some (JDict d_identity)
    ∧ dict_get "account_number" d_identity = Some account_number
    ∧ truth account_number = true
    ∧ dict_get "user" d_identity = Some (JDict d_user)
    ∧ dict_get "is_org_admin" d_user = Some is_org_admin
    ∧ truth is_org_admin = true
    ∧ user = username_of account_number
    ∧ user ∈ users
    ∧ users' = users
    ∧ flag = true.
Proof.
  unfold authenticate.
  destruct (parse_requests_header decode auth_header)
    as [[[header account_number] is_org_admin]|e] eqn:Hparse; [|done].
  apply parse_requests_header_Return in Hparse
    as [(Hp & -> & -> & ->)|(Hp & -> & d_auth & d_identity & u & Hd & Hid & Hacc & Hu & Ho)].
  { done. }
  rewrite Hp. cbn [negb].
  destruct (present_Some _ Hp) as (h & -> & Hne). simpl in Hd.
  unfold assert_org_admin, get_user. simpl.
  destruct (truth is_org_admin) eqn:Hadmin; simpl; [|done].
  destruct (truth account_number) eqn:Hnum; simpl; [|done].
  case_bool_decide as Hin; [|done].
  intros [= <- <- <-].
  (* a true [is_org_admin] cannot come from a default *)
  simpl in Hu. destruct (dict_get "user" d_identity) as [u'|] eqn:Huser.
  - injection Hu as ->. destruct u as [| | | | |d_user]; try done.
    simpl in Ho. destruct (dict_get "is_org_admin" d_user) as [o|] eqn:Hoa.
    + injection Ho as ->.
      by exists h, d_auth, d_identity, d_user, account_number, is_org_admin.
    + injection Ho as <-. done.
  - injection Hu as <-. simpl in Ho. injection Ho as <-. done.
Qed.


(** X30.  A header whose identity has an account number and a user entry
    that is not an object (null, for instance) is not refused as an
    authentication failure: in every class, reading [is_org_admin] from that
    entry raises AttributeError, and the stored users are left as they
    were. *)
Theorem malformed_user_entry_raises_attribute_error
    (self : AuthenticationClass) (h : string) (d_auth d_identity : list (string * json))
    (account_number user : json) (users : gset string) :
  h ≠ "" →
  decode h = Decoded (JDict d_auth) →
  dict_get "identity" d_auth = Some (JDict d_identity) →
  dict_get "account_number" d_identity = Some account_number →
  dict_get "user" d_identity = Some user →
  (∀ d_user, user ≠ JDict d_user) →
  authenticate self decode username_of (Some h) users = (Raises AttributeError, users).
Proof.
  intros Hne Hd Hid Hacc Huser Hnot.
  unfold authenticate, parse_requests_header.
  assert (present (Some h) = true) as -> by (by destruct h).
  simpl. rewrite Hd. simpl. rewrite Hid. simpl. rewrite Hacc, Huser. simpl.
  destruct user as [| | | | |d_user]; try done. by destruct (Hnot d_user).
Qed.

End IdentityHeader.

Lemma identity_header_authentication_is_sound_witness :
  ∃ h d_auth d_identity d_user account_number is_org_admin,
    Some Examples.org_admin_header = Some h ∧ h ≠ ""
    ∧ Examples.decode h = Authentication.Decoded (JDict d_auth)
    ∧ dict_get "identity" d_auth = Some (JDict d_identity)
    ∧ dict_get "account_number" d_identity = Some account_number
    ∧ Authentication.truth account_number = true
    ∧ dict_get "user" d_identity = Some (JDict d_user)
    ∧ dict_get "is_org_admin" d_user = Some is_org_admin
    ∧ Authentication.truth is_org_admin = true
    ∧ "1234567" = Examples.username_of account_number
    ∧ "1234567" ∈ ({["1234567"]} : gset string)
    ∧ ({["1234567"]} : gset string) = {["1234567"]}
    ∧ true = true.
Proof.
  apply (identity_header_authentication_is_sound
           Examples.decode Examples.username_of
           (Some Examples.org_admin_header) {["1234567"]} {["1234567"]}
           "1234567" true).
  reflexivity.
Defined.

Lemma malformed_user_entry_raises_attribute_error_witness :
  Authentication.authenticate Authentication.IdentityHeaderAuthentication
    Examples.decode Examples.username_of (Some Examples.null_user_header)
    {["1234567"]}
  = (Authentication.Raises Authentication.AttributeError, {["1234567"]}).
Proof.
  apply (malformed_user_entry_raises_attribute_error
           Examples.decode Examples.username_of
           Authentication.IdentityHeaderAuthentication Examples.null_user_header
           [("identity", JDict [("account_number", JStr "1234567"); ("user", JNull)])]
           [("account_number", JStr "1234567"); ("user", JNull)]
           (JStr "1234567") JNull {["1234567"]}).
  - discriminate.
  - reflexivity.
  - reflexivity.
  - reflexivity.
  - reflexivity.
  - discriminate.
Defined.
